(** * Query-tree traversal flags, the traversal engine and the CREATE OPERATOR
      command of postgres-cpp, embedded in Rocq.

    Sources:
    - [src/include/nodes/nodeFuncs.h]: the QTW_* flag bits and the
      declarations of the walker and mutator entry points;
    - [src/backend/commands/operatorcmds.c]: [DefineOperator].

    The bodies of the traversal engine (nodeFuncs.c) are not part of the
    sources at hand; the engine is modelled from the specification and every
    such definition says so in its documentation. *)

From Stdlib Require Import ZArith Lia Bool Ascii.
From stdpp Require Import base list strings pretty.

Local Open Scope Z_scope.

(* ===================================================================== *)
(** * Part I. Errors and the command monad                                *)
(* ===================================================================== *)

(** Object identifiers ([Oid], an unsigned 32-bit integer in C). *)
Definition Oid := Z.

(** [#define InvalidOid ((Oid) 0)] and
    [#define OidIsValid(objectId) ((bool) ((objectId) != InvalidOid))]. *)
Definition InvalidOid : Oid := 0.
Definition OidIsValid (objectId : Oid) : bool := negb (objectId =? InvalidOid).

(** Severity of a report: [ereport(WARNING, ...)] returns to the caller,
    [ereport(ERROR, ...)] does not. *)
Inductive ErrLevel := WARNING | ERROR.

(** The SQLSTATE classes used by [DefineOperator] and by the collaborators it
    calls. *)
Inductive SqlState :=
| ERRCODE_INVALID_FUNCTION_DEFINITION
| ERRCODE_INVALID_OBJECT_DEFINITION
| ERRCODE_SYNTAX_ERROR
| ERRCODE_INSUFFICIENT_PRIVILEGE
| ERRCODE_UNDEFINED_FUNCTION
| ERRCODE_AMBIGUOUS_FUNCTION
| ERRCODE_UNDEFINED_OBJECT
| ERRCODE_INVALID_SCHEMA_NAME
| ERRCODE_INTERNAL_ERROR.

Record ErrorData := mkErrorData {
  elevel : ErrLevel;
  sqlerrcode : SqlState;
  message : string
}.

Global Instance ErrLevel_eq_dec : EqDecision ErrLevel.
Proof. solve_decision. Defined.
Global Instance SqlState_eq_dec : EqDecision SqlState.
Proof. solve_decision. Defined.
Global Instance ErrorData_eq_dec : EqDecision ErrorData.
Proof. solve_decision. Defined.

(** A failure the user sees: any report at level [ERROR]. *)
Definition is_user_error (e : ErrorData) : bool :=
  match elevel e with ERROR => true | WARNING => false end.

(** An authorization failure: an [ERROR] of class insufficient-privilege. *)
Definition is_authorization_error (e : ErrorData) : bool :=
  is_user_error e && bool_decide (sqlerrcode e = ERRCODE_INSUFFICIENT_PRIVILEGE).

(** The double quote character, for messages that quote a name. *)
Definition dquote : string := String (ascii_of_nat 34) EmptyString.

(** Result of a catalog lookup: a value, or the error the lookup raised. *)
Definition res (A : Type) : Type := ErrorData + A.

Module Cmd.
(** A command runs over a state [St] and either returns a value or aborts
    with an error; the state it leaves behind is returned in both cases, so
    that what an aborted command did before the error stays observable. *)
Definition t (St A : Type) : Type := St -> res A * St.

Definition ret {St A} (a : A) : t St A := fun s => (inr a, s).

Definition bind {St A B} (c : t St A) (k : A -> t St B) : t St B :=
  fun s => match c s with
           | (inl e, s') => (inl e, s')
           | (inr a, s') => k a s'
           end.

(** [ereport(ERROR, ...)]: abort. *)
Definition raise {St A} (e : ErrorData) : t St A := fun s => (inl e, s).

(** A lookup that reads the state and may raise. *)
Definition lookup {St A} (f : St -> res A) : t St A := fun s => (f s, s).

(** A lookup that reads the state and cannot raise. *)
Definition read {St A} (f : St -> A) : t St A := fun s => (inr (f s), s).

(** [if (cond) stmt;] where [stmt] does not return a value. *)
Definition when {St} (cond : bool) (c : t St unit) : t St unit :=
  if cond then c else ret tt.

(** [foreach(cell, l) body], the body updating the local variables [V]. *)
Fixpoint foreach {St A V} (l : list A) (body : A -> V -> t St V) (v : V)
  : t St V :=
  match l with
  | [] => ret v
  | x :: l' => bind (body x v) (foreach l' body)
  end.
End Cmd.

Declare Scope cmd_scope.
Delimit Scope cmd_scope with cmd.
Notation "x <- c ;; k" := (Cmd.bind c (fun x => k))
  (at level 100, c at next level, right associativity) : cmd_scope.
Notation "c ;;; k" := (Cmd.bind c (fun _ => k))
  (at level 100, right associativity) : cmd_scope.

(* ===================================================================== *)
(** * Part II. DefineOperator (operatorcmds.c)                            *)
(* ===================================================================== *)

(** [TypeName] (parsenodes.h), with the fields [DefineOperator] reads. *)
Record TypeName := mkTypeName {
  tn_names : list string;
  setof : bool
}.

(** The argument of a definition element ([DefElem.arg], a [Node *]). *)
Inductive DefArg :=
| ArgNone
| ArgTypeName (t : TypeName)
| ArgString (s : string)
| ArgInteger (i : Z)
| ArgNames (l : list string).

(** [DefElem]: one [name = value] item of the definition list. *)
Record DefElem := mkDefElem {
  defname : string;
  arg : DefArg
}.

Inductive AclResult := ACLCHECK_OK | ACLCHECK_NO_PRIV | ACLCHECK_NOT_OWNER.
Inductive AclMode := ACL_CREATE | ACL_USAGE | ACL_EXECUTE.
Inductive AclObjectKind := ACL_KIND_NAMESPACE | ACL_KIND_PROC | ACL_KIND_TYPE.

Global Instance AclResult_eq_dec : EqDecision AclResult.
Proof. solve_decision. Defined.

Record ObjectAddress := mkObjectAddress {
  classId : Oid;
  objectId : Oid;
  objectSubId : Z
}.

(** The arguments of the call to [OperatorCreate], in the order of the call. *)
Record OperatorCreateArgs := mkOperatorCreateArgs {
  oc_operatorName : string;
  oc_operatorNamespace : Oid;
  oc_leftTypeId : Oid;
  oc_rightTypeId : Oid;
  oc_procedureId : Oid;
  oc_commutatorName : list string;
  oc_negatorName : list string;
  oc_restrictionId : Oid;
  oc_joinId : Oid;
  oc_canMerge : bool;
  oc_canHash : bool
}.

(** The collaborators of [DefineOperator]: functions of other compilation
    units (namespace.c, aclchk.c, define.c, parse_type.c, parse_func.c,
    lsyscache.c, pg_operator.c, pgstrcasecmp.c) and the type identifiers of
    pg_type.h.  None of them is part of the sources at hand, so they are
    parameters.  Lookups read the catalog and may raise; only
    [OperatorCreate] returns a new catalog. *)
Record Services (Catalog : Type) := mkServices {
  GetUserId : Oid;
  QualifiedNameGetCreationNamespace :
    Catalog -> list string -> res (Oid * string);
  get_namespace_name : Catalog -> Oid -> string;
  pg_namespace_aclcheck : Catalog -> Oid -> Oid -> AclMode -> AclResult;
  pg_type_aclcheck : Catalog -> Oid -> Oid -> AclMode -> AclResult;
  pg_proc_aclcheck : Catalog -> Oid -> Oid -> AclMode -> AclResult;
  pg_strcasecmp : string -> string -> Z;
  defGetTypeName : DefElem -> res TypeName;
  defGetQualifiedName : DefElem -> res (list string);
  defGetBoolean : DefElem -> res bool;
  typenameTypeId : Catalog -> TypeName -> res Oid;
  (* LookupFuncName(funcname, nargs, argtypes, noError) *)
  LookupFuncName : Catalog -> list string -> Z -> list Oid -> bool -> res Oid;
  get_func_rettype : Catalog -> Oid -> res Oid;
  NameListToString : list string -> string;
  format_type_be : Catalog -> Oid -> string;
  OperatorCreate : OperatorCreateArgs -> Catalog -> res ObjectAddress * Catalog;
  INTERNALOID : Oid;
  OIDOID : Oid;
  INT4OID : Oid;
  INT2OID : Oid;
  FLOAT8OID : Oid
}.

Arguments GetUserId {Catalog}.
Arguments QualifiedNameGetCreationNamespace {Catalog}.
Arguments get_namespace_name {Catalog}.
Arguments pg_namespace_aclcheck {Catalog}.
Arguments pg_type_aclcheck {Catalog}.
Arguments pg_proc_aclcheck {Catalog}.
Arguments pg_strcasecmp {Catalog}.
Arguments defGetTypeName {Catalog}.
Arguments defGetQualifiedName {Catalog}.
Arguments defGetBoolean {Catalog}.
Arguments typenameTypeId {Catalog}.
Arguments LookupFuncName {Catalog}.
Arguments get_func_rettype {Catalog}.
Arguments NameListToString {Catalog}.
Arguments format_type_be {Catalog}.
Arguments OperatorCreate {Catalog}.
Arguments INTERNALOID {Catalog}.
Arguments OIDOID {Catalog}.
Arguments INT4OID {Catalog}.
Arguments INT2OID {Catalog}.
Arguments FLOAT8OID {Catalog}.

(** The state a command runs over: the system catalog, and the notices
    (reports below [ERROR]) sent to the client so far. *)
Record Backend (Catalog : Type) := mkBackend {
  catalog : Catalog;
  notices : list ErrorData
}.
Arguments mkBackend {Catalog}.
Arguments catalog {Catalog}.
Arguments notices {Catalog}.

(** The local variables the parameter loop of [DefineOperator] assigns. *)
Record OperatorVars := mkOperatorVars {
  canMerge : bool;
  canHash : bool;
  functionName : list string;
  typeName1 : option TypeName;
  typeName2 : option TypeName;
  commutatorName : list string;
  negatorName : list string;
  restrictionName : list string;
  joinName : list string
}.

(** Their initial values (the declarations at the head of the function). *)
Definition OperatorVars_init : OperatorVars :=
  {| canMerge := false; canHash := false; functionName := [];
     typeName1 := None; typeName2 := None;
     commutatorName := []; negatorName := [];
     restrictionName := []; joinName := [] |}.

Definition set_typeName1 (v : OperatorVars) (x : option TypeName) :=
  {| canMerge := canMerge v; canHash := canHash v;
     functionName := functionName v; typeName1 := x;
     typeName2 := typeName2 v; commutatorName := commutatorName v;
     negatorName := negatorName v; restrictionName := restrictionName v;
     joinName := joinName v |}.
Definition set_typeName2 (v : OperatorVars) (x : option TypeName) :=
  {| canMerge := canMerge v; canHash := canHash v;
     functionName := functionName v; typeName1 := typeName1 v;
     typeName2 := x; commutatorName := commutatorName v;
     negatorName := negatorName v; restrictionName := restrictionName v;
     joinName := joinName v |}.
Definition set_functionName (v : OperatorVars) (x : list string) :=
  {| canMerge := canMerge v; canHash := canHash v;
     functionName := x; typeName1 := typeName1 v;
     typeName2 := typeName2 v; commutatorName := commutatorName v;
     negatorName := negatorName v; restrictionName := restrictionName v;
     joinName := joinName v |}.
Definition set_commutatorName (v : OperatorVars) (x : list string) :=
  {| canMerge := canMerge v; canHash := canHash v;
     functionName := functionName v; typeName1 := typeName1 v;
     typeName2 := typeName2 v; commutatorName := x;
     negatorName := negatorName v; restrictionName := restrictionName v;
     joinName := joinName v |}.
Definition set_negatorName (v : OperatorVars) (x : list string) :=
  {| canMerge := canMerge v; canHash := canHash v;
     functionName := functionName v; typeName1 := typeName1 v;
     typeName2 := typeName2 v; commutatorName := commutatorName v;
     negatorName := x; restrictionName := restrictionName v;
     joinName := joinName v |}.
Definition set_restrictionName (v : OperatorVars) (x : list string) :=
  {| canMerge := canMerge v; canHash := canHash v;
     functionName := functionName v; typeName1 := typeName1 v;
     typeName2 := typeName2 v; commutatorName := commutatorName v;
     negatorName := negatorName v; restrictionName := x;
     joinName := joinName v |}.
Definition set_joinName (v : OperatorVars) (x : list string) :=
  {| canMerge := canMerge v; canHash := canHash v;
     functionName := functionName v; typeName1 := typeName1 v;
     typeName2 := typeName2 v; commutatorName := commutatorName v;
     negatorName := negatorName v; restrictionName := restrictionName v;
     joinName := x |}.
Definition set_canHash (v : OperatorVars) (x : bool) :=
  {| canMerge := canMerge v; canHash := x;
     functionName := functionName v; typeName1 := typeName1 v;
     typeName2 := typeName2 v; commutatorName := commutatorName v;
     negatorName := negatorName v; restrictionName := restrictionName v;
     joinName := joinName v |}.
Definition set_canMerge (v : OperatorVars) (x : bool) :=
  {| canMerge := x; canHash := canHash v;
     functionName := functionName v; typeName1 := typeName1 v;
     typeName2 := typeName2 v; commutatorName := commutatorName v;
     negatorName := negatorName v; restrictionName := restrictionName v;
     joinName := joinName v |}.

Section DefineOperator.
Context {Catalog : Type} (svc : Services Catalog).

Abbreviation cmd := (Cmd.t (Backend Catalog)).
Local Open Scope cmd_scope.

(** [ereport(ERROR, (errcode(code), errmsg(msg)))]. *)
Definition ereport_ERROR {A} (code : SqlState) (msg : string) : cmd A :=
  Cmd.raise (mkErrorData ERROR code msg).

(** [ereport(WARNING, (errcode(code), errmsg(msg)))]: the notice goes to the
    client and control returns. *)
Definition ereport_WARNING (code : SqlState) (msg : string) : cmd unit :=
  fun s => (inr tt,
            mkBackend (catalog s)
                      (notices s ++ [mkErrorData WARNING code msg])).

Definition with_catalog {A} (f : Catalog -> res A) : cmd A :=
  Cmd.lookup (fun s => f (catalog s)).

Definition from_catalog {A} (f : Catalog -> A) : cmd A :=
  Cmd.read (fun s => f (catalog s)).

Definition aclkind_name (k : AclObjectKind) : string :=
  match k with
  | ACL_KIND_NAMESPACE => "schema"
  | ACL_KIND_PROC => "function"
  | ACL_KIND_TYPE => "type"
  end.

(** Modelled from the spec: [aclcheck_error] (aclchk.c) is not part of the
    sources at hand.  The spec gives its contract: insufficient permission
    on a namespace, type or routine is an authorization error.  A verdict
    of [ACLCHECK_OK] is no error. *)
Definition aclcheck_error (aclerr : AclResult) (objectkind : AclObjectKind)
    (objectname : string) : cmd unit :=
  match aclerr with
  | ACLCHECK_OK => Cmd.ret tt
  | ACLCHECK_NO_PRIV =>
      ereport_ERROR ERRCODE_INSUFFICIENT_PRIVILEGE
        ("permission denied for " +:+ aclkind_name objectkind +:+ " "
           +:+ objectname)
  | ACLCHECK_NOT_OWNER =>
      ereport_ERROR ERRCODE_INSUFFICIENT_PRIVILEGE
        ("must be owner of " +:+ aclkind_name objectkind +:+ " "
           +:+ objectname)
  end.

(** Modelled from the spec: [aclcheck_error_type] (aclchk.c), the same
    report for a type given by its identifier. *)
Definition aclcheck_error_type (aclerr : AclResult) (typeOid : Oid)
  : cmd unit :=
  tyname <- from_catalog (fun cat => format_type_be svc cat typeOid) ;;
  aclcheck_error aclerr ACL_KIND_TYPE tyname.

Definition acl_failed (aclresult : AclResult) : bool :=
  negb (bool_decide (aclresult = ACLCHECK_OK)).

(** Lines 88-95: the name and namespace of the operator, and the right to
    create in that namespace. *)
Definition DefineOperator_namespace (names : list string)
  : cmd (Oid * string) :=
  ns <- with_catalog
          (fun cat => QualifiedNameGetCreationNamespace svc cat names) ;;
  let oprNamespace := fst ns in
  let oprName := snd ns in
  aclresult <- from_catalog
    (fun cat => pg_namespace_aclcheck svc cat oprNamespace (GetUserId svc)
                  ACL_CREATE) ;;
  (Cmd.when (acl_failed aclresult)
     (nspname <- from_catalog
                   (fun cat => get_namespace_name svc cat oprNamespace) ;;
      aclcheck_error aclresult ACL_KIND_NAMESPACE nspname)) ;;;
  Cmd.ret (oprNamespace, oprName).

(** [pg_strcasecmp(defel->defname, name) == 0]. *)
Definition defname_is (defel : DefElem) (name : string) : bool :=
  pg_strcasecmp svc (defname defel) name =? 0.

(** Lines 102-147: the body of the loop over the definition list. *)
Definition DefineOperator_param (defel : DefElem) (v : OperatorVars)
  : cmd OperatorVars :=
  if defname_is defel "leftarg" then
    t <- Cmd.lookup (fun _ => defGetTypeName svc defel) ;;
    let v := set_typeName1 v (Some t) in
    (Cmd.when (setof t)
       (ereport_ERROR ERRCODE_INVALID_FUNCTION_DEFINITION
          "SETOF type not allowed for operator__ argument")) ;;;
    Cmd.ret v
  else if defname_is defel "rightarg" then
    t <- Cmd.lookup (fun _ => defGetTypeName svc defel) ;;
    let v := set_typeName2 v (Some t) in
    (Cmd.when (setof t)
       (ereport_ERROR ERRCODE_INVALID_FUNCTION_DEFINITION
          "SETOF type not allowed for operator__ argument")) ;;;
    Cmd.ret v
  else if defname_is defel "procedure" then
    l <- Cmd.lookup (fun _ => defGetQualifiedName svc defel) ;;
    Cmd.ret (set_functionName v l)
  else if defname_is defel "commutator" then
    l <- Cmd.lookup (fun _ => defGetQualifiedName svc defel) ;;
    Cmd.ret (set_commutatorName v l)
  else if defname_is defel "negator" then
    l <- Cmd.lookup (fun _ => defGetQualifiedName svc defel) ;;
    Cmd.ret (set_negatorName v l)
  else if defname_is defel "restrict" then
    l <- Cmd.lookup (fun _ => defGetQualifiedName svc defel) ;;
    Cmd.ret (set_restrictionName v l)
  else if defname_is defel "join" then
    l <- Cmd.lookup (fun _ => defGetQualifiedName svc defel) ;;
    Cmd.ret (set_joinName v l)
  else if defname_is defel "hashes" then
    b <- Cmd.lookup (fun _ => defGetBoolean svc defel) ;;
    Cmd.ret (set_canHash v b)
  else if defname_is defel "merges" then
    b <- Cmd.lookup (fun _ => defGetBoolean svc defel) ;;
    Cmd.ret (set_canMerge v b)
  (* These obsolete options are taken as meaning canMerge *)
  else if defname_is defel "sort1" then Cmd.ret (set_canMerge v true)
  else if defname_is defel "sort2" then Cmd.ret (set_canMerge v true)
  else if defname_is defel "ltcmp" then Cmd.ret (set_canMerge v true)
  else if defname_is defel "gtcmp" then Cmd.ret (set_canMerge v true)
  else
    (ereport_WARNING ERRCODE_SYNTAX_ERROR
       ("operator__ attribute " +:+ dquote +:+ defname defel +:+ dquote
          +:+ " not recognized")) ;;;
    Cmd.ret v.

(** Lines 97-148: the loop over the definition list. *)
Definition DefineOperator_parameters (parameters : list DefElem)
  : cmd OperatorVars :=
  Cmd.foreach parameters DefineOperator_param OperatorVars_init.

(** [list == NIL]. *)
Definition is_NIL {A} (l : list A) : bool :=
  match l with [] => true | _ => false end.

(** [if (typeName) typeId = typenameTypeId(NULL, typeName);], the variable
    keeping [InvalidOid] otherwise. *)
Definition DefineOperator_typeId (typeName : option TypeName) : cmd Oid :=
  match typeName with
  | Some t => with_catalog (fun cat => typenameTypeId svc cat t)
  | None => Cmd.ret InvalidOid
  end.

(** [if (typeName) { aclresult = pg_type_aclcheck(typeId, ...); ... }]. *)
Definition DefineOperator_type_usage (typeName : option TypeName)
    (typeId : Oid) : cmd unit :=
  match typeName with
  | Some _ =>
      aclresult <- from_catalog
        (fun cat => pg_type_aclcheck svc cat typeId (GetUserId svc)
                      ACL_USAGE) ;;
      Cmd.when (acl_failed aclresult) (aclcheck_error_type aclresult typeId)
  | None => Cmd.ret tt
  end.

(** Lines 150-167: the required definitions and the operand types. *)
Definition DefineOperator_typeIds (v : OperatorVars) : cmd (Oid * Oid) :=
  (Cmd.when (is_NIL (functionName v))
     (ereport_ERROR ERRCODE_INVALID_FUNCTION_DEFINITION
        "operator__ procedure must be specified")) ;;;
  (* Transform type names to type OIDs *)
  typeId1 <- DefineOperator_typeId (typeName1 v) ;;
  typeId2 <- DefineOperator_typeId (typeName2 v) ;;
  (Cmd.when (negb (OidIsValid typeId1) && negb (OidIsValid typeId2))
     (ereport_ERROR ERRCODE_INVALID_FUNCTION_DEFINITION
        "at least one of leftarg or rightarg must be specified")) ;;;
  Cmd.ret (typeId1, typeId2).

(** Lines 150-181: the required definitions, the operand types and the
    right to use them. *)
Definition DefineOperator_types (v : OperatorVars) : cmd (Oid * Oid) :=
  ty <- DefineOperator_typeIds v ;;
  DefineOperator_type_usage (typeName1 v) (fst ty) ;;;
  DefineOperator_type_usage (typeName2 v) (snd ty) ;;;
  Cmd.ret ty.

(** [Oid typeid__[5]]: the array is declared without initial values; every
    call reads only the [nargs] leading entries, which are assigned before
    the call. *)
Definition typeid_decl : list Oid := replicate 5 InvalidOid.

(** [LookupFuncName(funcname, nargs, typeid__, noError)]. *)
Definition lookup_func (funcname : list string) (nargs : Z)
    (typeid__ : list Oid) (noError : bool) : cmd Oid :=
  with_catalog
    (fun cat => LookupFuncName svc cat funcname nargs
                  (take (Z.to_nat nargs) typeid__) noError).

(** [aclresult = pg_proc_aclcheck(oid, GetUserId(), ACL_EXECUTE);
     if (aclresult != ACLCHECK_OK) aclcheck_error(aclresult, ACL_KIND_PROC,
     NameListToString(name));]. *)
Definition require_execute (oid : Oid) (name : list string) : cmd unit :=
  aclresult <- from_catalog
    (fun cat => pg_proc_aclcheck svc cat oid (GetUserId svc) ACL_EXECUTE) ;;
  Cmd.when (acl_failed aclresult)
    (aclcheck_error aclresult ACL_KIND_PROC (NameListToString svc name)).

(** Lines 183-202: look up the underlying function of the operator. *)
Definition DefineOperator_lookup_function (v : OperatorVars)
    (typeId1 typeId2 : Oid) : cmd Oid :=
  let typeid__ := typeid_decl in
  let args :=
    if negb (OidIsValid typeId1) then
      (<[0%nat := typeId2]> typeid__, 1)
    else if negb (OidIsValid typeId2) then
      (<[0%nat := typeId1]> typeid__, 1)
    else
      (<[1%nat := typeId2]> (<[0%nat := typeId1]> typeid__), 2) in
  lookup_func (functionName v) (snd args) (fst args) false.

(** Lines 214-217: the right to use the result type of the function. *)
Definition DefineOperator_rettype_usage (functionOid : Oid) : cmd unit :=
  rettype <- with_catalog (fun cat => get_func_rettype svc cat functionOid) ;;
  aclresult <- from_catalog
    (fun cat => pg_type_aclcheck svc cat rettype (GetUserId svc)
                  ACL_USAGE) ;;
  Cmd.when (acl_failed aclresult) (aclcheck_error_type aclresult rettype).

(** Lines 183-217: the underlying function and the rights on it. *)
Definition DefineOperator_function (v : OperatorVars) (typeId1 typeId2 : Oid)
  : cmd Oid :=
  functionOid <- DefineOperator_lookup_function v typeId1 typeId2 ;;
  require_execute functionOid (functionName v) ;;;
  DefineOperator_rettype_usage functionOid ;;;
  Cmd.ret functionOid.

(** The message of the float8 check, for the estimator kind [what]. *)
Definition estimator_message (what : string) (name : list string) : string :=
  what +:+ " estimator function " +:+ NameListToString svc name
    +:+ " must return type " +:+ dquote +:+ "float8" +:+ dquote.

(** [if (get_func_rettype(oid) != FLOAT8OID) ereport(ERROR, ...)]. *)
Definition require_float8 (what : string) (oid : Oid) (name : list string)
  : cmd unit :=
  rettype <- with_catalog (fun cat => get_func_rettype svc cat oid) ;;
  Cmd.when (negb (rettype =? FLOAT8OID svc))
    (ereport_ERROR ERRCODE_INVALID_OBJECT_DEFINITION
       (estimator_message what name)).

(** Lines 224-229: look up the restriction estimator. *)
Definition DefineOperator_lookup_restriction (v : OperatorVars) : cmd Oid :=
  let typeid__ :=
    <[3%nat := INT4OID svc]>          (* varRelid *)
      (<[2%nat := INTERNALOID svc]>   (* args list *)
         (<[1%nat := OIDOID svc]>     (* operator OID *)
            (<[0%nat := INTERNALOID svc]> typeid_decl))) in (* PlannerInfo *)
  lookup_func (restrictionName v) 4 typeid__ false.

(** Lines 219-245: the restriction estimator, if specified. *)
Definition DefineOperator_restriction (v : OperatorVars) : cmd Oid :=
  if negb (is_NIL (restrictionName v)) then
    restrictionOid <- DefineOperator_lookup_restriction v ;;
    (* estimators must return float8 *)
    require_float8 "restriction" restrictionOid (restrictionName v) ;;;
    (* Require EXECUTE rights for the estimator *)
    require_execute restrictionOid (restrictionName v) ;;;
    Cmd.ret restrictionOid
  else Cmd.ret InvalidOid.

(** Lines 252-268: look up the join estimator.  The preferred signature
    has 5 arguments and the old one 4; the preferred form is tried first,
    and named in the error message when neither is found. *)
Definition DefineOperator_lookup_join (v : OperatorVars) : cmd Oid :=
  let typeid__ :=
    <[4%nat := INTERNALOID svc]>            (* SpecialJoinInfo *)
      (<[3%nat := INT2OID svc]>             (* jointype *)
         (<[2%nat := INTERNALOID svc]>      (* args list *)
            (<[1%nat := OIDOID svc]>        (* operator OID *)
               (<[0%nat := INTERNALOID svc]> typeid_decl)))) in
  joinOid <- lookup_func (joinName v) 5 typeid__ true ;;
  joinOid <- (if negb (OidIsValid joinOid)
              then lookup_func (joinName v) 4 typeid__ true
              else Cmd.ret joinOid) ;;
  if negb (OidIsValid joinOid)
  then lookup_func (joinName v) 5 typeid__ false
  else Cmd.ret joinOid.

(** Lines 247-284: the join estimator, if specified. *)
Definition DefineOperator_join (v : OperatorVars) : cmd Oid :=
  if negb (is_NIL (joinName v)) then
    joinOid <- DefineOperator_lookup_join v ;;
    (* estimators must return float8 *)
    require_float8 "join" joinOid (joinName v) ;;;
    (* Require EXECUTE rights for the estimator *)
    require_execute joinOid (joinName v) ;;;
    Cmd.ret joinOid
  else Cmd.ret InvalidOid.

(** The call to [OperatorCreate], the one step that writes the catalog. *)
Definition call_OperatorCreate (a : OperatorCreateArgs)
  : cmd ObjectAddress :=
  fun s =>
    let r := OperatorCreate svc a (catalog s) in
    (fst r, mkBackend (snd r) (notices s)).

(** [DefineOperator(names, parameters)]. *)
Definition DefineOperator (names : list string)
    (parameters : list DefElem) : cmd ObjectAddress :=
  ns <- DefineOperator_namespace names ;;
  let oprNamespace := fst ns in
  let oprName := snd ns in
  v <- DefineOperator_parameters parameters ;;
  ty <- DefineOperator_types v ;;
  let typeId1 := fst ty in
  let typeId2 := snd ty in
  functionOid <- DefineOperator_function v typeId1 typeId2 ;;
  restrictionOid <- DefineOperator_restriction v ;;
  joinOid <- DefineOperator_join v ;;
  call_OperatorCreate
    {| oc_operatorName := oprName;
       oc_operatorNamespace := oprNamespace;
       oc_leftTypeId := typeId1;
       oc_rightTypeId := typeId2;
       oc_procedureId := functionOid;
       oc_commutatorName := commutatorName v;
       oc_negatorName := negatorName v;
       oc_restrictionId := restrictionOid;
       oc_joinId := joinOid;
       oc_canMerge := canMerge v;
       oc_canHash := canHash v |}.
End DefineOperator.

(** What a command may do to the state. *)
Section Effects.
Context {Catalog : Type}.
Abbreviation cmd := (Cmd.t (Backend Catalog)).

(** The command leaves the whole state as it found it, and what it returns
    depends on the catalog only. *)
Definition read_only {A} (c : cmd A) : Prop :=
  forall cat, exists r, forall n, c (mkBackend cat n) = (r, mkBackend cat n).

(** The command leaves the catalog as it found it and only adds notices;
    what it returns and the notices it adds do not depend on the notices
    present before. *)
Definition catalog_preserving {A} (c : cmd A) : Prop :=
  forall cat, exists r w,
    forall n, c (mkBackend cat n) = (r, mkBackend cat (n ++ w)).

(** The command only adds notices, and what it returns, the catalog it
    leaves and the notices it adds do not depend on the notices present
    before. *)
Definition notice_parametric {A} (c : cmd A) : Prop :=
  forall cat, exists r cat' w,
    forall n, c (mkBackend cat n) = (r, mkBackend cat' (n ++ w)).
End Effects.

(** Some element of the definition list is taken by the branch of the
    loop for the attribute [name]. *)
Definition names_attribute {Catalog} (svc : Services Catalog) (name : string)
    (parameters : list DefElem) : bool :=
  existsb (fun d => defname_is svc d name) parameters.

(** The two reports of lines 153-156 and 164-167. *)
Definition procedure_error : ErrorData :=
  mkErrorData ERROR ERRCODE_INVALID_FUNCTION_DEFINITION
    "operator__ procedure must be specified".

Definition operand_error : ErrorData :=
  mkErrorData ERROR ERRCODE_INVALID_FUNCTION_DEFINITION
    "at least one of leftarg or rightarg must be specified".

(** The steps of [DefineOperator] that follow the parameter loop, as one
    command. *)
Definition DefineOperator_finish {Catalog} (svc : Services Catalog)
    (ns : Oid * string) (v : OperatorVars)
  : Cmd.t (Backend Catalog) ObjectAddress :=
  Cmd.bind (DefineOperator_types svc v) (fun ty =>
  Cmd.bind (DefineOperator_function svc v (fst ty) (snd ty)) (fun functionOid =>
  Cmd.bind (DefineOperator_restriction svc v) (fun restrictionOid =>
  Cmd.bind (DefineOperator_join svc v) (fun joinOid =>
  call_OperatorCreate svc
    {| oc_operatorName := snd ns;
       oc_operatorNamespace := fst ns;
       oc_leftTypeId := fst ty;
       oc_rightTypeId := snd ty;
       oc_procedureId := functionOid;
       oc_commutatorName := commutatorName v;
       oc_negatorName := negatorName v;
       oc_restrictionId := restrictionOid;
       oc_joinId := joinOid;
       oc_canMerge := canMerge v;
       oc_canHash := canHash v |})))).

(** The command aborts with an authorization error and leaves the state
    [s1]. *)
Definition denied {Catalog} (svc : Services Catalog) (names : list string)
    (parameters : list DefElem) (s s1 : Backend Catalog) : Prop :=
  exists e, DefineOperator svc names parameters s = (inl e, s1)
            /\ is_authorization_error e = true.

(** A lookup that raises does so at level [ERROR]. *)
Definition raises_errors {A} (r : res A) : Prop :=
  forall e, r = inl e -> is_user_error e = true.

(** The contract of the collaborators on what they raise: a report at level
    [ERROR], the only level that aborts. *)
Definition Services_raise_errors {Catalog} (svc : Services Catalog) : Prop :=
  (forall cat names,
      raises_errors (QualifiedNameGetCreationNamespace svc cat names))
  /\ (forall d, raises_errors (defGetTypeName svc d))
  /\ (forall d, raises_errors (defGetQualifiedName svc d))
  /\ (forall d, raises_errors (defGetBoolean svc d))
  /\ (forall cat t, raises_errors (typenameTypeId svc cat t))
  /\ (forall cat f n t b, raises_errors (LookupFuncName svc cat f n t b))
  /\ (forall cat o, raises_errors (get_func_rettype svc cat o))
  /\ (forall a cat, raises_errors (fst (OperatorCreate svc a cat))).

(** Whatever the command raises, it raises at level [ERROR]. *)
Definition aborts_with_errors {St A} (c : Cmd.t St A) : Prop :=
  forall s e s', c s = (inl e, s') -> is_user_error e = true.

(** The arguments [DefineOperator] calls [OperatorCreate] with. *)
Definition OperatorCreate_arguments (ns : Oid * string) (v : OperatorVars)
    (ty : Oid * Oid) (functionOid restrictionOid joinOid : Oid)
  : OperatorCreateArgs :=
  {| oc_operatorName := snd ns;
     oc_operatorNamespace := fst ns;
     oc_leftTypeId := fst ty;
     oc_rightTypeId := snd ty;
     oc_procedureId := functionOid;
     oc_commutatorName := commutatorName v;
     oc_negatorName := negatorName v;
     oc_restrictionId := restrictionOid;
     oc_joinId := joinOid;
     oc_canMerge := canMerge v;
     oc_canHash := canHash v |}.

(** Every step of the command before [OperatorCreate] passes, with these
    results. *)
Definition checks_pass {Catalog} (svc : Services Catalog)
    (names : list string) (parameters : list DefElem) (s : Backend Catalog)
    (ns : Oid * string) (v : OperatorVars) (s1 : Backend Catalog)
    (ty : Oid * Oid) (functionOid restrictionOid joinOid : Oid) : Prop :=
  DefineOperator_namespace svc names s = (inr ns, s)
  /\ DefineOperator_parameters svc parameters s = (inr v, s1)
  /\ DefineOperator_types svc v s1 = (inr ty, s1)
  /\ DefineOperator_function svc v (fst ty) (snd ty) s1 = (inr functionOid, s1)
  /\ DefineOperator_restriction svc v s1 = (inr restrictionOid, s1)
  /\ DefineOperator_join svc v s1 = (inr joinOid, s1).

(** The command aborts and leaves the catalog as it found it. *)
Definition aborts {Catalog} (svc : Services Catalog) (names : list string)
    (parameters : list DefElem) (s : Backend Catalog) : Prop :=
  exists e s', DefineOperator svc names parameters s = (inl e, s')
               /\ catalog s' = catalog s.

(** "An authorization error whenever the user lacks USAGE on a specified
    operand type": what C8 says of the left operand type, as it is
    written. *)
Definition denied_whenever_lacking {Catalog} (svc : Services Catalog) : Prop :=
  forall names parameters (s : Backend Catalog) v s1 t o,
    DefineOperator_parameters svc parameters s = (inr v, s1) ->
    typeName1 v = Some t ->
    typenameTypeId svc (catalog s1) t = inr o ->
    pg_type_aclcheck svc (catalog s1) o (GetUserId svc) ACL_USAGE
      <> ACLCHECK_OK ->
    exists s', denied svc names parameters s s'.

(** The report of lines 108-110 and 116-118, as the source has it. *)
Definition setof_error : ErrorData :=
  mkErrorData ERROR ERRCODE_INVALID_FUNCTION_DEFINITION
    "SETOF type not allowed for operator__ argument".

(** The state after one more notice. *)
Definition add_notice {Catalog} (s : Backend Catalog) (w : ErrorData)
  : Backend Catalog :=
  mkBackend (catalog s) (notices s ++ [w]).

(** A definition element none of the branches of the parameter loop
    recognizes. *)
Definition unrecognized_attribute {Catalog} (svc : Services Catalog)
    (defel : DefElem) : bool :=
  forallb (fun name => negb (defname_is svc defel name))
    ["leftarg"; "rightarg"; "procedure"; "commutator"; "negator";
     "restrict"; "join"; "hashes"; "merges"; "sort1"; "sort2"; "ltcmp";
     "gtcmp"].

(** The warning the loop emits for such an element. *)
Definition unrecognized_warning (defel : DefElem) : ErrorData :=
  mkErrorData WARNING ERRCODE_SYNTAX_ERROR
    ("operator__ attribute " +:+ dquote +:+ defname defel +:+ dquote
       +:+ " not recognized").

(* ===================================================================== *)
(** * Part III. The traversal engine (nodeFuncs.h)                        *)
(* ===================================================================== *)

(** ** The flag bits of query_tree_walker and query_tree_mutator *)

Definition QTW_IGNORE_RT_SUBQUERIES : Z := 0x01.  (* subqueries in rtable *)
Definition QTW_IGNORE_CTE_SUBQUERIES : Z := 0x02. (* subqueries in cteList *)
Definition QTW_IGNORE_RC_SUBQUERIES : Z := 0x03.  (* both of above *)
Definition QTW_IGNORE_JOINALIASES : Z := 0x04.    (* JOIN alias var lists *)
Definition QTW_IGNORE_RANGE_TABLE : Z := 0x08.    (* skip rangetable entirely *)
Definition QTW_EXAMINE_RTES : Z := 0x10.          (* examine RTEs *)
Definition QTW_DONT_COPY_QUERY : Z := 0x20.       (* do not copy top Query *)

(** The six flags that name one scope each. *)
Definition QTW_flags : list Z :=
  [QTW_IGNORE_RT_SUBQUERIES; QTW_IGNORE_CTE_SUBQUERIES;
   QTW_IGNORE_JOINALIASES; QTW_IGNORE_RANGE_TABLE; QTW_EXAMINE_RTES;
   QTW_DONT_COPY_QUERY].

(** [flags & flag], as a C condition. *)
Definition has_flag (flags flag : Z) : bool := negb (Z.land flags flag =? 0).

(** The value has exactly one bit set. *)
Definition single_bit (v : Z) : Prop := exists k, 0 <= k /\ v = Z.shiftl 1 k.

(** The bitwise OR of a list of flags. *)
Definition or_flags (l : list Z) : Z := fold_right Z.lor 0 l.

(** [flags] is an OR-combination of the six flags. *)
Definition QTW_combination (flags : Z) : Prop :=
  exists l, l ⊆ QTW_flags /\ flags = or_flags l.

(** ** Nodes *)

(** Modelled from the spec: the node kinds of section 3.  The header only
    declares [Node] and [Query]; the kinds are those the spec lists: leaf
    forms, composite expression forms, and the structural forms of a query. *)
Inductive LeafTag :=
| T_Var            (* column reference *)
| T_Const          (* literal constant *)
| T_Param.         (* parameter placeholder *)

(** Modelled from the spec: the kinds of range-table entry (section 3). *)
Inductive RTEKind :=
| RTE_RELATION | RTE_SUBQUERY | RTE_JOIN | RTE_FUNCTION | RTE_VALUES | RTE_CTE.

(** Modelled from the spec: the composite expression forms and the
    structural forms of a query (section 3). *)
Inductive CompositeTag :=
| T_OpExpr | T_FuncExpr | T_BoolExpr | T_CaseExpr | T_CaseWhen
| T_ArrayExpr | T_RowExpr | T_SubLink | T_Aggref | T_WindowFunc
| T_RelabelType
| T_TargetEntry
| T_List
| T_Query
| T_CommonTableExpr
| T_RangeTblEntry (rtekind : RTEKind).

Global Instance LeafTag_eq_dec : EqDecision LeafTag.
Proof. solve_decision. Defined.
Global Instance RTEKind_eq_dec : EqDecision RTEKind.
Proof. solve_decision. Defined.
Global Instance CompositeTag_eq_dec : EqDecision CompositeTag.
Proof. solve_decision. Defined.

(** Modelled from the spec: a node is absent, or carries its kind, its
    scalar fields, and for a composite kind its child slots in their fixed
    order; a slot holds a child, which may be absent, and a sequence of
    children is a child of kind [T_List].  [NUnknown] stands for a node of
    a kind the engine has no case for. *)
Unset Elimination Schemes.
Inductive Node : Type :=
| NNull
| NLeaf (tag : LeafTag) (scalars : Z)
| NComposite (tag : CompositeTag) (scalars : Z) (slots : list Node)
| NUnknown (tag : Z).
Set Elimination Schemes.

(** Induction on nodes, with the property available for every child slot. *)
Definition Node_nested_ind (P : Node -> Prop)
    (HNull : P NNull)
    (HLeaf : forall tag scalars, P (NLeaf tag scalars))
    (HComposite : forall tag scalars slots,
        Forall P slots -> P (NComposite tag scalars slots))
    (HUnknown : forall tag, P (NUnknown tag)) : forall node, P node :=
  fix F (node : Node) : P node :=
    match node with
    | NNull => HNull
    | NLeaf tag scalars => HLeaf tag scalars
    | NComposite tag scalars slots =>
        HComposite tag scalars slots
          ((fix G (l : list Node) : Forall P l :=
              match l with
              | [] => List.Forall_nil P
              | child :: l' => List.Forall_cons P child l' (F child) (G l')
              end) slots)
    | NUnknown tag => HUnknown tag
    end.

(** Two sequences of child slots are equal, slot by slot. *)
Fixpoint slots_eqb (eqb : Node -> Node -> bool) (l l' : list Node) : bool :=
  match l, l' with
  | [], [] => true
  | child :: l, child' :: l' => eqb child child' && slots_eqb eqb l l'
  | _, _ => false
  end.

(** Deep equality of two trees: the same kinds, the same scalar fields and
    equal children, slot by slot. *)
Fixpoint Node_eqb (a b : Node) : bool :=
  match a, b with
  | NNull, NNull => true
  | NLeaf tag scalars, NLeaf tag' scalars' =>
      bool_decide (tag = tag') && (scalars =? scalars')
  | NComposite tag scalars slots, NComposite tag' scalars' slots' =>
      bool_decide (tag = tag') && (scalars =? scalars')
      && slots_eqb Node_eqb slots slots'
  | NUnknown tag, NUnknown tag' => tag =? tag'
  | _, _ => false
  end.

(** Modelled from the spec: the internal errors of the engine (section
    7). *)
Definition unrecognized_node_type (tag : Z) : ErrorData :=
  mkErrorData ERROR ERRCODE_INTERNAL_ERROR "unrecognized node type".

Definition malformed_node : ErrorData :=
  mkErrorData ERROR ERRCODE_INTERNAL_ERROR "malformed node".

Section Walk.
Context {C : Type}.

(** [bool (*walker)(Node *, void *)]: the callback reads the node, may
    update the context it is given, and returns whether the search is
    over. *)
Definition walker_fn : Type := Node -> C -> bool * C.

(** The outcome of a walk: the result and the context, or a fatal error. *)
Definition walked : Type := res (bool * C).

(** Short-circuit OR of two walks: the second runs only when the first
    returned false. *)
Definition or_else (r : walked) (k : C -> walked) : walked :=
  match r with
  | inl e => inl e
  | inr (true, context) => inr (true, context)
  | inr (false, context) => k context
  end.

(** A step of a walk that is left out. *)
Definition skipped (context : C) : walked := inr (false, context).

(** The walk [f] over a sequence of nodes, in order, until one returns
    true. *)
Fixpoint walk_list (f : Node -> C -> walked) (l : list Node) (context : C)
  : walked :=
  match l with
  | [] => skipped context
  | node :: l' => or_else (f node context) (walk_list f l')
  end.

Variable walker : walker_fn.

(** Modelled from the spec: [expression_tree_walker] (section 4.1).  An
    absent node gives false.  A leaf gives what the callback returns.  For
    a composite node the callback comes first; when it declines (returns
    false) the child slots are walked in order, the results combined by
    short-circuit OR.  A kind without a case is a fatal error. *)
Fixpoint expression_tree_walker (node : Node) (context : C) : walked :=
  match node with
  | NNull => inr (false, context)
  | NLeaf _ _ => inr (walker node context)
  | NComposite _ _ slots =>
      or_else (inr (walker node context))
              (walk_list expression_tree_walker slots)
  | NUnknown tag => inl (unrecognized_node_type tag)
  end.

(** ** The walk of a whole query *)

Variable flags : Z.

Section Entries.
(** The walk of a nested query. *)
Variable query_walker : Node -> C -> walked.

(** Modelled from the spec: the walk of a sequence of entries, held in a
    [T_List] node or absent. *)
Definition walk_entries (f : Node -> C -> walked) (list : Node)
    (context : C) : walked :=
  match list with
  | NNull => skipped context
  | NComposite T_List _ entries => walk_list f entries context
  | NUnknown tag => inl (unrecognized_node_type tag)
  | _ => inl malformed_node
  end.

(** Modelled from the spec: the walk of an entry of the CTE list, which is
    the walk of its nested query. *)
Definition walk_cte (cte : Node) (context : C) : walked :=
  match cte with
  | NComposite T_CommonTableExpr _ [ctequery] =>
      query_walker ctequery context
  | NUnknown tag => inl (unrecognized_node_type tag)
  | _ => inl malformed_node
  end.

(** Modelled from the spec: the walk of an entry of the range table
    (section 4.2).  The entry itself goes to the callback only under
    QTW_EXAMINE_RTES; then its contents, by kind. *)
Definition walk_rte (rte : Node) (context : C) : walked :=
  or_else
    (if has_flag flags QTW_EXAMINE_RTES then inr (walker rte context)
     else skipped context)
    (fun context =>
       match rte with
       | NComposite (T_RangeTblEntry RTE_RELATION) _ []
       | NComposite (T_RangeTblEntry RTE_CTE) _ [] =>
           (* nothing to do *)
           skipped context
       | NComposite (T_RangeTblEntry RTE_SUBQUERY) _ [subquery] =>
           if has_flag flags QTW_IGNORE_RT_SUBQUERIES
           then skipped context
           else query_walker subquery context
       | NComposite (T_RangeTblEntry RTE_JOIN) _ [joinaliasvars] =>
           if has_flag flags QTW_IGNORE_JOINALIASES
           then skipped context
           else expression_tree_walker joinaliasvars context
       | NComposite (T_RangeTblEntry RTE_FUNCTION) _ [functions] =>
           expression_tree_walker functions context
       | NComposite (T_RangeTblEntry RTE_VALUES) _ [values_lists] =>
           expression_tree_walker values_lists context
       | NUnknown tag => inl (unrecognized_node_type tag)
       | _ => inl malformed_node
       end).
End Entries.

(** Modelled from the spec: [query_tree_walker] (section 4.2).  The
    callback comes first, as for every node.  When it declines, the parts
    of the query are visited in order: target list, qualification, having
    clause, grouping, ordering and window clauses, limit and offset, then
    the nested query of every entry of the CTE list unless
    QTW_IGNORE_CTE_SUBQUERIES is set, then the range table unless
    QTW_IGNORE_RANGE_TABLE is set.  In the range table, the nested query
    of a subquery entry is visited unless QTW_IGNORE_RT_SUBQUERIES is set
    and the alias list of a join entry unless QTW_IGNORE_JOINALIASES is
    set.  No value of the flags has a case of its own that raises. *)
Fixpoint query_tree_walker (query : Node) (context : C) : walked :=
  match query with
  | NComposite T_Query _
      [targetList; qual; havingQual; groupClause; sortClause; windowClause;
       limitCount; limitOffset; cteList; rtable] =>
      or_else (inr (walker query context)) (fun context =>
      or_else (expression_tree_walker targetList context) (fun context =>
      or_else (expression_tree_walker qual context) (fun context =>
      or_else (expression_tree_walker havingQual context) (fun context =>
      or_else (expression_tree_walker groupClause context) (fun context =>
      or_else (expression_tree_walker sortClause context) (fun context =>
      or_else (expression_tree_walker windowClause context) (fun context =>
      or_else (expression_tree_walker limitCount context) (fun context =>
      or_else (expression_tree_walker limitOffset context) (fun context =>
      or_else
        (if has_flag flags QTW_IGNORE_CTE_SUBQUERIES then skipped context
         else walk_entries (walk_cte query_tree_walker) cteList context)
        (fun context =>
      if has_flag flags QTW_IGNORE_RANGE_TABLE then skipped context
      else walk_entries (walk_rte query_tree_walker) rtable context))))))))))
  | NUnknown tag => inl (unrecognized_node_type tag)
  | _ => inl malformed_node
  end.

(** Modelled from the spec: [range_table_walker], the walk of a bare list
    of range-table entries. *)
Definition range_table_walker (rtable : Node) (context : C) : walked :=
  walk_entries (walk_rte query_tree_walker) rtable context.

(** Modelled from the spec: [query_or_expression_tree_walker] (section
    4.3): the query engine for a whole-query node, the expression engine
    otherwise. *)
Definition query_or_expression_tree_walker (node : Node) (context : C)
  : walked :=
  match node with
  | NComposite T_Query _ _ => query_tree_walker node context
  | _ => expression_tree_walker node context
  end.
End Walk.

Arguments walker_fn : clear implicits.
Arguments walked : clear implicits.

(** The nodes of a tree in the order of the walk: a node before its
    children, the children in slot order. *)
Fixpoint preorder (node : Node) : list Node :=
  match node with
  | NNull => []
  | NLeaf _ _ => [node]
  | NComposite _ _ slots => node :: flat_map preorder slots
  | NUnknown _ => [node]
  end.

(** The engine has a case for the kind of the node. *)
Definition recognized (node : Node) : bool :=
  match node with
  | NUnknown _ => false
  | _ => true
  end.

(** A predicate used as a callback that also records every node it is
    called on. *)
Definition recording (p : Node -> bool) : walker_fn (list Node) :=
  fun node visited => (p node, visited ++ [node]).

(** The part of a list up to and including its first element that
    satisfies [p]; the whole list when there is none. *)
Fixpoint upto {A} (p : A -> bool) (l : list A) : list A :=
  match l with
  | [] => []
  | x :: l' => if p x then [x] else x :: upto p l'
  end.

(** The number of elements of a list that satisfy [p]. *)
Definition count_matching {A} (p : A -> bool) (l : list A) : nat :=
  length (List.filter p l).

(** ** Well-formed trees *)

Definition is_query (node : Node) : bool :=
  match node with
  | NComposite T_Query _ _ => true
  | _ => false
  end.

(** A sequence of entries: absent, or a [T_List] of entries of shape [ok]. *)
Definition entries_shape (ok : Node -> bool) (list : Node) : bool :=
  match list with
  | NNull => true
  | NComposite T_List _ entries => forallb ok entries
  | _ => false
  end.

(** Modelled from the spec: an entry of the CTE list owns one nested
    query. *)
Definition cte_shape (cte : Node) : bool :=
  match cte with
  | NComposite T_CommonTableExpr _ [ctequery] => is_query ctequery
  | _ => false
  end.

(** Modelled from the spec: a range-table entry owns what its kind says: a
    subquery entry a nested query, a join entry its alias list, a function
    or VALUES entry its expressions, a relation or CTE reference
    nothing. *)
Definition rte_shape (rte : Node) : bool :=
  match rte with
  | NComposite (T_RangeTblEntry RTE_RELATION) _ []
  | NComposite (T_RangeTblEntry RTE_CTE) _ [] => true
  | NComposite (T_RangeTblEntry RTE_SUBQUERY) _ [subquery] => is_query subquery
  | NComposite (T_RangeTblEntry RTE_JOIN) _ [_]
  | NComposite (T_RangeTblEntry RTE_FUNCTION) _ [_]
  | NComposite (T_RangeTblEntry RTE_VALUES) _ [_] => true
  | _ => false
  end.

(** Modelled from the spec: a query has its ten parts, the last two being
    the CTE list and the range table. *)
Definition query_shape (slots : list Node) : bool :=
  match slots with
  | [_; _; _; _; _; _; _; _; cteList; rtable] =>
      entries_shape cte_shape cteList && entries_shape rte_shape rtable
  | _ => false
  end.

Definition node_shape (tag : CompositeTag) (slots : list Node) : bool :=
  match tag with
  | T_Query => query_shape slots
  | _ => true
  end.

(** A well-formed tree: every node is of a kind the engine has a case for,
    and every query in it has the shape of a query. *)
Fixpoint well_formed (node : Node) : bool :=
  match node with
  | NNull | NLeaf _ _ => true
  | NComposite tag _ slots => node_shape tag slots && forallb well_formed slots
  | NUnknown _ => false
  end.

(** The nodes below a node. *)
Definition descendants (node : Node) : list Node :=
  match node with
  | NComposite _ _ slots => flat_map preorder slots
  | _ => []
  end.

(** ** Nodes in memory *)

(** An address; 0 is the null pointer and address [S i] is cell [i]. *)
Definition addr := nat.

(** Modelled from the spec: a node in memory, which is a [Node] whose
    child slots hold addresses. *)
Inductive cell :=
| CLeaf (tag : LeafTag) (scalars : Z)
| CComposite (tag : CompositeTag) (scalars : Z) (slots : list addr)
| CUnknown (tag : Z).

(** The memory nodes are allocated in.  Nothing is freed during a
    traversal, so an allocation takes the next address. *)
Abbreviation memory := (list cell).

Definition deref (h : memory) (p : addr) : option cell :=
  match p with
  | O => None
  | S i => h !! i
  end.

Definition alloc (h : memory) (c : cell) : memory * addr :=
  (h ++ [c], S (length h)).

(** [*p = c]. *)
Definition assign (h : memory) (p : addr) (c : cell) : memory :=
  match p with
  | O => h
  | S i => <[i := c]> h
  end.

(** The tree at address [p], read down to [depth] levels. *)
Fixpoint load (depth : nat) (h : memory) (p : addr) : option Node :=
  match depth with
  | O => None
  | S depth' =>
      match p with
      | O => Some NNull
      | _ =>
          match deref h p with
          | None => None
          | Some (CLeaf tag scalars) => Some (NLeaf tag scalars)
          | Some (CComposite tag scalars slots) =>
              NComposite tag scalars <$> mapM (load depth' h) slots
          | Some (CUnknown tag) => Some (NUnknown tag)
          end
      end
  end.

(** The addresses of the nodes of the tree at [p], down to [depth] levels. *)
Fixpoint footprint (depth : nat) (h : memory) (p : addr) : list addr :=
  match depth with
  | O => []
  | S depth' =>
      match p with
      | O => []
      | _ =>
          p :: match deref h p with
               | Some (CComposite _ _ slots) =>
                   flat_map (footprint depth' h) slots
               | _ => []
               end
      end
  end.

(** The trees of a sequence written into memory by [store], one after the
    other: the new memory and the addresses of the roots. *)
Fixpoint store_slots (store : Node -> memory -> memory * addr)
    (l : list Node) (h : memory) : memory * list addr :=
  match l with
  | [] => (h, [])
  | child :: l' =>
      let '(h1, p) := store child h in
      let '(h2, ps) := store_slots store l' h1 in
      (h2, p :: ps)
  end.

(** Modelled from the spec: a tree written into memory, where every child
    slot holds a child of its own (section 9).  The children are written
    first, every node goes to a new cell, and an absent node is the null
    pointer: the new memory and the address of the root. *)
Fixpoint store_tree (node : Node) (h : memory) : memory * addr :=
  match node with
  | NNull => (h, O)
  | NLeaf tag scalars => alloc h (CLeaf tag scalars)
  | NComposite tag scalars slots =>
      let '(h', ps) := store_slots store_tree slots h in
      alloc h' (CComposite tag scalars ps)
  | NUnknown tag => alloc h (CUnknown tag)
  end.

(** Modelled from the spec: the internal error of the depth guard (section
    5), and the one of a pointer to no node. *)
Definition stack_depth_error : ErrorData :=
  mkErrorData ERROR ERRCODE_INTERNAL_ERROR "stack depth limit exceeded".

Definition invalid_pointer : ErrorData :=
  mkErrorData ERROR ERRCODE_INTERNAL_ERROR "invalid node pointer".

Section Mutate.
Context {C : Type}.

(** What a mutator runs over: the memory and the context of the caller. *)
Definition mstate : Type := memory * C.

(** Modelled from the spec: [Node *(*mutator)(Node *, void *)], of shape
    [(Node, Context) -> Node] in section 6.  The callback is given a node
    and its context, and returns a node: the node it was given when it
    declines, or the node that takes its place.  It may update its
    context. *)
Definition mutator_fn : Type := Node -> C -> Node * C.

(** The outcome of a mutation: the address of the result and the state,
    or a fatal error. *)
Definition mutated : Type := res (addr * mstate).

(** A new node, allocated in the memory of the state. *)
Definition new_node (c : cell) (st : mstate) : mutated :=
  let (h, p) := alloc (fst st) c in inr (p, (h, snd st)).

(** The mutation [f] of every element of a sequence of slots, in order. *)
Fixpoint mutate_list (f : addr -> mstate -> mutated) (l : list addr)
    (st : mstate) : res (list addr * mstate) :=
  match l with
  | [] => inr ([], st)
  | p :: l' =>
      match f p st with
      | inl e => inl e
      | inr (p', st1) =>
          match mutate_list f l' st1 with
          | inl e => inl e
          | inr (l'', st2) => inr (p' :: l'', st2)
          end
      end
  end.

(** Sequencing of two steps of a mutation. *)
Definition and_then {A B} (r : res (A * mstate))
    (k : A -> mstate -> res B) : res B :=
  match r with
  | inl e => inl e
  | inr (a, st) => k a st
  end.

Variable mutator : mutator_fn.

(** Modelled from the spec: the call of the callback on the node at an
    address.  The callback is given the tree at the address, read under
    the depth counter of section 5.  When it returns that tree it declines
    (section 8: "returns the node unchanged"), and nothing is written.
    Otherwise the node it returns takes the place of the node: the result
    owns it (section 9: "each child slot holds an owned child"), so it is
    written to cells of its own, and the address of its root is
    returned. *)
Definition call_mutator (depth : nat) (node : addr) (st : mstate)
  : res (option addr * mstate) :=
  match load depth (fst st) node with
  | None => inl stack_depth_error
  | Some t =>
      let (r, context) := mutator t (snd st) in
      if Node_eqb r t then inr (None, (fst st, context))
      else let (h, p) := store_tree r (fst st) in inr (Some p, (h, context))
  end.

(** Modelled from the spec: [expression_tree_mutator] (section 4.1), with
    the depth counter of section 5.  An absent node stays absent.
    Otherwise the callback comes first.  When it declines (returns the
    node it was given), a leaf becomes a shallow copy of itself, and a
    composite node a new node of the same kind, with the same scalar
    fields and every child slot mutated in turn.  When the callback
    returns another node, that node, in cells of its own, is the result.
    A kind without a case is a fatal error. *)
Fixpoint expression_tree_mutator (depth : nat) (node : addr) (st : mstate)
  : mutated :=
  match depth with
  | O => inl stack_depth_error
  | S depth' =>
      match node with
      | O => inr (O, st)
      | _ =>
          match deref (fst st) node with
          | None => inl invalid_pointer
          | Some (CUnknown tag) => inl (unrecognized_node_type tag)
          | Some (CLeaf tag scalars) =>
              and_then (call_mutator depth node st) (fun r st1 =>
              match r with
              | Some r => inr (r, st1)
              | None => new_node (CLeaf tag scalars) st1
              end)
          | Some (CComposite tag scalars slots) =>
              and_then (call_mutator depth node st) (fun r st1 =>
              match r with
              | Some r => inr (r, st1)
              | None =>
                  and_then
                    (mutate_list (expression_tree_mutator depth') slots st1)
                    (fun slots' st2 =>
                       new_node (CComposite tag scalars slots') st2)
              end)
          end
      end
  end.

End Mutate.


Arguments mstate : clear implicits.
Arguments mutator_fn : clear implicits.
Arguments mutated : clear implicits.

(** The callback that declines every node. *)
Definition identity_mutator {C} : mutator_fn C :=
  fun node context => (node, context).

(** A copy of the tree at [node]: the mutation with the callback that
    declines every node. *)
Definition copy_tree {C} (depth : nat) (node : addr) (st : mstate C)
  : mutated C :=
  expression_tree_mutator identity_mutator depth node st.

(** ** The mutation of a whole query *)

Section QueryMutate.
Context {C : Type}.
Variable mutator : mutator_fn C.

Section Entries.
Variable flags : Z.

(** The mutation of a nested query. *)
Variable query_mutator : addr -> mstate C -> mutated C.
Variable depth : nat.

(** Modelled from the spec: the mutation of a sequence of entries, held in
    a [T_List] node or absent. *)
Definition mutate_entries (f : addr -> mstate C -> mutated C) (list : addr)
    (st : mstate C) : mutated C :=
  match list with
  | O => inr (O, st)
  | _ =>
      match deref (fst st) list with
      | None => inl invalid_pointer
      | Some (CComposite T_List scalars entries) =>
          and_then (mutate_list f entries st)
            (fun entries' st =>
               new_node (CComposite T_List scalars entries') st)
      | Some (CUnknown tag) => inl (unrecognized_node_type tag)
      | Some _ => inl malformed_node
      end
  end.

(** Modelled from the spec: the mutation of an entry of the CTE list, a new
    entry that owns the mutated nested query. *)
Definition mutate_cte (cte : addr) (st : mstate C) : mutated C :=
  match deref (fst st) cte with
  | None => inl invalid_pointer
  | Some (CComposite T_CommonTableExpr scalars [ctequery]) =>
      and_then (query_mutator ctequery st)
        (fun ctequery' st =>
           new_node (CComposite T_CommonTableExpr scalars [ctequery']) st)
  | Some (CUnknown tag) => inl (unrecognized_node_type tag)
  | Some _ => inl malformed_node
  end.

(** Modelled from the spec: the mutation of the contents of a range-table
    entry, by kind: a new entry that owns the mutated contents, or a copy
    of the contents the flags leave out. *)
Definition mutate_rte_contents (rte : addr) (st : mstate C) : mutated C :=
  match deref (fst st) rte with
  | None => inl invalid_pointer
  | Some (CComposite (T_RangeTblEntry RTE_RELATION) scalars []) =>
      new_node (CComposite (T_RangeTblEntry RTE_RELATION) scalars []) st
  | Some (CComposite (T_RangeTblEntry RTE_CTE) scalars []) =>
      new_node (CComposite (T_RangeTblEntry RTE_CTE) scalars []) st
  | Some (CComposite (T_RangeTblEntry RTE_SUBQUERY) scalars [subquery]) =>
      and_then
        (if has_flag flags QTW_IGNORE_RT_SUBQUERIES
         then copy_tree depth subquery st
         else query_mutator subquery st)
        (fun subquery' st =>
           new_node
             (CComposite (T_RangeTblEntry RTE_SUBQUERY) scalars
                [subquery']) st)
  | Some (CComposite (T_RangeTblEntry RTE_JOIN) scalars [joinaliasvars]) =>
      and_then
        (if has_flag flags QTW_IGNORE_JOINALIASES
         then copy_tree depth joinaliasvars st
         else expression_tree_mutator mutator depth joinaliasvars st)
        (fun joinaliasvars' st =>
           new_node
             (CComposite (T_RangeTblEntry RTE_JOIN) scalars
                [joinaliasvars']) st)
  | Some (CComposite (T_RangeTblEntry RTE_FUNCTION) scalars [functions]) =>
      and_then (expression_tree_mutator mutator depth functions st)
        (fun functions' st =>
           new_node
             (CComposite (T_RangeTblEntry RTE_FUNCTION) scalars
                [functions']) st)
  | Some (CComposite (T_RangeTblEntry RTE_VALUES) scalars [values_lists]) =>
      and_then (expression_tree_mutator mutator depth values_lists st)
        (fun values_lists' st =>
           new_node
             (CComposite (T_RangeTblEntry RTE_VALUES) scalars
                [values_lists']) st)
  | Some (CUnknown tag) => inl (unrecognized_node_type tag)
  | Some _ => inl malformed_node
  end.

(** Modelled from the spec: the mutation of an entry of the range table.
    Under QTW_EXAMINE_RTES the entry goes to the callback first, and what
    the callback returns, when it does not decline, is the new entry. *)
Definition mutate_rte (rte : addr) (st : mstate C) : mutated C :=
  if has_flag flags QTW_EXAMINE_RTES then
    and_then (call_mutator mutator depth rte st) (fun r st1 =>
    match r with
    | Some r => inr (r, st1)
    | None => mutate_rte_contents rte st1
    end)
  else mutate_rte_contents rte st.
End Entries.

(** Modelled from the spec: the flags of the mutation of a nested query;
    only the top query may be mutated in place. *)
Definition nested_flags (flags : Z) : Z :=
  Z.land flags (Z.lnot QTW_DONT_COPY_QUERY).

(** Modelled from the spec: one level of the mutation of a query (section
    4.2), [nested] being the mutation of the queries nested in it. *)
Definition mutate_query (nested : Z -> addr -> mstate C -> mutated C)
    (depth : nat) (flags : Z) (query : addr) (st : mstate C) : mutated C :=
  match deref (fst st) query with
  | None => inl invalid_pointer
  | Some (CComposite T_Query scalars
            [targetList; qual; havingQual; groupClause; sortClause;
             windowClause; limitCount; limitOffset; cteList; rtable]) =>
      and_then (call_mutator mutator (S depth) query st) (fun r st =>
      match r with
      | Some r => inr (r, st)
      | None =>
      let expr := expression_tree_mutator mutator depth in
      and_then (expr targetList st) (fun targetList' st =>
      and_then (expr qual st) (fun qual' st =>
      and_then (expr havingQual st) (fun havingQual' st =>
      and_then (expr groupClause st) (fun groupClause' st =>
      and_then (expr sortClause st) (fun sortClause' st =>
      and_then (expr windowClause st) (fun windowClause' st =>
      and_then (expr limitCount st) (fun limitCount' st =>
      and_then (expr limitOffset st) (fun limitOffset' st =>
      and_then
        (if has_flag flags QTW_IGNORE_CTE_SUBQUERIES
         then copy_tree depth cteList st
         else mutate_entries (mutate_cte (nested (nested_flags flags)))
                cteList st)
        (fun cteList' st =>
      and_then
        (if has_flag flags QTW_IGNORE_RANGE_TABLE
         then copy_tree depth rtable st
         else mutate_entries
                (mutate_rte flags (nested (nested_flags flags)) depth)
                rtable st)
        (fun rtable' st =>
      let query' :=
        CComposite T_Query scalars
          [targetList'; qual'; havingQual'; groupClause'; sortClause';
           windowClause'; limitCount'; limitOffset'; cteList'; rtable'] in
      if has_flag flags QTW_DONT_COPY_QUERY
      then inr (query, (assign (fst st) query query', snd st))
      else new_node query' st))))))))))
      end)
  | Some (CUnknown tag) => inl (unrecognized_node_type tag)
  | Some _ => inl malformed_node
  end.

(** Modelled from the spec: [query_tree_mutator] (section 4.2), with the
    depth counter of section 5.  The callback comes first.  When it
    declines, the parts of the query are mutated in the order of the
    walk; what a flag excludes from the recursion is copied as it is
    (invariant (b) of section 3).  The new parts go into a duplicate of
    the query node, or into the query node itself under
    QTW_DONT_COPY_QUERY.  No value of the flags has a case of its own
    that raises. *)
Fixpoint query_tree_mutator (depth : nat) (flags : Z) (query : addr)
    (st : mstate C) : mutated C :=
  match depth with
  | O => inl stack_depth_error
  | S depth' =>
      mutate_query (query_tree_mutator depth') depth' flags query st
  end.

(** Modelled from the spec: [range_table_mutator], the mutation of a bare
    list of range-table entries. *)
Definition range_table_mutator (depth : nat) (flags : Z) (rtable : addr)
    (st : mstate C) : mutated C :=
  mutate_entries
    (mutate_rte flags
       (query_tree_mutator depth (nested_flags flags)) depth)
    rtable st.
End QueryMutate.

(** A callback is identity-producing when it returns the node it is
    given. *)
Definition identity_producing {C} (mutator : mutator_fn C) : Prop :=
  forall node c, exists c', mutator node c = (node, c').

(** Every cell of [h] is in [h'], at the same address. *)
Definition extends (h h' : memory) : Prop := h `prefix_of` h'.

(** The tree at [p] is made of cells at addresses above [lo], all of them
    allocated. *)
Definition fresh_in (lo : nat) (h : memory) (p : addr) : Prop :=
  forall depth a, In a (footprint depth h p) -> (lo < a <= length h)%nat.

(** What [store] writes is made of new cells, and the cells there were are
    as they were. *)
Definition stores_fresh (store : Node -> memory -> memory * addr) (t : Node)
  : Prop :=
  forall h, extends h (fst (store t h))
            /\ fresh_in (length h) (fst (store t h)) (snd (store t h)).

(** Every node of the tree is of a kind the engine has a case for. *)
Fixpoint all_recognized (node : Node) : bool :=
  match node with
  | NNull | NLeaf _ _ => true
  | NComposite _ _ slots => forallb all_recognized slots
  | NUnknown _ => false
  end.

(** ** Trees to run the engine on *)

Module Scenario.
Definition list (l : list Node) : Node := NComposite T_List 0 l.

(** A query with the given target list, range table and CTE list, and no
    other clause. *)
Definition select (targetList rtable cteList : Node) : Node :=
  NComposite T_Query 0
    [targetList; NNull; NNull; NNull; NNull; NNull; NNull; NNull;
     cteList; rtable].

Definition var (attno : Z) : Node := NLeaf T_Var attno.
Definition const (v : Z) : Node := NLeaf T_Const v.
Definition plus (a b : Node) : Node := NComposite T_OpExpr 551 [a; b].
Definition target (e : Node) : Node := NComposite T_TargetEntry 0 [e].

(** SELECT x AS a FROM t *)
Definition inner : Node :=
  select (list [target (var 1)])
         (list [NComposite (T_RangeTblEntry RTE_RELATION) 0 []])
         NNull.

(** SELECT a + 1 FROM (SELECT x AS a FROM t) sub *)
Definition outer : Node :=
  select (list [target (plus (var 1) (const 1))])
         (list [NComposite (T_RangeTblEntry RTE_SUBQUERY) 0 [inner]])
         NNull.

(** The expression (a + 1) :: relabel. *)
Definition relabel : Node :=
  NComposite T_RelabelType 0 [plus (var 1) (const 1)].

Definition is_const (node : Node) : bool :=
  match node with
  | NLeaf T_Const _ => true
  | _ => false
  end.

(** A memory that holds [relabel]: the variable at address 1, the
    constant at 2, the sum at 3 and the relabel node at 4. *)
Definition relabel_memory : memory := fst (store_tree relabel []).
Definition relabel_root : addr := snd (store_tree relabel []).

(** A memory that holds [outer]. *)
Definition outer_memory : memory := fst (store_tree outer []).
Definition outer_root : addr := snd (store_tree outer []).

(** A callback that strips a relabel node: it returns the argument of the
    node, which is a part of the tree it was given, and declines every
    other node. *)
Definition strip_relabel : mutator_fn unit :=
  fun node context =>
    match node with
    | NComposite T_RelabelType _ [arg] => (arg, context)
    | _ => (node, context)
    end.

(** A callback that replaces every constant by the constant 0, and
    declines every other node. *)
Definition zero_constants : mutator_fn unit :=
  fun node context =>
    match node with
    | NLeaf T_Const _ => (NLeaf T_Const 0, context)
    | _ => (node, context)
    end.
End Scenario.

(** ** What a mutation leaves behind *)

(** What a successful mutation of the tree [t] at depth [depth] leaves: the
    cells there were are as they were, the result is made of new cells, and
    after an identity-producing callback it is the tree [t]. *)
Definition mutation_of {C} (mutator : mutator_fn C) (depth : nat) (t : Node)
    (h : memory) (node' : addr) (h' : memory) : Prop :=
  extends h h'
  /\ fresh_in (length h) h' node'
  /\ (identity_producing mutator -> load depth h' node' = Some t).

(** The step returned and only allocated. *)
Definition allocated {C A} (h : memory) (x : res (A * mstate C)) : Prop :=
  exists a h' c', x = inr (a, (h', c')) /\ extends h h'.

(** The step [f] on the node at [p] returns and only allocates, from every
    memory that extends [h0]. *)
Definition returns {C} (f : addr -> mstate C -> mutated C) (h0 : memory)
    (p : addr) : Prop :=
  forall h c, extends h0 h ->
    exists r h' c', f p (h, c) = inr (r, (h', c')) /\ extends h h'.

(** The step returned, and only allocated unless the query was to be
    mutated in place. *)
Definition returned {C} (flags : Z) (h : memory) (x : mutated C) : Prop :=
  exists r h' c',
    x = inr (r, (h', c'))
    /\ (has_flag flags QTW_DONT_COPY_QUERY = false -> extends h h').

(* ===================================================================== *)
(** * Part IV. A small catalog to run the command on                      *)
(* ===================================================================== *)

Module Toy.
(** A row of pg_proc. *)
Record pg_proc := mkProc {
  prooid : Oid;
  proname : string;
  proargtypes : list Oid;
  prorettype : Oid
}.

(** The catalog: types, functions, the operators created so far, and the
    objects the session user has no privilege on. *)
Record Catalog := mkCatalog {
  pg_type : list (string * Oid);
  procs : list pg_proc;
  pg_operator : list OperatorCreateArgs;
  no_usage : list Oid;
  no_execute : list Oid
}.

Definition lower (c : ascii) : ascii :=
  let n := nat_of_ascii c in
  if (65 <=? n)%nat && (n <=? 90)%nat then ascii_of_nat (n + 32) else c.

(** Comparison of two strings that ignores the case of ASCII letters:
    zero when equal, else the difference of the first two folded
    characters that differ. *)
Fixpoint strcasecmp (s1 s2 : string) : Z :=
  match s1, s2 with
  | EmptyString, EmptyString => 0
  | EmptyString, String c2 _ => - Z.of_nat (nat_of_ascii (lower c2))
  | String c1 _, EmptyString => Z.of_nat (nat_of_ascii (lower c1))
  | String c1 r1, String c2 r2 =>
      let d := Z.of_nat (nat_of_ascii (lower c1))
               - Z.of_nat (nat_of_ascii (lower c2)) in
      if d =? 0 then strcasecmp r1 r2 else d
  end.

Definition err (code : SqlState) (msg : string) : ErrorData :=
  mkErrorData ERROR code msg.

Definition public_namespace : Oid := 2200.
Definition catalog_namespace : Oid := 11.

Definition creation_namespace (cat : Catalog) (names : list string)
  : res (Oid * string) :=
  match names with
  | [n] => inr (public_namespace, n)
  | [s; n] =>
      if String.eqb s "public" then inr (public_namespace, n)
      else if String.eqb s "pg_catalog" then inr (catalog_namespace, n)
      else inl (err ERRCODE_INVALID_SCHEMA_NAME "schema does not exist")
  | _ => inl (err ERRCODE_SYNTAX_ERROR "improper qualified name")
  end.

Definition namespace_name (cat : Catalog) (o : Oid) : string :=
  if o =? public_namespace then "public" else "pg_catalog".

Definition namespace_aclcheck (cat : Catalog) (nsp user : Oid) (m : AclMode)
  : AclResult :=
  if nsp =? public_namespace then ACLCHECK_OK else ACLCHECK_NO_PRIV.

Definition mem (o : Oid) (l : list Oid) : bool := existsb (Z.eqb o) l.

Definition type_aclcheck (cat : Catalog) (ty user : Oid) (m : AclMode)
  : AclResult :=
  if mem ty (no_usage cat) then ACLCHECK_NO_PRIV else ACLCHECK_OK.

Definition proc_aclcheck (cat : Catalog) (fn user : Oid) (m : AclMode)
  : AclResult :=
  if mem fn (no_execute cat) then ACLCHECK_NO_PRIV else ACLCHECK_OK.

Definition get_type_name (d : DefElem) : res TypeName :=
  match arg d with
  | ArgTypeName t => inr t
  | _ => inl (err ERRCODE_SYNTAX_ERROR "argument must be a type name")
  end.

Definition get_qualified_name (d : DefElem) : res (list string) :=
  match arg d with
  | ArgTypeName t => inr (tn_names t)
  | ArgNames l => inr l
  | ArgString s => inr [s]
  | _ => inl (err ERRCODE_SYNTAX_ERROR "argument must be a name")
  end.

Definition get_boolean (d : DefElem) : res bool :=
  match arg d with
  | ArgNone => inr true
  | ArgInteger 0 => inr false
  | ArgInteger 1 => inr true
  | _ => inl (err ERRCODE_SYNTAX_ERROR "requires a Boolean value")
  end.

Definition last_name (l : list string) : string := List.last l EmptyString.

Definition type_oid (cat : Catalog) (t : TypeName) : res Oid :=
  match List.find (fun e => String.eqb (fst e) (last_name (tn_names t)))
                  (pg_type cat) with
  | Some e => inr (snd e)
  | None => inl (err ERRCODE_UNDEFINED_OBJECT "type does not exist")
  end.

Definition same_oids (l1 l2 : list Oid) : bool :=
  bool_decide (l1 = l2).

Definition lookup_func_name (cat : Catalog) (name : list string) (nargs : Z)
    (argtypes : list Oid) (noError : bool) : res Oid :=
  match List.filter (fun f => String.eqb (proname f) (last_name name)
                              && same_oids (proargtypes f) argtypes)
                    (procs cat) with
  | [f] => inr (prooid f)
  | [] => if noError then inr InvalidOid
          else inl (err ERRCODE_UNDEFINED_FUNCTION "function does not exist")
  | _ => if noError then inr InvalidOid
         else inl (err ERRCODE_AMBIGUOUS_FUNCTION "function is not unique")
  end.

Definition func_rettype (cat : Catalog) (fn : Oid) : res Oid :=
  match List.find (fun f => prooid f =? fn) (procs cat) with
  | Some f => inr (prorettype f)
  | None => inl (err ERRCODE_INTERNAL_ERROR "cache lookup failed for function")
  end.

Fixpoint name_list_to_string (l : list string) : string :=
  match l with
  | [] => EmptyString
  | [n] => n
  | n :: l' => n +:+ "." +:+ name_list_to_string l'
  end.

Definition type_name (cat : Catalog) (o : Oid) : string :=
  match List.find (fun e => snd e =? o) (pg_type cat) with
  | Some e => fst e
  | None => "???"
  end.

Definition OperatorRelationId : Oid := 2617.

Definition same_operator (a b : OperatorCreateArgs) : bool :=
  String.eqb (oc_operatorName a) (oc_operatorName b)
  && (oc_operatorNamespace a =? oc_operatorNamespace b)
  && (oc_leftTypeId a =? oc_leftTypeId b)
  && (oc_rightTypeId a =? oc_rightTypeId b).

(** Creating an operator adds a row to pg_operator, unless that operator
    exists. *)
Definition operator_create (a : OperatorCreateArgs) (cat : Catalog)
  : res ObjectAddress * Catalog :=
  if existsb (same_operator a) (pg_operator cat) then
    (inl (err ERRCODE_INVALID_FUNCTION_DEFINITION "operator already exists"),
     cat)
  else
    (inr (mkObjectAddress OperatorRelationId
            (16384 + Z.of_nat (length (pg_operator cat))) 0),
     mkCatalog (pg_type cat) (procs cat) (pg_operator cat ++ [a])
               (no_usage cat) (no_execute cat)).

Definition services : Services Catalog :=
  {| GetUserId := 10;
     QualifiedNameGetCreationNamespace := creation_namespace;
     get_namespace_name := namespace_name;
     pg_namespace_aclcheck := namespace_aclcheck;
     pg_type_aclcheck := type_aclcheck;
     pg_proc_aclcheck := proc_aclcheck;
     pg_strcasecmp := strcasecmp;
     defGetTypeName := get_type_name;
     defGetQualifiedName := get_qualified_name;
     defGetBoolean := get_boolean;
     typenameTypeId := type_oid;
     LookupFuncName := lookup_func_name;
     get_func_rettype := func_rettype;
     NameListToString := name_list_to_string;
     format_type_be := type_name;
     OperatorCreate := operator_create;
     INTERNALOID := 2281;
     OIDOID := 26;
     INT4OID := 23;
     INT2OID := 21;
     FLOAT8OID := 701 |}.

Definition initial_catalog : Catalog :=
  {| pg_type := [("int4", 23); ("float8", 701); ("bool", 16);
                 ("secret", 9001)];
     procs :=
       [ mkProc 177 "int4pl" [23; 23] 23;
         mkProc 212 "int4um" [23] 23;
         mkProc 101 "eqsel" [2281; 26; 2281; 23] 701;
         mkProc 105 "eqjoinsel" [2281; 26; 2281; 21; 2281] 701;
         mkProc 9100 "badsel" [2281; 26; 2281; 23] 23;
         mkProc 9101 "oldjoinsel" [2281; 26; 2281; 21] 16;
         mkProc 9200 "privfn" [23; 23] 23;
         mkProc 9201 "privsel" [2281; 26; 2281; 23] 701;
         mkProc 9202 "privjoinsel" [2281; 26; 2281; 21; 2281] 701;
         mkProc 9300 "secretfn" [23; 23] 9001;
         mkProc 9301 "secretarg" [9001; 23] 23 ];
     pg_operator := [];
     no_usage := [9001];
     no_execute := [9200; 9201; 9202] |}.

Definition backend : Backend Catalog := mkBackend initial_catalog [].

Definition int4 : TypeName := mkTypeName ["int4"] false.
Definition setof_int4 : TypeName := mkTypeName ["int4"] true.
Definition secret : TypeName := mkTypeName ["secret"] false.

Definition leftarg (t : TypeName) := mkDefElem "leftarg" (ArgTypeName t).
Definition rightarg (t : TypeName) := mkDefElem "rightarg" (ArgTypeName t).
Definition procedure (f : string) := mkDefElem "PROCEDURE" (ArgNames [f]).
Definition restrict (f : string) := mkDefElem "restrict" (ArgNames [f]).
Definition join (f : string) := mkDefElem "join" (ArgNames [f]).

(** CREATE OPERATOR === (leftarg = int4, rightarg = int4,
    procedure = int4pl, restrict = eqsel, join = eqjoinsel, hashes) *)
Definition plus_parameters : list DefElem :=
  [leftarg int4; rightarg int4; procedure "int4pl"; restrict "eqsel";
   join "eqjoinsel"; mkDefElem "hashes" ArgNone].

Definition run (names : list string) (parameters : list DefElem) :=
  DefineOperator services names parameters backend.
End Toy.

(** The loop variables after the parameter loop has run over [l] on the
    small catalog. *)
Definition Toy_vars (l : list DefElem) : OperatorVars :=
  match fst (DefineOperator_parameters Toy.services l Toy.backend) with
  | inr v => v
  | inl _ => OperatorVars_init
  end.

(** An element of a definition list that names no attribute of an
    operator. *)
Definition Toy_bogus : DefElem := mkDefElem "bogus" ArgNone.

(** The definition list of a binary operator on int4 with procedure [f]. *)
Definition Toy_binary (f : string) : list DefElem :=
  [Toy.leftarg Toy.int4; Toy.rightarg Toy.int4; Toy.procedure f].

(** Services whose function lookups raise on every call. *)
Definition Toy_no_lookup : Services Toy.Catalog :=
  {| GetUserId := GetUserId Toy.services;
     QualifiedNameGetCreationNamespace :=
       QualifiedNameGetCreationNamespace Toy.services;
     get_namespace_name := get_namespace_name Toy.services;
     pg_namespace_aclcheck := pg_namespace_aclcheck Toy.services;
     pg_type_aclcheck := pg_type_aclcheck Toy.services;
     pg_proc_aclcheck := pg_proc_aclcheck Toy.services;
     pg_strcasecmp := pg_strcasecmp Toy.services;
     defGetTypeName := defGetTypeName Toy.services;
     defGetQualifiedName := defGetQualifiedName Toy.services;
     defGetBoolean := defGetBoolean Toy.services;
     typenameTypeId := typenameTypeId Toy.services;
     LookupFuncName := fun _ _ _ _ _ =>
       inl (Toy.err ERRCODE_UNDEFINED_FUNCTION "function does not exist");
     get_func_rettype := fun _ _ =>
       inl (Toy.err ERRCODE_INTERNAL_ERROR "cache lookup failed for function");
     NameListToString := NameListToString Toy.services;
     format_type_be := format_type_be Toy.services;
     OperatorCreate := OperatorCreate Toy.services;
     INTERNALOID := INTERNALOID Toy.services;
     OIDOID := OIDOID Toy.services;
     INT4OID := INT4OID Toy.services;
     INT2OID := INT2OID Toy.services;
     FLOAT8OID := FLOAT8OID Toy.services |}.

(* ===================================================================== *)
(** * Part IV, continued. The rest of the sources                         *)
(* ===================================================================== *)

(** ** The branches of the parameter loop *)

(** The attribute names the parameter loop of [DefineOperator] compares the
    name of an element with, in the order of its branches (lines
    104-141). *)
Definition operator_attributes : list string :=
  ["leftarg"; "rightarg"; "procedure"; "commutator"; "negator"; "restrict";
   "join"; "hashes"; "merges"; "sort1"; "sort2"; "ltcmp"; "gtcmp"].

(** The branch that takes an element: the first of these names its name
    compares equal to, if any. *)
Definition attribute_of {Catalog} (svc : Services Catalog) (defel : DefElem)
  : option string :=
  List.find (defname_is svc defel) operator_attributes.

(** Some element of the list is taken by the branch for [name]. *)
Definition assigns {Catalog} (svc : Services Catalog) (name : string)
    (parameters : list DefElem) : bool :=
  existsb (fun d => bool_decide (attribute_of svc d = Some name)) parameters.

(** The warnings of lines 144-147 for the elements of a list, in order. *)
Definition DefineOperator_warnings {Catalog} (svc : Services Catalog)
    (parameters : list DefElem) : list ErrorData :=
  map unrecognized_warning
    (List.filter (unrecognized_attribute svc) parameters).

(** ** RemoveOperatorById (operatorcmds.c, lines 306-324) *)

(** The collaborators of [RemoveOperatorById]: functions of heapam.c and
    syscache.c and constants of pg_operator.h, syscache.h and lockdefs.h.
    None of them is part of the sources at hand, so they are parameters,
    over the state [St] they work on.  Each may raise.  [SearchSysCache1]
    returns no tuple ([NULL], for which [HeapTupleIsValid] is false) when
    the cache has none for the key. *)
Record HeapAccess (St Relation HeapTuple ItemPointer LOCKMODE : Type) :=
  mkHeapAccess {
  OperatorRelationId : Oid;
  OPEROID : Z;
  RowExclusiveLock : LOCKMODE;
  heap_open : Oid -> LOCKMODE -> Cmd.t St Relation;
  SearchSysCache1 : Z -> Oid -> Cmd.t St (option HeapTuple);
  t_self : HeapTuple -> ItemPointer;
  simple_heap_delete : Relation -> ItemPointer -> Cmd.t St unit;
  ReleaseSysCache : HeapTuple -> Cmd.t St unit;
  heap_close : Relation -> LOCKMODE -> Cmd.t St unit
}.

Arguments OperatorRelationId {St Relation HeapTuple ItemPointer LOCKMODE}.
Arguments OPEROID {St Relation HeapTuple ItemPointer LOCKMODE}.
Arguments RowExclusiveLock {St Relation HeapTuple ItemPointer LOCKMODE}.
Arguments heap_open {St Relation HeapTuple ItemPointer LOCKMODE}.
Arguments SearchSysCache1 {St Relation HeapTuple ItemPointer LOCKMODE}.
Arguments t_self {St Relation HeapTuple ItemPointer LOCKMODE}.
Arguments simple_heap_delete {St Relation HeapTuple ItemPointer LOCKMODE}.
Arguments ReleaseSysCache {St Relation HeapTuple ItemPointer LOCKMODE}.
Arguments heap_close {St Relation HeapTuple ItemPointer LOCKMODE}.

(** [elog(ERROR, ...)]: an internal error. *)
Definition elog_ERROR {St A} (msg : string) : Cmd.t St A :=
  Cmd.raise (mkErrorData ERROR ERRCODE_INTERNAL_ERROR msg).

(** The conversion [%u] of an [Oid]: the decimal digits of the unsigned
    32-bit value. *)
Definition format_u (x : Oid) : string := pretty (x `mod` 2 ^ 32).

Section RemoveOperatorById.
Context {St Relation HeapTuple ItemPointer LOCKMODE : Type}
  (ha : HeapAccess St Relation HeapTuple ItemPointer LOCKMODE).
Local Open Scope cmd_scope.

(** [RemoveOperatorById(operOid)]: the guts of operator deletion. *)
Definition RemoveOperatorById (operOid : Oid) : Cmd.t St unit :=
  relation <- heap_open ha (OperatorRelationId ha) (RowExclusiveLock ha) ;;
  tup <- SearchSysCache1 ha (OPEROID ha) operOid ;;
  match tup with
  | None => (* should not happen *)
      elog_ERROR ("cache lookup failed for operator__ " +:+ format_u operOid)
  | Some tup =>
      simple_heap_delete ha relation (t_self ha tup) ;;;
      ReleaseSysCache ha tup ;;;
      heap_close ha relation (RowExclusiveLock ha)
  end.
End RemoveOperatorById.

(** The report of line 316. *)
Definition cache_lookup_failed (operOid : Oid) : ErrorData :=
  mkErrorData ERROR ERRCODE_INTERNAL_ERROR
    ("cache lookup failed for operator__ " +:+ format_u operOid).

(** What the collaborators hold for the caller, as far as
    [RemoveOperatorById] is concerned: how many times each relation is
    open under each lock, and how many references to each cache tuple are
    pinned.  The contract says how each collaborator changes the counts:
    [heap_open] adds one to the relation it returns, under the lock it was
    asked for, and [heap_close] takes one from the relation it is given;
    [SearchSysCache1] adds one to the tuple it returns and
    [ReleaseSysCache] takes one from the tuple it is given; nothing else
    changes them, and a collaborator that raises leaves them as they
    were. *)
Record HeapContract {St Relation HeapTuple ItemPointer LOCKMODE : Type}
    `{EqDecision Relation, EqDecision LOCKMODE, EqDecision HeapTuple}
    (ha : HeapAccess St Relation HeapTuple ItemPointer LOCKMODE)
    (open_count : St -> Relation -> LOCKMODE -> nat)
    (pin_count : St -> HeapTuple -> nat) : Prop := mkHeapContract {
  heap_open_opens : forall relid lock s r s',
    heap_open ha relid lock s = (r, s') ->
    (forall t, pin_count s' t = pin_count s t)
    /\ (forall rel' lock',
           open_count s' rel' lock'
           = (open_count s rel' lock'
              + match r with
                | inr rel => if decide ((rel', lock') = (rel, lock))
                             then 1 else 0
                | inl _ => 0
                end)%nat);
  SearchSysCache1_pins : forall cache key s r s',
    SearchSysCache1 ha cache key s = (r, s') ->
    (forall rel lock, open_count s' rel lock = open_count s rel lock)
    /\ (forall t,
           pin_count s' t
           = (pin_count s t
              + match r with
                | inr (Some tup) => if decide (t = tup) then 1 else 0
                | _ => 0
                end)%nat);
  simple_heap_delete_keeps : forall rel tid s r s',
    simple_heap_delete ha rel tid s = (r, s') ->
    (forall rel lock, open_count s' rel lock = open_count s rel lock)
    /\ (forall t, pin_count s' t = pin_count s t);
  ReleaseSysCache_unpins : forall tup s r s',
    ReleaseSysCache ha tup s = (r, s') ->
    (forall rel lock, open_count s' rel lock = open_count s rel lock)
    /\ (forall t,
           pin_count s t
           = (pin_count s' t
              + match r with
                | inr _ => if decide (t = tup) then 1 else 0
                | inl _ => 0
                end)%nat);
  heap_close_closes : forall rel lock s r s',
    heap_close ha rel lock s = (r, s') ->
    (forall t, pin_count s' t = pin_count s t)
    /\ (forall rel' lock',
           open_count s rel' lock'
           = (open_count s' rel' lock'
              + match r with
                | inr _ => if decide ((rel', lock') = (rel, lock))
                           then 1 else 0
                | inl _ => 0
                end)%nat)
}.

(** A heap to run [RemoveOperatorById] on: the rows of pg_operator, each
    with its tuple identifier and the identifier of its operator, the
    relations that are open and the tuples that are pinned. *)
Module ToyHeap.
Record State := mkState {
  rows : list (nat * Oid);
  opened : list (Oid * Z);
  pinned : list (nat * Oid)
}.

Definition open (relid : Oid) (lock : Z) : Cmd.t State Oid :=
  fun s => (inr relid, mkState (rows s) ((relid, lock) :: opened s) (pinned s)).

Definition search (cache : Z) (key : Oid) : Cmd.t State (option (nat * Oid)) :=
  fun s =>
    match List.find (fun row => snd row =? key) (rows s) with
    | Some row =>
        (inr (Some row), mkState (rows s) (opened s) (row :: pinned s))
    | None => (inr None, s)
    end.

Definition delete (rel : Oid) (tid : nat) : Cmd.t State unit :=
  fun s =>
    (inr tt,
     mkState (List.filter (fun row => negb (Nat.eqb (fst row) tid)) (rows s))
             (opened s) (pinned s)).

(** The list without the first occurrence of [x]. *)
Fixpoint remove_first {A} `{EqDecision A} (x : A) (l : list A) : list A :=
  match l with
  | [] => []
  | y :: l' => if decide (y = x) then l' else y :: remove_first x l'
  end.

Definition release (tup : nat * Oid) : Cmd.t State unit :=
  fun s =>
    if bool_decide (tup ∈ pinned s)
    then (inr tt, mkState (rows s) (opened s) (remove_first tup (pinned s)))
    else (inl (mkErrorData ERROR ERRCODE_INTERNAL_ERROR
                 "cache reference is not pinned"), s).

Definition close (rel : Oid) (lock : Z) : Cmd.t State unit :=
  fun s =>
    if bool_decide ((rel, lock) ∈ opened s)
    then (inr tt,
          mkState (rows s) (remove_first (rel, lock) (opened s)) (pinned s))
    else (inl (mkErrorData ERROR ERRCODE_INTERNAL_ERROR
                 "relation is not open"), s).

Definition access : HeapAccess State Oid (nat * Oid) nat Z :=
  {| OperatorRelationId := 2617;
     OPEROID := 37;
     RowExclusiveLock := 3;
     heap_open := open;
     SearchSysCache1 := search;
     t_self := fst;
     simple_heap_delete := delete;
     ReleaseSysCache := release;
     heap_close := close |}.

(** The number of occurrences of [x]. *)
Definition occurrences {A} `{EqDecision A} (x : A) (l : list A) : nat :=
  length (List.filter (fun y => bool_decide (y = x)) l).

Definition open_count (s : State) (rel : Oid) (lock : Z) : nat :=
  occurrences (rel, lock) (opened s).

Definition pin_count (s : State) (tup : nat * Oid) : nat :=
  occurrences tup (pinned s).

(** pg_operator with two operators. *)
Definition initial : State :=
  mkState [(1%nat, 16384); (2%nat, 16385)] [] [].
End ToyHeap.

(* ===================================================================== *)
(** * Part V. Properties of DefineOperator                                *)
(* ===================================================================== *)

Example Toy_run_plus :
  Toy.run ["==="] Toy.plus_parameters
  = (inr (mkObjectAddress 2617 16384 0),
     mkBackend
       (Toy.mkCatalog (Toy.pg_type Toy.initial_catalog)
          (Toy.procs Toy.initial_catalog)
          [ mkOperatorCreateArgs "===" 2200 23 23 177 [] [] 101 105 false true ]
          [9001] [9200; 9201; 9202])
       []).
Proof. vm_compute. reflexivity. Qed.

Section DefineOperator_effects.
Context {Catalog : Type} (svc : Services Catalog).
Abbreviation cmd := (Cmd.t (Backend Catalog)).
Implicit Types s : Backend Catalog.

Lemma bind_inl {A B} (c : cmd A) (k : A -> cmd B) s e s' :
  c s = (inl e, s') -> Cmd.bind c k s = (inl e, s').
Proof. intros H. unfold Cmd.bind. now rewrite H. Qed.

Lemma bind_inr {A B} (c : cmd A) (k : A -> cmd B) s a s' :
  c s = (inr a, s') -> Cmd.bind c k s = k a s'.
Proof. intros H. unfold Cmd.bind. now rewrite H. Qed.

(** A read-only command returns the state it was run on. *)
Lemma read_only_state {A} (c : cmd A) s : read_only c -> snd (c s) = s.
Proof.
  intros H. destruct s as [cat n]. destruct (H cat) as [r Hr].
  now rewrite Hr.
Qed.

Lemma read_only_run {A} (c : cmd A) s r s' :
  read_only c -> c s = (r, s') -> s' = s.
Proof. intros H E. rewrite <- (read_only_state c s H), E. reflexivity. Qed.

Lemma read_only_ret {A} (a : A) : read_only (Catalog:=Catalog) (Cmd.ret a).
Proof. intros cat. now exists (inr a). Qed.

Lemma read_only_raise {A} e : read_only (Catalog:=Catalog) (A:=A) (Cmd.raise e).
Proof. intros cat. now exists (inl e). Qed.

Lemma read_only_call {A} (r : res A) :
  read_only (Catalog:=Catalog) (Cmd.lookup (fun _ => r)).
Proof. intros cat. now exists r. Qed.

Lemma read_only_with_catalog {A} (f : Catalog -> res A) :
  read_only (with_catalog f).
Proof. intros cat. now exists (f cat). Qed.

Lemma read_only_from_catalog {A} (f : Catalog -> A) :
  read_only (from_catalog f).
Proof. intros cat. now exists (inr (f cat)). Qed.

Lemma read_only_ereport_ERROR {A} c m :
  read_only (ereport_ERROR (Catalog:=Catalog) (A:=A) c m).
Proof. apply read_only_raise. Qed.

Lemma read_only_bind {A B} (c : cmd A) (k : A -> cmd B) :
  read_only c -> (forall a, read_only (k a)) -> read_only (Cmd.bind c k).
Proof.
  intros Hc Hk cat. destruct (Hc cat) as [[e | a] Hr].
  - exists (inl e). intros n. unfold Cmd.bind. now rewrite Hr.
  - destruct (Hk a cat) as [r' Hr']. exists r'. intros n.
    unfold Cmd.bind. now rewrite Hr.
Qed.

Lemma read_only_when (b : bool) (c : cmd unit) :
  read_only c -> read_only (Cmd.when b c).
Proof. intros Hc. destruct b; simpl; [exact Hc | apply read_only_ret]. Qed.

Lemma read_only_aclcheck_error a k n :
  read_only (aclcheck_error (Catalog:=Catalog) a k n).
Proof.
  destruct a; simpl;
    [apply read_only_ret | apply read_only_raise | apply read_only_raise].
Qed.

Create HintDb ro.
Hint Resolve read_only_ret read_only_raise read_only_call
  read_only_aclcheck_error read_only_with_catalog read_only_from_catalog
  read_only_ereport_ERROR : ro.

Ltac ro :=
  repeat first
    [ solve [auto with ro]
    | apply read_only_bind; [| intros ?]
    | apply read_only_when
    | match goal with
      | |- read_only (if ?b then _ else _) => destruct b
      | |- read_only (match ?o with Some _ => _ | None => _ end) =>
          destruct o
      end ].

Lemma read_only_aclcheck_error_type a o :
  read_only (aclcheck_error_type svc a o).
Proof. unfold aclcheck_error_type. ro. Qed.

Lemma read_only_lookup_func f n t b : read_only (lookup_func svc f n t b).
Proof. unfold lookup_func. ro. Qed.

Lemma read_only_require_execute o n : read_only (require_execute svc o n).
Proof. unfold require_execute. ro. Qed.

Lemma read_only_require_float8 w o n : read_only (require_float8 svc w o n).
Proof. unfold require_float8. ro. Qed.

Hint Resolve read_only_aclcheck_error_type read_only_lookup_func
  read_only_require_execute read_only_require_float8 : ro.

Lemma read_only_namespace names :
  read_only (DefineOperator_namespace svc names).
Proof. unfold DefineOperator_namespace. ro. Qed.

Lemma read_only_typeId t : read_only (DefineOperator_typeId svc t).
Proof. unfold DefineOperator_typeId. ro. Qed.

Lemma read_only_type_usage t o : read_only (DefineOperator_type_usage svc t o).
Proof. unfold DefineOperator_type_usage. ro. Qed.

Hint Resolve read_only_typeId read_only_type_usage : ro.

Lemma read_only_typeIds v : read_only (DefineOperator_typeIds svc v).
Proof. unfold DefineOperator_typeIds. ro. Qed.

Hint Resolve read_only_typeIds : ro.

Lemma read_only_types v : read_only (DefineOperator_types svc v).
Proof. unfold DefineOperator_types. ro. Qed.

Lemma read_only_lookup_function v t1 t2 :
  read_only (DefineOperator_lookup_function svc v t1 t2).
Proof. unfold DefineOperator_lookup_function. ro. Qed.

Lemma read_only_rettype_usage o :
  read_only (DefineOperator_rettype_usage svc o).
Proof.
  unfold DefineOperator_rettype_usage. ro.
Qed.

Hint Resolve read_only_lookup_function read_only_rettype_usage : ro.

Lemma read_only_function v t1 t2 :
  read_only (DefineOperator_function svc v t1 t2).
Proof. unfold DefineOperator_function. ro. Qed.

Lemma read_only_lookup_restriction v :
  read_only (DefineOperator_lookup_restriction svc v).
Proof. unfold DefineOperator_lookup_restriction. ro. Qed.

Lemma read_only_lookup_join v : read_only (DefineOperator_lookup_join svc v).
Proof. unfold DefineOperator_lookup_join. ro. Qed.

Hint Resolve read_only_lookup_restriction read_only_lookup_join : ro.

Lemma read_only_restriction v : read_only (DefineOperator_restriction svc v).
Proof. unfold DefineOperator_restriction. ro. Qed.

Lemma read_only_join v : read_only (DefineOperator_join svc v).
Proof. unfold DefineOperator_join. ro. Qed.

(** ** Commands that only add notices *)

Lemma read_only_catalog_preserving {A} (c : cmd A) :
  read_only c -> catalog_preserving c.
Proof.
  intros H cat. destruct (H cat) as [r Hr]. exists r, [].
  intros n. rewrite app_nil_r. apply Hr.
Qed.

Lemma catalog_preserving_notice_parametric {A} (c : cmd A) :
  catalog_preserving c -> notice_parametric c.
Proof. intros H cat. destruct (H cat) as (r & w & Hr). now exists r, cat, w. Qed.

Lemma catalog_preserving_bind {A B} (c : cmd A) (k : A -> cmd B) :
  catalog_preserving c -> (forall a, catalog_preserving (k a)) ->
  catalog_preserving (Cmd.bind c k).
Proof.
  intros Hc Hk cat. destruct (Hc cat) as ([e | a] & w & Hr).
  - exists (inl e), w. intros n. unfold Cmd.bind. now rewrite Hr.
  - destruct (Hk a cat) as (r' & w' & Hr'). exists r', (w ++ w').
    intros n. unfold Cmd.bind. rewrite Hr, Hr'. now rewrite app_assoc.
Qed.

Lemma notice_parametric_bind {A B} (c : cmd A) (k : A -> cmd B) :
  catalog_preserving c -> (forall a, notice_parametric (k a)) ->
  notice_parametric (Cmd.bind c k).
Proof.
  intros Hc Hk cat. destruct (Hc cat) as ([e | a] & w & Hr).
  - exists (inl e), cat, w. intros n. unfold Cmd.bind. now rewrite Hr.
  - destruct (Hk a cat) as (r' & cat' & w' & Hr'). exists r', cat', (w ++ w').
    intros n. unfold Cmd.bind. rewrite Hr, Hr'. now rewrite app_assoc.
Qed.

Lemma catalog_preserving_state {A} (c : cmd A) s :
  catalog_preserving c -> catalog (snd (c s)) = catalog s.
Proof.
  intros H. destruct s as [cat n]. destruct (H cat) as (r & w & Hr).
  now rewrite Hr.
Qed.

(** Two runs of a notice-parametric command on the same catalog agree on
    the result and on the catalog, and add the same notices. *)
Lemma notice_parametric_runs {A} (c : cmd A) cat n n' :
  notice_parametric c ->
  fst (c (mkBackend cat n)) = fst (c (mkBackend cat n'))
  /\ catalog (snd (c (mkBackend cat n)))
     = catalog (snd (c (mkBackend cat n')))
  /\ exists w, notices (snd (c (mkBackend cat n))) = n ++ w
               /\ notices (snd (c (mkBackend cat n'))) = n' ++ w.
Proof.
  intros H. destruct (H cat) as (r & cat' & w & Hr).
  rewrite (Hr n), (Hr n'). simpl. repeat split. now exists w.
Qed.

Lemma catalog_preserving_ereport_WARNING c m :
  catalog_preserving (ereport_WARNING (Catalog:=Catalog) c m).
Proof.
  intros cat. exists (inr tt), [mkErrorData WARNING c m]. reflexivity.
Qed.

Lemma catalog_preserving_param d v :
  catalog_preserving (DefineOperator_param svc d v).
Proof.
  unfold DefineOperator_param.
  repeat match goal with
         | |- catalog_preserving (if ?b then _ else _) => destruct b
         end;
    try (apply read_only_catalog_preserving; solve [ro]).
  apply catalog_preserving_bind.
  - apply catalog_preserving_ereport_WARNING.
  - intros _. apply read_only_catalog_preserving. ro.
Qed.

Lemma catalog_preserving_foreach {A V} (body : A -> V -> cmd V) l v :
  (forall x v, catalog_preserving (body x v)) ->
  catalog_preserving (Cmd.foreach l body v).
Proof.
  intros Hbody. revert v. induction l as [| x l IH]; intros v; simpl.
  - apply read_only_catalog_preserving, read_only_ret.
  - apply catalog_preserving_bind; [apply Hbody | exact IH].
Qed.

Lemma catalog_preserving_parameters parameters :
  catalog_preserving (DefineOperator_parameters svc parameters).
Proof. apply catalog_preserving_foreach, catalog_preserving_param. Qed.

Lemma notice_parametric_OperatorCreate a :
  notice_parametric (call_OperatorCreate svc a).
Proof.
  intros cat.
  exists (fst (OperatorCreate svc a cat)), (snd (OperatorCreate svc a cat)), [].
  intros n. unfold call_OperatorCreate. simpl. now rewrite app_nil_r.
Qed.

(** [foreach] over an appended list runs the two loops in sequence. *)
Lemma foreach_app {A V} (body : A -> V -> cmd V) l1 l2 v s :
  Cmd.foreach (l1 ++ l2) body v s
  = Cmd.bind (Cmd.foreach l1 body v) (Cmd.foreach l2 body) s.
Proof.
  revert v s. induction l1 as [| x l1 IH]; intros v s; simpl.
  - reflexivity.
  - unfold Cmd.bind. destruct (body x v s) as [[e | v'] s1].
    + reflexivity.
    + rewrite IH. reflexivity.
Qed.

Lemma DefineOperator_unfold names parameters :
  DefineOperator svc names parameters
  = Cmd.bind (DefineOperator_namespace svc names) (fun ns =>
    Cmd.bind (DefineOperator_parameters svc parameters)
             (DefineOperator_finish svc ns)).
Proof. reflexivity. Qed.

Lemma notice_parametric_finish ns v :
  notice_parametric (DefineOperator_finish svc ns v).
Proof.
  unfold DefineOperator_finish.
  apply notice_parametric_bind;
    [apply read_only_catalog_preserving, read_only_types | intros ty].
  apply notice_parametric_bind;
    [apply read_only_catalog_preserving, read_only_function | intros f].
  apply notice_parametric_bind;
    [apply read_only_catalog_preserving, read_only_restriction | intros r].
  apply notice_parametric_bind;
    [apply read_only_catalog_preserving, read_only_join | intros j].
  apply notice_parametric_OperatorCreate.
Qed.

(** The checks that precede [OperatorCreate], returning its arguments. *)
Lemma finish_cases ns v s :
  (exists e, DefineOperator_finish svc ns v s = (inl e, s))
  \/ (exists a, DefineOperator_finish svc ns v s = call_OperatorCreate svc a s).
Proof.
  unfold DefineOperator_finish, Cmd.bind.
  destruct (DefineOperator_types svc v s) as [[e | ty] s1] eqn:E1;
    apply read_only_run in E1 as ->; try apply read_only_types;
    [left; eauto |].
  destruct (DefineOperator_function svc v (fst ty) (snd ty) s)
    as [[e | f] s1] eqn:E2;
    apply read_only_run in E2 as ->; try apply read_only_function;
    [left; eauto |].
  destruct (DefineOperator_restriction svc v s) as [[e | r] s1] eqn:E3;
    apply read_only_run in E3 as ->; try apply read_only_restriction;
    [left; eauto |].
  destruct (DefineOperator_join svc v s) as [[e | j] s1] eqn:E4;
    apply read_only_run in E4 as ->; try apply read_only_join;
    [left; eauto |].
  right. eauto.
Qed.

(** How a run of [DefineOperator] decomposes along its first two steps. *)
Lemma DefineOperator_aborts_namespace names parameters s e s' :
  DefineOperator_namespace svc names s = (inl e, s') ->
  DefineOperator svc names parameters s = (inl e, s').
Proof. intros H. rewrite DefineOperator_unfold. now apply bind_inl. Qed.

Lemma DefineOperator_aborts_parameters names parameters s ns e s1 :
  DefineOperator_namespace svc names s = (inr ns, s) ->
  DefineOperator_parameters svc parameters s = (inl e, s1) ->
  DefineOperator svc names parameters s = (inl e, s1).
Proof.
  intros H0 H1. rewrite DefineOperator_unfold.
  rewrite (bind_inr _ _ _ _ _ H0). now apply bind_inl.
Qed.

Lemma DefineOperator_continues names parameters s ns v s1 :
  DefineOperator_namespace svc names s = (inr ns, s) ->
  DefineOperator_parameters svc parameters s = (inr v, s1) ->
  DefineOperator svc names parameters s = DefineOperator_finish svc ns v s1.
Proof.
  intros H0 H1. rewrite DefineOperator_unfold.
  rewrite (bind_inr _ _ _ _ _ H0). now apply bind_inr.
Qed.

(** ** What the parameter loop assigns *)

Ltac param_cases :=
  unfold DefineOperator_param;
  repeat match goal with
         | |- context [if defname_is svc ?d ?n then _ else _] =>
             let E := fresh "E" in destruct (defname_is svc d n) eqn:E
         end;
  unfold Cmd.bind, Cmd.lookup, Cmd.when, Cmd.ret, ereport_ERROR,
    ereport_WARNING, Cmd.raise;
  repeat match goal with
         | |- context [defGetTypeName svc ?d] =>
             destruct (defGetTypeName svc d) as [? | []]
         | |- context [defGetQualifiedName svc ?d] =>
             destruct (defGetQualifiedName svc d)
         | |- context [defGetBoolean svc ?d] =>
             destruct (defGetBoolean svc d)
         | |- context [if ?b then _ else _] => destruct b
         end.

Lemma param_keeps_functionName d v s v' s' :
  defname_is svc d "procedure" = false ->
  DefineOperator_param svc d v s = (inr v', s') ->
  functionName v' = functionName v.
Proof.
  intros Hd. param_cases; intros H; inversion H; subst; try reflexivity;
    congruence.
Qed.

Lemma param_keeps_typeNames d v s v' s' :
  defname_is svc d "leftarg" = false ->
  defname_is svc d "rightarg" = false ->
  DefineOperator_param svc d v s = (inr v', s') ->
  typeName1 v' = typeName1 v /\ typeName2 v' = typeName2 v.
Proof.
  intros Hl Hr. param_cases; intros H; inversion H; subst;
    try (split; reflexivity); congruence.
Qed.

(** An invariant of the loop variables that every iteration keeps is kept
    by the loop. *)
Lemma foreach_invariant {A V} (body : A -> V -> cmd V) (P : A -> Prop)
    (I : V -> Prop) l :
  (forall x v s v' s', P x -> I v -> body x v s = (inr v', s') -> I v') ->
  Forall P l ->
  forall v s v' s',
    I v -> Cmd.foreach l body v s = (inr v', s') -> I v'.
Proof.
  intros Hbody HP. induction HP as [| x l Hx HP IH]; intros v s v' s' Hv; simpl.
  - intros H. inversion H. now subst.
  - unfold Cmd.bind. destruct (body x v s) as [[e | v1] s1] eqn:E.
    + discriminate.
    + apply IH. eapply Hbody; eassumption.
Qed.

Lemma names_attribute_false name parameters :
  names_attribute svc name parameters = false ->
  Forall (fun d => defname_is svc d name = false) parameters.
Proof.
  unfold names_attribute. induction parameters as [| d l IH]; simpl.
  - constructor.
  - intros H. apply orb_false_iff in H as [H1 H2]. constructor; auto.
Qed.

Lemma parameters_no_procedure parameters s v s1 :
  names_attribute svc "procedure" parameters = false ->
  DefineOperator_parameters svc parameters s = (inr v, s1) ->
  functionName v = [].
Proof.
  intros Hn Hrun.
  eapply (foreach_invariant (DefineOperator_param svc)
            (fun d => defname_is svc d "procedure" = false)
            (fun v => functionName v = [])); try eassumption.
  - intros x v0 s0 v' s' Hx Hv Hb.
    rewrite (param_keeps_functionName _ _ _ _ _ Hx Hb). exact Hv.
  - now apply names_attribute_false.
  - reflexivity.
Qed.

Lemma parameters_no_operand_types parameters s v s1 :
  names_attribute svc "leftarg" parameters = false ->
  names_attribute svc "rightarg" parameters = false ->
  DefineOperator_parameters svc parameters s = (inr v, s1) ->
  typeName1 v = None /\ typeName2 v = None.
Proof.
  intros Hl Hr Hrun.
  eapply (foreach_invariant (DefineOperator_param svc)
            (fun d => defname_is svc d "leftarg" = false
                      /\ defname_is svc d "rightarg" = false)
            (fun v => typeName1 v = None /\ typeName2 v = None));
    try eassumption.
  - intros x v0 s0 v' s' [Hx1 Hx2] [Hv1 Hv2] Hb.
    destruct (param_keeps_typeNames _ _ _ _ _ Hx1 Hx2 Hb) as [-> ->].
    now split.
  - apply names_attribute_false in Hl, Hr.
    rewrite Forall_forall in *. intros d Hd. split; auto.
  - now split.
Qed.

Lemma typeIds_no_procedure v s :
  functionName v = [] ->
  DefineOperator_typeIds svc v s = (inl procedure_error, s).
Proof.
  intros H. unfold DefineOperator_typeIds. rewrite H. reflexivity.
Qed.

Lemma typeIds_no_operand_types v s :
  functionName v <> [] -> typeName1 v = None -> typeName2 v = None ->
  DefineOperator_typeIds svc v s = (inl operand_error, s).
Proof.
  intros Hf H1 H2. unfold DefineOperator_typeIds. rewrite H1, H2.
  destruct (functionName v); [congruence |]. reflexivity.
Qed.

Lemma finish_aborts_typeIds ns v s e :
  DefineOperator_typeIds svc v s = (inl e, s) ->
  DefineOperator_finish svc ns v s = (inl e, s).
Proof.
  intros H. unfold DefineOperator_finish. apply bind_inl.
  unfold DefineOperator_types. now apply bind_inl.
Qed.

(** ** The first failing step decides the outcome *)

Lemma finish_aborts_types ns v s e :
  DefineOperator_types svc v s = (inl e, s) ->
  DefineOperator_finish svc ns v s = (inl e, s).
Proof. intros H. unfold DefineOperator_finish. now apply bind_inl. Qed.

Lemma finish_aborts_function ns v s ty e :
  DefineOperator_types svc v s = (inr ty, s) ->
  DefineOperator_function svc v (fst ty) (snd ty) s = (inl e, s) ->
  DefineOperator_finish svc ns v s = (inl e, s).
Proof.
  intros H1 H2. unfold DefineOperator_finish.
  rewrite (bind_inr _ _ _ _ _ H1). now apply bind_inl.
Qed.

Lemma finish_aborts_restriction ns v s ty f e :
  DefineOperator_types svc v s = (inr ty, s) ->
  DefineOperator_function svc v (fst ty) (snd ty) s = (inr f, s) ->
  DefineOperator_restriction svc v s = (inl e, s) ->
  DefineOperator_finish svc ns v s = (inl e, s).
Proof.
  intros H1 H2 H3. unfold DefineOperator_finish.
  rewrite (bind_inr _ _ _ _ _ H1), (bind_inr _ _ _ _ _ H2).
  now apply bind_inl.
Qed.

Lemma finish_aborts_join ns v s ty f r e :
  DefineOperator_types svc v s = (inr ty, s) ->
  DefineOperator_function svc v (fst ty) (snd ty) s = (inr f, s) ->
  DefineOperator_restriction svc v s = (inr r, s) ->
  DefineOperator_join svc v s = (inl e, s) ->
  DefineOperator_finish svc ns v s = (inl e, s).
Proof.
  intros H1 H2 H3 H4. unfold DefineOperator_finish.
  rewrite (bind_inr _ _ _ _ _ H1), (bind_inr _ _ _ _ _ H2),
    (bind_inr _ _ _ _ _ H3).
  now apply bind_inl.
Qed.

Lemma types_aborts_left_usage v s ty e :
  DefineOperator_typeIds svc v s = (inr ty, s) ->
  DefineOperator_type_usage svc (typeName1 v) (fst ty) s = (inl e, s) ->
  DefineOperator_types svc v s = (inl e, s).
Proof.
  intros H1 H2. unfold DefineOperator_types.
  rewrite (bind_inr _ _ _ _ _ H1). now apply bind_inl.
Qed.

Lemma types_aborts_right_usage v s ty e :
  DefineOperator_typeIds svc v s = (inr ty, s) ->
  DefineOperator_type_usage svc (typeName1 v) (fst ty) s = (inr tt, s) ->
  DefineOperator_type_usage svc (typeName2 v) (snd ty) s = (inl e, s) ->
  DefineOperator_types svc v s = (inl e, s).
Proof.
  intros H1 H2 H3. unfold DefineOperator_types.
  rewrite (bind_inr _ _ _ _ _ H1), (bind_inr _ _ _ _ _ H2).
  now apply bind_inl.
Qed.

Lemma function_aborts_execute v t1 t2 s f e :
  DefineOperator_lookup_function svc v t1 t2 s = (inr f, s) ->
  require_execute svc f (functionName v) s = (inl e, s) ->
  DefineOperator_function svc v t1 t2 s = (inl e, s).
Proof.
  intros H1 H2. unfold DefineOperator_function.
  rewrite (bind_inr _ _ _ _ _ H1). now apply bind_inl.
Qed.

Lemma function_aborts_rettype v t1 t2 s f e :
  DefineOperator_lookup_function svc v t1 t2 s = (inr f, s) ->
  require_execute svc f (functionName v) s = (inr tt, s) ->
  DefineOperator_rettype_usage svc f s = (inl e, s) ->
  DefineOperator_function svc v t1 t2 s = (inl e, s).
Proof.
  intros H1 H2 H3. unfold DefineOperator_function.
  rewrite (bind_inr _ _ _ _ _ H1), (bind_inr _ _ _ _ _ H2).
  now apply bind_inl.
Qed.

Lemma is_NIL_false {A} (l : list A) : l <> [] -> is_NIL l = false.
Proof. destruct l; [congruence | reflexivity]. Qed.

Lemma restriction_aborts_float8 v s r e :
  restrictionName v <> [] ->
  DefineOperator_lookup_restriction svc v s = (inr r, s) ->
  require_float8 svc "restriction" r (restrictionName v) s = (inl e, s) ->
  DefineOperator_restriction svc v s = (inl e, s).
Proof.
  intros H0 H1 H2. unfold DefineOperator_restriction.
  rewrite (is_NIL_false _ H0). simpl.
  rewrite (bind_inr _ _ _ _ _ H1). now apply bind_inl.
Qed.

Lemma restriction_aborts_execute v s r e :
  restrictionName v <> [] ->
  DefineOperator_lookup_restriction svc v s = (inr r, s) ->
  require_float8 svc "restriction" r (restrictionName v) s = (inr tt, s) ->
  require_execute svc r (restrictionName v) s = (inl e, s) ->
  DefineOperator_restriction svc v s = (inl e, s).
Proof.
  intros H0 H1 H2 H3. unfold DefineOperator_restriction.
  rewrite (is_NIL_false _ H0). simpl.
  rewrite (bind_inr _ _ _ _ _ H1), (bind_inr _ _ _ _ _ H2).
  now apply bind_inl.
Qed.

Lemma join_aborts_float8 v s j e :
  joinName v <> [] ->
  DefineOperator_lookup_join svc v s = (inr j, s) ->
  require_float8 svc "join" j (joinName v) s = (inl e, s) ->
  DefineOperator_join svc v s = (inl e, s).
Proof.
  intros H0 H1 H2. unfold DefineOperator_join.
  rewrite (is_NIL_false _ H0). simpl.
  rewrite (bind_inr _ _ _ _ _ H1). now apply bind_inl.
Qed.

Lemma join_aborts_execute v s j e :
  joinName v <> [] ->
  DefineOperator_lookup_join svc v s = (inr j, s) ->
  require_float8 svc "join" j (joinName v) s = (inr tt, s) ->
  require_execute svc j (joinName v) s = (inl e, s) ->
  DefineOperator_join svc v s = (inl e, s).
Proof.
  intros H0 H1 H2 H3. unfold DefineOperator_join.
  rewrite (is_NIL_false _ H0). simpl.
  rewrite (bind_inr _ _ _ _ _ H1), (bind_inr _ _ _ _ _ H2).
  now apply bind_inl.
Qed.

(** ** The single checks *)

Lemma require_float8_mismatch what oid name s rettype :
  get_func_rettype svc (catalog s) oid = inr rettype ->
  rettype <> FLOAT8OID svc ->
  require_float8 svc what oid name s
  = (inl (mkErrorData ERROR ERRCODE_INVALID_OBJECT_DEFINITION
            (estimator_message svc what name)), s).
Proof.
  intros H Hne. unfold require_float8, Cmd.bind, with_catalog, Cmd.lookup.
  rewrite H. apply Z.eqb_neq in Hne. rewrite Hne. reflexivity.
Qed.

Lemma acl_failed_true a : a <> ACLCHECK_OK -> acl_failed a = true.
Proof. intros H. unfold acl_failed. now rewrite bool_decide_eq_false_2. Qed.

Lemma aclcheck_error_denied a k n s :
  a <> ACLCHECK_OK ->
  exists e, aclcheck_error a k n s = (inl e, s)
            /\ is_authorization_error e = true.
Proof. intros H. destruct a; [congruence | |]; eexists; split; reflexivity. Qed.

Lemma aclcheck_error_type_denied a o s :
  a <> ACLCHECK_OK ->
  exists e, aclcheck_error_type svc a o s = (inl e, s)
            /\ is_authorization_error e = true.
Proof.
  intros H. unfold aclcheck_error_type, Cmd.bind, from_catalog, Cmd.read.
  now apply aclcheck_error_denied.
Qed.

Lemma namespace_denied names s ns :
  QualifiedNameGetCreationNamespace svc (catalog s) names = inr ns ->
  pg_namespace_aclcheck svc (catalog s) (fst ns) (GetUserId svc) ACL_CREATE
    <> ACLCHECK_OK ->
  exists e, DefineOperator_namespace svc names s = (inl e, s)
            /\ is_authorization_error e = true.
Proof.
  intros H Hacl.
  unfold DefineOperator_namespace, Cmd.bind, with_catalog, from_catalog,
    Cmd.lookup, Cmd.read.
  rewrite H, (acl_failed_true _ Hacl). simpl.
  destruct (aclcheck_error_denied _ ACL_KIND_NAMESPACE
              (get_namespace_name svc (catalog s) (fst ns)) s Hacl)
    as (e & He & Hauth).
  exists e. now rewrite He.
Qed.

Lemma type_usage_denied t o s :
  pg_type_aclcheck svc (catalog s) o (GetUserId svc) ACL_USAGE
    <> ACLCHECK_OK ->
  exists e, DefineOperator_type_usage svc (Some t) o s = (inl e, s)
            /\ is_authorization_error e = true.
Proof.
  intros Hacl.
  unfold DefineOperator_type_usage, Cmd.bind, from_catalog, Cmd.read.
  rewrite (acl_failed_true _ Hacl). simpl.
  now apply aclcheck_error_type_denied.
Qed.

Lemma require_execute_denied oid name s :
  pg_proc_aclcheck svc (catalog s) oid (GetUserId svc) ACL_EXECUTE
    <> ACLCHECK_OK ->
  exists e, require_execute svc oid name s = (inl e, s)
            /\ is_authorization_error e = true.
Proof.
  intros Hacl. unfold require_execute, Cmd.bind, from_catalog, Cmd.read.
  rewrite (acl_failed_true _ Hacl). simpl.
  now apply aclcheck_error_denied.
Qed.

Lemma rettype_usage_denied f s rettype :
  get_func_rettype svc (catalog s) f = inr rettype ->
  pg_type_aclcheck svc (catalog s) rettype (GetUserId svc) ACL_USAGE
    <> ACLCHECK_OK ->
  exists e, DefineOperator_rettype_usage svc f s = (inl e, s)
            /\ is_authorization_error e = true.
Proof.
  intros H Hacl.
  unfold DefineOperator_rettype_usage, Cmd.bind, with_catalog, from_catalog,
    Cmd.lookup, Cmd.read.
  rewrite H, (acl_failed_true _ Hacl). simpl.
  now apply aclcheck_error_type_denied.
Qed.

(** ** What a passed step establishes *)

Lemma bind_inr_inv {A B} (c : cmd A) (k : A -> cmd B) s b s' :
  Cmd.bind c k s = (inr b, s') ->
  exists a s1, c s = (inr a, s1) /\ k a s1 = (inr b, s').
Proof.
  unfold Cmd.bind. destruct (c s) as [[e | a] s1]; [discriminate | eauto].
Qed.

Lemma when_acl_passes a (c : cmd unit) s u s' :
  (a <> ACLCHECK_OK -> exists e, c s = (inl e, s)) ->
  Cmd.when (acl_failed a) c s = (inr u, s') -> a = ACLCHECK_OK.
Proof.
  intros Hc H. destruct (decide (a = ACLCHECK_OK)) as [| Hne]; [assumption |].
  rewrite (acl_failed_true _ Hne) in H. simpl in H.
  destruct (Hc Hne) as [e He]. congruence.
Qed.

Lemma namespace_passes names s ns s' :
  DefineOperator_namespace svc names s = (inr ns, s') ->
  QualifiedNameGetCreationNamespace svc (catalog s) names = inr ns
  /\ pg_namespace_aclcheck svc (catalog s) (fst ns) (GetUserId svc) ACL_CREATE
     = ACLCHECK_OK.
Proof.
  unfold DefineOperator_namespace. intros H.
  apply bind_inr_inv in H as (ns0 & s0 & Hq & H).
  unfold with_catalog, Cmd.lookup in Hq. injection Hq as Hq <-.
  apply bind_inr_inv in H as (a & s0 & Ha & H).
  unfold from_catalog, Cmd.read in Ha. injection Ha as <- <-.
  apply bind_inr_inv in H as (u & s0 & Hw & H).
  injection H as <- <-. destruct ns0 as [oprNamespace oprName].
  split; [exact Hq |].
  eapply when_acl_passes; [| exact Hw].
  intros Hne. unfold Cmd.bind, from_catalog, Cmd.read.
  destruct (aclcheck_error_denied _ ACL_KIND_NAMESPACE
              (get_namespace_name svc (catalog s) oprNamespace) s Hne)
    as (e & He & _).
  eauto.
Qed.

Lemma type_usage_passes t o s u s' :
  DefineOperator_type_usage svc (Some t) o s = (inr u, s') ->
  pg_type_aclcheck svc (catalog s) o (GetUserId svc) ACL_USAGE = ACLCHECK_OK.
Proof.
  unfold DefineOperator_type_usage. intros H.
  apply bind_inr_inv in H as (a & s0 & Ha & H).
  unfold from_catalog, Cmd.read in Ha. injection Ha as <- <-.
  eapply when_acl_passes; [| exact H].
  intros Hne.
  destruct (aclcheck_error_type_denied _ o s Hne) as (e & He & _). eauto.
Qed.

Lemma require_execute_passes oid name s u s' :
  require_execute svc oid name s = (inr u, s') ->
  pg_proc_aclcheck svc (catalog s) oid (GetUserId svc) ACL_EXECUTE
  = ACLCHECK_OK.
Proof.
  unfold require_execute. intros H.
  apply bind_inr_inv in H as (a & s0 & Ha & H).
  unfold from_catalog, Cmd.read in Ha. injection Ha as <- <-.
  eapply when_acl_passes; [| exact H].
  intros Hne.
  destruct (aclcheck_error_denied _ ACL_KIND_PROC (NameListToString svc name)
              s Hne) as (e & He & _).
  eauto.
Qed.

Lemma rettype_usage_passes f s u s' :
  DefineOperator_rettype_usage svc f s = (inr u, s') ->
  exists rettype,
    get_func_rettype svc (catalog s) f = inr rettype
    /\ pg_type_aclcheck svc (catalog s) rettype (GetUserId svc) ACL_USAGE
       = ACLCHECK_OK.
Proof.
  unfold DefineOperator_rettype_usage. intros H.
  apply bind_inr_inv in H as (rettype & s0 & Hr & H).
  unfold with_catalog, Cmd.lookup in Hr. injection Hr as Hr <-.
  apply bind_inr_inv in H as (a & s0 & Ha & H).
  unfold from_catalog, Cmd.read in Ha. injection Ha as <- <-.
  exists rettype. split; [exact Hr |].
  eapply when_acl_passes; [| exact H].
  intros Hne.
  destruct (aclcheck_error_type_denied _ rettype s Hne) as (e & He & _).
  eauto.
Qed.

Lemma require_float8_passes what oid name s u s' :
  require_float8 svc what oid name s = (inr u, s') ->
  get_func_rettype svc (catalog s) oid = inr (FLOAT8OID svc).
Proof.
  unfold require_float8. intros H.
  apply bind_inr_inv in H as (rettype & s0 & Hr & H).
  unfold with_catalog, Cmd.lookup in Hr. injection Hr as Hr <-.
  destruct (rettype =? FLOAT8OID svc) eqn:E; simpl in H; [| discriminate].
  apply Z.eqb_eq in E. now rewrite Hr, E.
Qed.

Lemma typeIds_passes v s ty s' :
  DefineOperator_typeIds svc v s = (inr ty, s') ->
  functionName v <> []
  /\ DefineOperator_typeId svc (typeName1 v) s = (inr (fst ty), s)
  /\ DefineOperator_typeId svc (typeName2 v) s = (inr (snd ty), s).
Proof.
  unfold DefineOperator_typeIds. intros H.
  apply bind_inr_inv in H as (u & s0 & Hf & H).
  assert (Hname : functionName v <> []).
  { intros E. rewrite E in Hf. discriminate. }
  rewrite (is_NIL_false _ Hname) in Hf. injection Hf as <- <-.
  apply bind_inr_inv in H as (t1 & s0 & H1 & H).
  pose proof (read_only_run _ _ _ _ (read_only_typeId (typeName1 v)) H1);
    subst s0.
  apply bind_inr_inv in H as (t2 & s0 & H2 & H).
  pose proof (read_only_run _ _ _ _ (read_only_typeId (typeName2 v)) H2);
    subst s0.
  apply bind_inr_inv in H as (u2 & s0 & _ & H).
  injection H as <- <-. auto.
Qed.

Lemma typeId_specified t s o :
  typenameTypeId svc (catalog s) t = inr o ->
  DefineOperator_typeId svc (Some t) s = (inr o, s).
Proof.
  intros H. unfold DefineOperator_typeId, with_catalog, Cmd.lookup.
  now rewrite H.
Qed.

Lemma types_passes v s ty s' :
  DefineOperator_types svc v s = (inr ty, s') ->
  DefineOperator_typeIds svc v s = (inr ty, s)
  /\ (forall t, typeName1 v = Some t ->
        pg_type_aclcheck svc (catalog s) (fst ty) (GetUserId svc) ACL_USAGE
        = ACLCHECK_OK)
  /\ (forall t, typeName2 v = Some t ->
        pg_type_aclcheck svc (catalog s) (snd ty) (GetUserId svc) ACL_USAGE
        = ACLCHECK_OK).
Proof.
  unfold DefineOperator_types. intros H.
  apply bind_inr_inv in H as (ty0 & s0 & Hids & H).
  pose proof (read_only_run _ _ _ _ (read_only_typeIds v) Hids); subst s0.
  apply bind_inr_inv in H as (u1 & s0 & H1 & H).
  pose proof (read_only_run _ _ _ _
                (read_only_type_usage (typeName1 v) (fst ty0)) H1);
    subst s0.
  apply bind_inr_inv in H as (u2 & s0 & H2 & H).
  pose proof (read_only_run _ _ _ _
                (read_only_type_usage (typeName2 v) (snd ty0)) H2);
    subst s0.
  injection H as <- <-. split; [exact Hids |]. split.
  - intros t Ht. rewrite Ht in H1. eapply type_usage_passes; eassumption.
  - intros t Ht. rewrite Ht in H2. eapply type_usage_passes; eassumption.
Qed.

Lemma function_passes v t1 t2 s f s' :
  DefineOperator_function svc v t1 t2 s = (inr f, s') ->
  DefineOperator_lookup_function svc v t1 t2 s = (inr f, s)
  /\ pg_proc_aclcheck svc (catalog s) f (GetUserId svc) ACL_EXECUTE
     = ACLCHECK_OK
  /\ exists rettype,
       get_func_rettype svc (catalog s) f = inr rettype
       /\ pg_type_aclcheck svc (catalog s) rettype (GetUserId svc) ACL_USAGE
          = ACLCHECK_OK.
Proof.
  unfold DefineOperator_function. intros H.
  apply bind_inr_inv in H as (f0 & s0 & Hl & H).
  pose proof (read_only_run _ _ _ _ (read_only_lookup_function v t1 t2) Hl);
    subst s0.
  apply bind_inr_inv in H as (u1 & s0 & H1 & H).
  pose proof (read_only_run _ _ _ _
                (read_only_require_execute f0 (functionName v)) H1);
    subst s0.
  apply bind_inr_inv in H as (u2 & s0 & H2 & H).
  injection H as <- <-. split; [exact Hl |]. split.
  - eapply require_execute_passes; eassumption.
  - eapply rettype_usage_passes; eassumption.
Qed.

Lemma restriction_passes v s r s' :
  restrictionName v <> [] ->
  DefineOperator_restriction svc v s = (inr r, s') ->
  DefineOperator_lookup_restriction svc v s = (inr r, s)
  /\ get_func_rettype svc (catalog s) r = inr (FLOAT8OID svc)
  /\ pg_proc_aclcheck svc (catalog s) r (GetUserId svc) ACL_EXECUTE
     = ACLCHECK_OK.
Proof.
  intros Hname. unfold DefineOperator_restriction.
  rewrite (is_NIL_false _ Hname). simpl. intros H.
  apply bind_inr_inv in H as (r0 & s0 & Hl & H).
  pose proof (read_only_run _ _ _ _ (read_only_lookup_restriction v) Hl);
    subst s0.
  apply bind_inr_inv in H as (u1 & s0 & H1 & H).
  pose proof (read_only_run _ _ _ _
                (read_only_require_float8 "restriction" r0
                   (restrictionName v)) H1);
    subst s0.
  apply bind_inr_inv in H as (u2 & s0 & H2 & H).
  injection H as <- <-. split; [exact Hl |]. split.
  - eapply require_float8_passes; eassumption.
  - eapply require_execute_passes; eassumption.
Qed.

Lemma join_passes v s j s' :
  joinName v <> [] ->
  DefineOperator_join svc v s = (inr j, s') ->
  DefineOperator_lookup_join svc v s = (inr j, s)
  /\ get_func_rettype svc (catalog s) j = inr (FLOAT8OID svc)
  /\ pg_proc_aclcheck svc (catalog s) j (GetUserId svc) ACL_EXECUTE
     = ACLCHECK_OK.
Proof.
  intros Hname. unfold DefineOperator_join.
  rewrite (is_NIL_false _ Hname). simpl. intros H.
  apply bind_inr_inv in H as (j0 & s0 & Hl & H).
  pose proof (read_only_run _ _ _ _ (read_only_lookup_join v) Hl);
    subst s0.
  apply bind_inr_inv in H as (u1 & s0 & H1 & H).
  pose proof (read_only_run _ _ _ _
                (read_only_require_float8 "join" j0 (joinName v)) H1);
    subst s0.
  apply bind_inr_inv in H as (u2 & s0 & H2 & H).
  injection H as <- <-. split; [exact Hl |]. split.
  - eapply require_float8_passes; eassumption.
  - eapply require_execute_passes; eassumption.
Qed.

(** Every run of the command either aborts before [OperatorCreate], the
    catalog being the one it started from, or passes every step. *)
Lemma DefineOperator_aborts_or_passes names parameters s :
  (exists e s', DefineOperator svc names parameters s = (inl e, s')
                /\ catalog s' = catalog s)
  \/ (exists ns v s1 ty f r j,
        catalog s1 = catalog s
        /\ DefineOperator_namespace svc names s = (inr ns, s)
        /\ DefineOperator_parameters svc parameters s = (inr v, s1)
        /\ DefineOperator_types svc v s1 = (inr ty, s1)
        /\ DefineOperator_function svc v (fst ty) (snd ty) s1 = (inr f, s1)
        /\ DefineOperator_restriction svc v s1 = (inr r, s1)
        /\ DefineOperator_join svc v s1 = (inr j, s1)).
Proof.
  destruct (DefineOperator_namespace svc names s) as [[e | ns] s0] eqn:E0;
    pose proof (read_only_run _ _ _ _ (read_only_namespace names) E0);
    subst s0.
  { left. exists e, s. split; [| reflexivity].
    eapply DefineOperator_aborts_namespace; eassumption. }
  pose proof (catalog_preserving_state
                (DefineOperator_parameters svc parameters) s
                (catalog_preserving_parameters parameters)) as Hcat.
  destruct (DefineOperator_parameters svc parameters s) as [[e | v] s1] eqn:E1;
    simpl in Hcat.
  { left. exists e, s1. split; [| exact Hcat].
    eapply DefineOperator_aborts_parameters; eassumption. }
  rewrite (DefineOperator_continues _ _ _ _ _ _ E0 E1).
  destruct (DefineOperator_types svc v s1) as [[e | ty] s2] eqn:E2;
    pose proof (read_only_run _ _ _ _ (read_only_types v) E2); subst s2.
  { left. exists e, s1. split; [| exact Hcat].
    now apply finish_aborts_types. }
  destruct (DefineOperator_function svc v (fst ty) (snd ty) s1)
    as [[e | f] s2] eqn:E3;
    pose proof (read_only_run _ _ _ _
                  (read_only_function v (fst ty) (snd ty)) E3); subst s2.
  { left. exists e, s1. split; [| exact Hcat].
    eapply finish_aborts_function; eassumption. }
  destruct (DefineOperator_restriction svc v s1) as [[e | r] s2] eqn:E4;
    pose proof (read_only_run _ _ _ _ (read_only_restriction v) E4);
    subst s2.
  { left. exists e, s1. split; [| exact Hcat].
    eapply finish_aborts_restriction; eassumption. }
  destruct (DefineOperator_join svc v s1) as [[e | j] s2] eqn:E5;
    pose proof (read_only_run _ _ _ _ (read_only_join v) E5); subst s2.
  { left. exists e, s1. split; [| exact Hcat].
    eapply finish_aborts_join; eassumption. }
  right. exists ns, v, s1, ty, f, r, j. auto 10.
Qed.

End DefineOperator_effects.

Section DefineOperator_failures.
Context {Catalog : Type} (svc : Services Catalog).
Abbreviation cmd := (Cmd.t (Backend Catalog)).
Hypothesis Hsvc : Services_raise_errors svc.

Lemma errors_ret {A} (a : A) : aborts_with_errors (Cmd.ret a : cmd A).
Proof. intros s e s'. discriminate. Qed.

Lemma errors_read {A} (f : Backend Catalog -> A) :
  aborts_with_errors (Cmd.read f).
Proof. intros s e s'. discriminate. Qed.

Lemma errors_lookup {A} (f : Backend Catalog -> res A) :
  (forall s, raises_errors (f s)) -> aborts_with_errors (Cmd.lookup f).
Proof.
  intros H s e s' E. unfold Cmd.lookup in E. injection E as E _.
  now apply (H s).
Qed.

Lemma errors_ereport_ERROR {A} code msg :
  aborts_with_errors (ereport_ERROR code msg : cmd A).
Proof. intros s e s' E. injection E as <- _. reflexivity. Qed.

Lemma errors_ereport_WARNING code msg :
  aborts_with_errors (ereport_WARNING (Catalog := Catalog) code msg).
Proof. intros s e s'. discriminate. Qed.

Lemma errors_bind {A B} (c : cmd A) (k : A -> cmd B) :
  aborts_with_errors c -> (forall a, aborts_with_errors (k a)) ->
  aborts_with_errors (Cmd.bind c k).
Proof.
  intros Hc Hk s e s'. unfold Cmd.bind.
  destruct (c s) as [[e0 | a] s0] eqn:E.
  - intros H. injection H as <- _. eapply Hc; eassumption.
  - apply Hk.
Qed.

Lemma errors_when (b : bool) (c : cmd unit) :
  aborts_with_errors c -> aborts_with_errors (Cmd.when b c).
Proof. intros H. destruct b; [exact H | apply errors_ret]. Qed.

Lemma errors_foreach {A V} (body : A -> V -> cmd V) l :
  (forall x v, aborts_with_errors (body x v)) ->
  forall v, aborts_with_errors (Cmd.foreach l body v).
Proof.
  intros H. induction l as [| x l IH]; intros v; simpl.
  - apply errors_ret.
  - apply errors_bind; [apply H | exact IH].
Qed.

Lemma errors_aclcheck_error a k n :
  aborts_with_errors (aclcheck_error a k n : cmd unit).
Proof. destruct a; intros s e s' E; [discriminate | |]; now injection E as <- _. Qed.

Create HintDb errors.
Hint Resolve errors_ret errors_read errors_ereport_ERROR
  errors_ereport_WARNING errors_when errors_aclcheck_error : errors.

Ltac errors :=
  repeat first
    [ solve [auto with errors]
    | apply errors_bind; [| intros ?]
    | apply errors_lookup; intros ?; apply Hsvc
    | apply errors_when
    | apply errors_read ].

Lemma errors_aclcheck_error_type a o :
  aborts_with_errors (aclcheck_error_type svc a o).
Proof. unfold aclcheck_error_type, from_catalog. errors. Qed.
Hint Resolve errors_aclcheck_error_type : errors.

Lemma errors_require_execute o n : aborts_with_errors (require_execute svc o n).
Proof. unfold require_execute, from_catalog. errors. Qed.

Lemma errors_require_float8 w o n :
  aborts_with_errors (require_float8 svc w o n).
Proof. unfold require_float8, with_catalog. errors. Qed.

Lemma errors_lookup_func f n t b : aborts_with_errors (lookup_func svc f n t b).
Proof. unfold lookup_func, with_catalog. errors. Qed.
Hint Resolve errors_require_execute errors_require_float8 errors_lookup_func
  : errors.

Lemma errors_namespace names :
  aborts_with_errors (DefineOperator_namespace svc names).
Proof. unfold DefineOperator_namespace, with_catalog, from_catalog. errors. Qed.

Lemma errors_param d v : aborts_with_errors (DefineOperator_param svc d v).
Proof.
  unfold DefineOperator_param.
  repeat match goal with
         | |- aborts_with_errors (if ?b then _ else _) => destruct b
         end; errors.
Qed.

Lemma errors_parameters l :
  aborts_with_errors (DefineOperator_parameters svc l).
Proof. apply errors_foreach, errors_param. Qed.

Lemma errors_typeId t : aborts_with_errors (DefineOperator_typeId svc t).
Proof. destruct t; simpl; unfold with_catalog; errors. Qed.

Lemma errors_type_usage t o :
  aborts_with_errors (DefineOperator_type_usage svc t o).
Proof. destruct t; simpl; unfold from_catalog; errors. Qed.
Hint Resolve errors_typeId errors_type_usage : errors.

Lemma errors_types v : aborts_with_errors (DefineOperator_types svc v).
Proof. unfold DefineOperator_types, DefineOperator_typeIds. errors. Qed.

Lemma errors_function v t1 t2 :
  aborts_with_errors (DefineOperator_function svc v t1 t2).
Proof.
  unfold DefineOperator_function, DefineOperator_lookup_function,
    DefineOperator_rettype_usage, with_catalog, from_catalog.
  errors.
Qed.

Lemma errors_restriction v :
  aborts_with_errors (DefineOperator_restriction svc v).
Proof.
  unfold DefineOperator_restriction, DefineOperator_lookup_restriction.
  destruct (negb (is_NIL (restrictionName v))); errors.
Qed.

Lemma errors_join v : aborts_with_errors (DefineOperator_join svc v).
Proof.
  unfold DefineOperator_join, DefineOperator_lookup_join.
  destruct (negb (is_NIL (joinName v))); errors;
    repeat match goal with
           | |- aborts_with_errors (if ?b then _ else _) => destruct b
           end;
    errors.
Qed.

Lemma errors_call_OperatorCreate a :
  aborts_with_errors (call_OperatorCreate svc a).
Proof.
  intros s e s' E. unfold call_OperatorCreate in E. injection E as E _.
  destruct Hsvc as (_ & _ & _ & _ & _ & _ & _ & H). eapply H. exact E.
Qed.

Lemma errors_DefineOperator names parameters :
  aborts_with_errors (DefineOperator svc names parameters).
Proof.
  rewrite DefineOperator_unfold.
  apply errors_bind; [apply errors_namespace | intros ns].
  apply errors_bind; [apply errors_parameters | intros v].
  unfold DefineOperator_finish.
  apply errors_bind; [apply errors_types | intros ty].
  apply errors_bind; [apply errors_function | intros functionOid].
  apply errors_bind; [apply errors_restriction | intros restrictionOid].
  apply errors_bind; [apply errors_join | intros joinOid].
  apply errors_call_OperatorCreate.
Qed.
End DefineOperator_failures.

Section DefineOperator_claims.
Context {Catalog : Type} (svc : Services Catalog).
Implicit Types s : Backend Catalog.

(** A run that passes every check ends in the call to [OperatorCreate]. *)
Lemma DefineOperator_passes names parameters s ns v s1 ty f r j :
  checks_pass svc names parameters s ns v s1 ty f r j ->
  DefineOperator svc names parameters s
  = call_OperatorCreate svc (OperatorCreate_arguments ns v ty f r j) s1.
Proof.
  intros (Hns & Hpar & Hty & Hfn & Hres & Hjoin).
  rewrite (DefineOperator_continues svc _ _ _ _ _ _ Hns Hpar).
  unfold DefineOperator_finish.
  rewrite (bind_inr _ _ _ _ _ Hty), (bind_inr _ _ _ _ _ Hfn),
    (bind_inr _ _ _ _ _ Hres), (bind_inr _ _ _ _ _ Hjoin).
  reflexivity.
Qed.

(** ** No partial catalog mutation *)

(** C5. Whatever the arguments and the state, (a) [DefineOperator] either
    aborts with the error raised by one of its checks or lookups, the
    catalog being exactly the one it started from, or all of them pass and
    its outcome is that of the one call to [OperatorCreate], run on the
    unchanged catalog: every check precedes the one step that writes the
    catalog.  (b) When the collaborators raise at level [ERROR], as
    [ereport(ERROR)] does, whatever aborts the command is a report at that
    level, the level of the failures the user sees. *)
Theorem DefineOperator_no_partial_mutation
    (names : list string) (parameters : list DefElem) s :
  (aborts svc names parameters s
   \/ (exists ns v s1 ty functionOid restrictionOid joinOid,
         checks_pass svc names parameters s ns v s1 ty functionOid
           restrictionOid joinOid
         /\ catalog s1 = catalog s
         /\ DefineOperator svc names parameters s
            = call_OperatorCreate svc
                (OperatorCreate_arguments ns v ty functionOid restrictionOid
                   joinOid) s1))
  /\ (Services_raise_errors svc ->
      forall e s',
        DefineOperator svc names parameters s = (inl e, s') ->
        is_user_error e = true).
Proof.
  split.
  - destruct (DefineOperator_aborts_or_passes svc names parameters s)
      as [Hfail | (ns & v & s1 & ty & f & r & j & Hcat & Hns & Hpar & Hty & Hfn
                   & Hres & Hjoin)]; [now left | right].
    assert (Hpass : checks_pass svc names parameters s ns v s1 ty f r j)
      by (unfold checks_pass; auto 10).
    exists ns, v, s1, ty, f, r, j.
    split; [exact Hpass |]. split; [exact Hcat |].
    now apply DefineOperator_passes.
  - intros Hsvc e s' E.
    eapply errors_DefineOperator; eassumption.
Qed.
End DefineOperator_claims.

Section DefineOperator_required.
Context {Catalog : Type} (svc : Services Catalog).
Implicit Types s : Backend Catalog.

(** C6. A required argument is missing.  (a) When no element of the
    definition list names the procedure, the command fails, whatever else
    it is given, and leaves the catalog as it was; the failure is the user
    error "procedure must be specified" as soon as the namespace check and
    the parameter loop pass.  (b) Likewise when no element names a left or
    a right argument type: the command fails, with the user error "at
    least one of leftarg or rightarg must be specified" as soon as the
    steps before that check pass. *)
Theorem DefineOperator_missing_argument
    (names : list string) (parameters : list DefElem) s :
  (names_attribute svc "procedure" parameters = false ->
     (exists e s', DefineOperator svc names parameters s = (inl e, s')
                   /\ catalog s' = catalog s)
     /\ (forall ns v s1,
           DefineOperator_namespace svc names s = (inr ns, s) ->
           DefineOperator_parameters svc parameters s = (inr v, s1) ->
           DefineOperator svc names parameters s = (inl procedure_error, s1)
           /\ is_user_error procedure_error = true))
  /\ (names_attribute svc "leftarg" parameters = false ->
      names_attribute svc "rightarg" parameters = false ->
     (exists e s', DefineOperator svc names parameters s = (inl e, s')
                   /\ catalog s' = catalog s)
     /\ (forall ns v s1,
           DefineOperator_namespace svc names s = (inr ns, s) ->
           DefineOperator_parameters svc parameters s = (inr v, s1) ->
           functionName v <> [] ->
           DefineOperator svc names parameters s = (inl operand_error, s1)
           /\ is_user_error operand_error = true)).
Proof.
  assert (Hcases :
    (exists e s', DefineOperator_namespace svc names s = (inl e, s'))
    \/ (exists ns e s1,
          DefineOperator_namespace svc names s = (inr ns, s)
          /\ DefineOperator_parameters svc parameters s = (inl e, s1))
    \/ (exists ns v s1,
          DefineOperator_namespace svc names s = (inr ns, s)
          /\ DefineOperator_parameters svc parameters s = (inr v, s1))).
  { destruct (DefineOperator_namespace svc names s) as [[e | ns] s0] eqn:E0;
      pose proof (read_only_run _ _ _ _ (read_only_namespace svc names) E0);
      subst s0; [left; eauto |].
    right.
    destruct (DefineOperator_parameters svc parameters s) as [[e | v] s1];
      [left | right]; eauto. }
  assert (Hcat : forall r s1,
            DefineOperator_parameters svc parameters s = (r, s1) ->
            catalog s1 = catalog s).
  { intros r s1 E.
    pose proof (catalog_preserving_state
                  (DefineOperator_parameters svc parameters) s
                  (catalog_preserving_parameters svc parameters)) as H.
    now rewrite E in H. }
  split.
  - intros Hn. split.
    + destruct Hcases as [(e & s' & E0) | [(ns & e & s1 & E0 & E1)
                                          | (ns & v & s1 & E0 & E1)]].
      * pose proof (read_only_run _ _ _ _ (read_only_namespace svc names) E0).
        subst s'. exists e, s. split; [| reflexivity].
        eapply DefineOperator_aborts_namespace; eassumption.
      * exists e, s1. split; [| eapply Hcat; eassumption].
        eapply DefineOperator_aborts_parameters; eassumption.
      * exists procedure_error, s1. split; [| eapply Hcat; eassumption].
        rewrite (DefineOperator_continues svc _ _ _ _ _ _ E0 E1).
        apply finish_aborts_typeIds, typeIds_no_procedure.
        eapply parameters_no_procedure; eassumption.
    + intros ns v s1 E0 E1. split; [| reflexivity].
      rewrite (DefineOperator_continues svc _ _ _ _ _ _ E0 E1).
      apply finish_aborts_typeIds, typeIds_no_procedure.
      eapply parameters_no_procedure; eassumption.
  - intros Hl Hr. split.
    + destruct Hcases as [(e & s' & E0) | [(ns & e & s1 & E0 & E1)
                                          | (ns & v & s1 & E0 & E1)]].
      * pose proof (read_only_run _ _ _ _ (read_only_namespace svc names) E0).
        subst s'. exists e, s. split; [| reflexivity].
        eapply DefineOperator_aborts_namespace; eassumption.
      * exists e, s1. split; [| eapply Hcat; eassumption].
        eapply DefineOperator_aborts_parameters; eassumption.
      * destruct (parameters_no_operand_types svc _ _ _ _ Hl Hr E1)
          as [H1 H2].
        rewrite (DefineOperator_continues svc _ _ _ _ _ _ E0 E1).
        destruct (functionName v) as [| f fs] eqn:Ef.
        -- exists procedure_error, s1. split; [| eapply Hcat; eassumption].
           now apply finish_aborts_typeIds, typeIds_no_procedure.
        -- exists operand_error, s1. split; [| eapply Hcat; eassumption].
           apply finish_aborts_typeIds, typeIds_no_operand_types; auto.
           congruence.
    + intros ns v s1 E0 E1 Hf. split; [| reflexivity].
      destruct (parameters_no_operand_types svc _ _ _ _ Hl Hr E1) as [H1 H2].
      rewrite (DefineOperator_continues svc _ _ _ _ _ _ E0 E1).
      apply finish_aborts_typeIds, typeIds_no_operand_types; auto.
Qed.
End DefineOperator_required.

Section DefineOperator_estimators.
Context {Catalog : Type} (svc : Services Catalog).
Implicit Types s : Backend Catalog.

(** C7. Let the parameter loop leave the variables [v].  (a) If a
    restriction estimator is specified and the function it resolves to
    does not return float8, the command fails and leaves the catalog as it
    was, whatever else it is given; as soon as the steps before the
    estimator pass, the failure is the user error of class
    invalid-object-definition whose message names the estimator.  (b) The
    same for a join estimator, the restriction estimator being one of the
    steps before it. *)
Theorem DefineOperator_estimator_must_return_float8
    (names : list string) (parameters : list DefElem) s v s1
    (Hpar : DefineOperator_parameters svc parameters s = (inr v, s1)) :
  (forall oid rettype,
      restrictionName v <> [] ->
      DefineOperator_lookup_restriction svc v s1 = (inr oid, s1) ->
      get_func_rettype svc (catalog s1) oid = inr rettype ->
      rettype <> FLOAT8OID svc ->
      aborts svc names parameters s
      /\ (forall ns ty functionOid,
            DefineOperator_namespace svc names s = (inr ns, s) ->
            DefineOperator_types svc v s1 = (inr ty, s1) ->
            DefineOperator_function svc v (fst ty) (snd ty) s1
              = (inr functionOid, s1) ->
            let e :=
              mkErrorData ERROR ERRCODE_INVALID_OBJECT_DEFINITION
                ("restriction estimator function "
                   +:+ NameListToString svc (restrictionName v)
                   +:+ " must return type " +:+ dquote +:+ "float8"
                   +:+ dquote) in
            DefineOperator svc names parameters s = (inl e, s1)
            /\ is_user_error e = true))
  /\ (forall oid rettype,
      joinName v <> [] ->
      DefineOperator_lookup_join svc v s1 = (inr oid, s1) ->
      get_func_rettype svc (catalog s1) oid = inr rettype ->
      rettype <> FLOAT8OID svc ->
      aborts svc names parameters s
      /\ (forall ns ty functionOid restrictionOid,
            DefineOperator_namespace svc names s = (inr ns, s) ->
            DefineOperator_types svc v s1 = (inr ty, s1) ->
            DefineOperator_function svc v (fst ty) (snd ty) s1
              = (inr functionOid, s1) ->
            DefineOperator_restriction svc v s1 = (inr restrictionOid, s1) ->
            let e :=
              mkErrorData ERROR ERRCODE_INVALID_OBJECT_DEFINITION
                ("join estimator function "
                   +:+ NameListToString svc (joinName v)
                   +:+ " must return type " +:+ dquote +:+ "float8"
                   +:+ dquote) in
            DefineOperator svc names parameters s = (inl e, s1)
            /\ is_user_error e = true)).
Proof.
  split.
  - intros oid rettype Hname Hlook Hret Hne. split.
    + destruct (DefineOperator_aborts_or_passes svc names parameters s)
        as [Hfail | (ns & v' & s1' & ty & f & r & j & _ & _ & Hpar' & _ & _
                     & Hres & _)]; [exact Hfail | exfalso].
      rewrite Hpar in Hpar'. injection Hpar' as <- <-.
      destruct (restriction_passes svc _ _ _ _ Hname Hres)
        as (Hlook' & Hfloat & _).
      congruence.
    + intros ns ty functionOid Hns Hty Hfn e. split; [| reflexivity].
      rewrite (DefineOperator_continues svc _ _ _ _ _ _ Hns Hpar).
      eapply finish_aborts_restriction; try eassumption.
      eapply restriction_aborts_float8; try eassumption.
      rewrite (require_float8_mismatch svc _ _ _ _ _ Hret Hne). reflexivity.
  - intros oid rettype Hname Hlook Hret Hne. split.
    + destruct (DefineOperator_aborts_or_passes svc names parameters s)
        as [Hfail | (ns & v' & s1' & ty & f & r & j & _ & _ & Hpar' & _ & _
                     & _ & Hjoin)]; [exact Hfail | exfalso].
      rewrite Hpar in Hpar'. injection Hpar' as <- <-.
      destruct (join_passes svc _ _ _ _ Hname Hjoin) as (Hlook' & Hfloat & _).
      congruence.
    + intros ns ty functionOid restrictionOid Hns Hty Hfn Hres e.
      split; [| reflexivity].
      rewrite (DefineOperator_continues svc _ _ _ _ _ _ Hns Hpar).
      eapply finish_aborts_join; try eassumption.
      eapply join_aborts_float8; try eassumption.
      rewrite (require_float8_mismatch svc _ _ _ _ _ Hret Hne). reflexivity.
Qed.
End DefineOperator_estimators.

(** C8, as stated, fails.  With leftarg = secret and no procedure, the user
    lacks USAGE on the specified left operand type, but the command raises
    the error of line 153, which comes before the check of line 171 and is
    no authorization error. *)
Lemma DefineOperator_permission_counterexample :
  typeName1 (Toy_vars [Toy.leftarg Toy.secret]) = Some Toy.secret
  /\ typenameTypeId Toy.services Toy.initial_catalog Toy.secret = inr 9001
  /\ pg_type_aclcheck Toy.services Toy.initial_catalog 9001
       (GetUserId Toy.services) ACL_USAGE = ACLCHECK_NO_PRIV
  /\ Toy.run ["==="] [Toy.leftarg Toy.secret]
     = (inl procedure_error, Toy.backend)
  /\ is_authorization_error procedure_error = false
  /\ ~ denied_whenever_lacking Toy.services.
Proof.
  repeat split; try reflexivity.
  intros H.
  destruct (H ["==="] [Toy.leftarg Toy.secret] Toy.backend
              (Toy_vars [Toy.leftarg Toy.secret]) Toy.backend Toy.secret 9001)
    as (s' & e & Hrun & Hauth).
  - vm_compute; reflexivity.
  - reflexivity.
  - reflexivity.
  - vm_compute. discriminate.
  - assert (Hrun' : DefineOperator Toy.services ["==="]
                      [Toy.leftarg Toy.secret] Toy.backend
                    = (inl procedure_error, Toy.backend))
      by (vm_compute; reflexivity).
    rewrite Hrun' in Hrun. injection Hrun as <- _. discriminate Hauth.
Qed.

Section DefineOperator_permissions.
Context {Catalog : Type} (svc : Services Catalog).
Implicit Types s : Backend Catalog.

(** C8, amended.  Whenever the user lacks one of the permissions
    [DefineOperator] requires, the command fails and leaves the catalog as
    it was, and the failure is an authorization error when the steps before
    the check of that permission pass.  The permissions are: CREATE on the namespace
    the name resolves to; USAGE on the type the left and the right operand
    type name resolve to, when specified; EXECUTE on the function the
    procedure name resolves to for the operand types; USAGE on its result
    type; EXECUTE on the functions the restriction and the join estimator
    names resolve to, when specified. *)
Theorem DefineOperator_permission_denied
    (names : list string) (parameters : list DefElem) s :
  let user := GetUserId svc in
  (forall ns,
      QualifiedNameGetCreationNamespace svc (catalog s) names = inr ns ->
      pg_namespace_aclcheck svc (catalog s) (fst ns) user ACL_CREATE
        <> ACLCHECK_OK ->
      aborts svc names parameters s /\ denied svc names parameters s s)
  /\ (forall v s1,
      DefineOperator_parameters svc parameters s = (inr v, s1) ->
      (forall t o,
          typeName1 v = Some t ->
          typenameTypeId svc (catalog s1) t = inr o ->
          pg_type_aclcheck svc (catalog s1) o user ACL_USAGE
            <> ACLCHECK_OK ->
          aborts svc names parameters s
          /\ (forall ns ty,
                DefineOperator_namespace svc names s = (inr ns, s) ->
                DefineOperator_typeIds svc v s1 = (inr ty, s1) ->
                denied svc names parameters s s1))
      /\ (forall t o,
          typeName2 v = Some t ->
          typenameTypeId svc (catalog s1) t = inr o ->
          pg_type_aclcheck svc (catalog s1) o user ACL_USAGE
            <> ACLCHECK_OK ->
          aborts svc names parameters s
          /\ (forall ns ty,
                DefineOperator_namespace svc names s = (inr ns, s) ->
                DefineOperator_typeIds svc v s1 = (inr ty, s1) ->
                DefineOperator_type_usage svc (typeName1 v) (fst ty) s1
                  = (inr tt, s1) ->
                denied svc names parameters s s1))
      /\ (forall typeId1 typeId2 f,
          DefineOperator_typeId svc (typeName1 v) s1 = (inr typeId1, s1) ->
          DefineOperator_typeId svc (typeName2 v) s1 = (inr typeId2, s1) ->
          DefineOperator_lookup_function svc v typeId1 typeId2 s1
            = (inr f, s1) ->
          (pg_proc_aclcheck svc (catalog s1) f user ACL_EXECUTE
             <> ACLCHECK_OK ->
           aborts svc names parameters s
           /\ (forall ns,
                 DefineOperator_namespace svc names s = (inr ns, s) ->
                 DefineOperator_types svc v s1
                   = (inr (typeId1, typeId2), s1) ->
                 denied svc names parameters s s1))
          /\ (forall rettype,
              get_func_rettype svc (catalog s1) f = inr rettype ->
              pg_type_aclcheck svc (catalog s1) rettype user ACL_USAGE
                <> ACLCHECK_OK ->
              aborts svc names parameters s
              /\ (forall ns,
                    DefineOperator_namespace svc names s = (inr ns, s) ->
                    DefineOperator_types svc v s1
                      = (inr (typeId1, typeId2), s1) ->
                    require_execute svc f (functionName v) s1
                      = (inr tt, s1) ->
                    denied svc names parameters s s1)))
      /\ (forall r,
          restrictionName v <> [] ->
          DefineOperator_lookup_restriction svc v s1 = (inr r, s1) ->
          pg_proc_aclcheck svc (catalog s1) r user ACL_EXECUTE
            <> ACLCHECK_OK ->
          aborts svc names parameters s
          /\ (forall ns ty f,
                DefineOperator_namespace svc names s = (inr ns, s) ->
                DefineOperator_types svc v s1 = (inr ty, s1) ->
                DefineOperator_function svc v (fst ty) (snd ty) s1
                  = (inr f, s1) ->
                require_float8 svc "restriction" r (restrictionName v) s1
                  = (inr tt, s1) ->
                denied svc names parameters s s1))
      /\ (forall j,
          joinName v <> [] ->
          DefineOperator_lookup_join svc v s1 = (inr j, s1) ->
          pg_proc_aclcheck svc (catalog s1) j user ACL_EXECUTE
            <> ACLCHECK_OK ->
          aborts svc names parameters s
          /\ (forall ns ty f r,
                DefineOperator_namespace svc names s = (inr ns, s) ->
                DefineOperator_types svc v s1 = (inr ty, s1) ->
                DefineOperator_function svc v (fst ty) (snd ty) s1
                  = (inr f, s1) ->
                DefineOperator_restriction svc v s1 = (inr r, s1) ->
                require_float8 svc "join" j (joinName v) s1 = (inr tt, s1) ->
                denied svc names parameters s s1))).
Proof.
  intros user. split.
  { intros ns Hq Hacl.
    destruct (namespace_denied svc names s ns Hq Hacl) as (e & He & Hauth).
    pose proof (DefineOperator_aborts_namespace svc names parameters _ _ _ He)
      as Hrun.
    split; [exists e, s | exists e]; auto. }
  intros v s1 Hpar.
  (* what a run that passes every step has established *)
  assert (Hpass :
    aborts svc names parameters s
    \/ exists ns ty f r j,
         DefineOperator_namespace svc names s = (inr ns, s)
         /\ DefineOperator_types svc v s1 = (inr ty, s1)
         /\ DefineOperator_function svc v (fst ty) (snd ty) s1 = (inr f, s1)
         /\ DefineOperator_restriction svc v s1 = (inr r, s1)
         /\ DefineOperator_join svc v s1 = (inr j, s1)).
  { destruct (DefineOperator_aborts_or_passes svc names parameters s)
      as [Hfail | (ns & v' & s1' & ty & f & r & j & _ & Hns & Hpar' & Hty & Hfn
                   & Hres & Hjoin)]; [now left | right].
    rewrite Hpar in Hpar'. injection Hpar' as <- <-.
    exists ns, ty, f, r, j. auto. }
  assert (Hcont : forall ns,
            DefineOperator_namespace svc names s = (inr ns, s) ->
            DefineOperator svc names parameters s
            = DefineOperator_finish svc ns v s1).
  { intros ns Hns. now apply DefineOperator_continues. }
  repeat split.
  - destruct Hpass as [Hfail | (ns & ty & f & r & j & _ & Hty & _)];
      [exact Hfail | exfalso].
    destruct (types_passes svc _ _ _ _ Hty) as (Hids & Hleft & _).
    destruct (typeIds_passes svc _ _ _ _ Hids) as (_ & Hid1 & _).
    rewrite H in Hid1. rewrite (typeId_specified svc _ _ _ H0) in Hid1.
    injection Hid1 as Hid1. apply H1. rewrite Hid1. eapply Hleft; eassumption.
  - intros ns ty Hns Hids. unfold denied. rewrite (Hcont ns Hns).
    destruct (typeIds_passes svc _ _ _ _ Hids) as (_ & Hid1 & _).
    rewrite H in Hid1. rewrite (typeId_specified svc _ _ _ H0) in Hid1.
    injection Hid1 as Hid1. rewrite Hid1 in H1.
    destruct (type_usage_denied svc t (fst ty) s1 H1) as (e & He & Hauth).
    exists e. split; [| exact Hauth].
    apply finish_aborts_types.
    eapply types_aborts_left_usage; [eassumption |]. now rewrite H.
  - destruct Hpass as [Hfail | (ns & ty & f & r & j & _ & Hty & _)];
      [exact Hfail | exfalso].
    destruct (types_passes svc _ _ _ _ Hty) as (Hids & _ & Hright).
    destruct (typeIds_passes svc _ _ _ _ Hids) as (_ & _ & Hid2).
    rewrite H in Hid2. rewrite (typeId_specified svc _ _ _ H0) in Hid2.
    injection Hid2 as Hid2. apply H1. rewrite Hid2. eapply Hright; eassumption.
  - intros ns ty Hns Hids Hleft. unfold denied. rewrite (Hcont ns Hns).
    destruct (typeIds_passes svc _ _ _ _ Hids) as (_ & _ & Hid2).
    rewrite H in Hid2. rewrite (typeId_specified svc _ _ _ H0) in Hid2.
    injection Hid2 as Hid2. rewrite Hid2 in H1.
    destruct (type_usage_denied svc t (snd ty) s1 H1) as (e & He & Hauth).
    exists e. split; [| exact Hauth].
    apply finish_aborts_types.
    eapply types_aborts_right_usage; [eassumption .. |]. now rewrite H.
  - destruct Hpass as [Hfail | (ns & ty & f' & r & j & _ & Hty & Hfn & _)];
      [exact Hfail | exfalso].
    destruct (types_passes svc _ _ _ _ Hty) as (Hids & _ & _).
    destruct (typeIds_passes svc _ _ _ _ Hids) as (_ & Hid1 & Hid2).
    rewrite H in Hid1. rewrite H0 in Hid2.
    injection Hid1 as Hid1. injection Hid2 as Hid2.
    rewrite <- Hid1, <- Hid2 in Hfn.
    destruct (function_passes svc _ _ _ _ _ _ Hfn) as (Hlook & Hexec & _).
    rewrite H1 in Hlook. injection Hlook as <-. contradiction.
  - intros ns Hns Hty. unfold denied. rewrite (Hcont ns Hns).
    destruct (require_execute_denied svc f (functionName v) s1 H2)
      as (e & He & Hauth).
    exists e. split; [| exact Hauth].
    eapply finish_aborts_function; [eassumption |].
    eapply function_aborts_execute; eassumption.
  - destruct Hpass as [Hfail | (ns & ty & f' & r & j & _ & Hty & Hfn & _)];
      [exact Hfail | exfalso].
    destruct (types_passes svc _ _ _ _ Hty) as (Hids & _ & _).
    destruct (typeIds_passes svc _ _ _ _ Hids) as (_ & Hid1 & Hid2).
    rewrite H in Hid1. rewrite H0 in Hid2.
    injection Hid1 as Hid1. injection Hid2 as Hid2.
    rewrite <- Hid1, <- Hid2 in Hfn.
    destruct (function_passes svc _ _ _ _ _ _ Hfn)
      as (Hlook & _ & rettype' & Hret & Husage).
    rewrite H1 in Hlook. injection Hlook as <-.
    rewrite H2 in Hret. injection Hret as <-. contradiction.
  - intros ns Hns Hty Hexec. unfold denied. rewrite (Hcont ns Hns).
    destruct (rettype_usage_denied svc f s1 rettype H2 H3)
      as (e & He & Hauth).
    exists e. split; [| exact Hauth].
    eapply finish_aborts_function; [eassumption |].
    eapply function_aborts_rettype; eassumption.
  - destruct Hpass as [Hfail | (ns & ty & f & r' & j & _ & _ & _ & Hres & _)];
      [exact Hfail | exfalso].
    destruct (restriction_passes svc _ _ _ _ H Hres) as (Hlook & _ & Hexec).
    rewrite H0 in Hlook. injection Hlook as <-. contradiction.
  - intros ns ty f Hns Hty Hfn Hfloat. unfold denied. rewrite (Hcont ns Hns).
    destruct (require_execute_denied svc r (restrictionName v) s1 H1)
      as (e & He & Hauth).
    exists e. split; [| exact Hauth].
    eapply finish_aborts_restriction; [eassumption .. |].
    eapply restriction_aborts_execute; eassumption.
  - destruct Hpass as [Hfail | (ns & ty & f & r & j' & _ & _ & _ & _ & Hjoin)];
      [exact Hfail | exfalso].
    destruct (join_passes svc _ _ _ _ H Hjoin) as (Hlook & _ & Hexec).
    rewrite H0 in Hlook. injection Hlook as <-. contradiction.
  - intros ns ty f r Hns Hty Hfn Hres Hfloat. unfold denied.
    rewrite (Hcont ns Hns).
    destruct (require_execute_denied svc j (joinName v) s1 H1)
      as (e & He & Hauth).
    exists e. split; [| exact Hauth].
    eapply finish_aborts_join; [eassumption .. |].
    eapply join_aborts_execute; eassumption.
Qed.
End DefineOperator_permissions.

Section DefineOperator_attributes.
Context {Catalog : Type} (svc : Services Catalog).
Implicit Types s : Backend Catalog.

Lemma param_unrecognized d v s :
  unrecognized_attribute svc d = true ->
  DefineOperator_param svc d v s
  = (inr v, add_notice s (unrecognized_warning d)).
Proof.
  unfold unrecognized_attribute. simpl. intros H.
  repeat match type of H with
         | _ && _ = true => apply andb_true_iff in H as [?H H]
         end.
  repeat match goal with
         | H : negb _ = true |- _ => apply negb_true_iff in H
         end.
  unfold DefineOperator_param.
  repeat match goal with
         | H : defname_is svc d ?n = false |- _ => rewrite H; clear H
         end.
  reflexivity.
Qed.

(** A SETOF operand type is rejected by the loop itself. *)
Lemma param_setof d t v s :
  defname_is svc d "leftarg" = true
  \/ (defname_is svc d "leftarg" = false
      /\ defname_is svc d "rightarg" = true) ->
  defGetTypeName svc d = inr t ->
  setof t = true ->
  DefineOperator_param svc d v s = (inl setof_error, s).
Proof.
  intros Hd Ht Hs. unfold DefineOperator_param.
  destruct Hd as [-> | [-> ->]];
    unfold Cmd.bind, Cmd.lookup, Cmd.when; rewrite Ht, Hs; reflexivity.
Qed.

(** What [DefineOperator] does with a SETOF operand type: the command
    aborts in the parameter loop, whatever follows in the list and
    whatever the lookup of the function would give. *)
Lemma DefineOperator_setof_rejected names l1 d l2 t s ns v1 s1 :
  DefineOperator_namespace svc names s = (inr ns, s) ->
  DefineOperator_parameters svc l1 s = (inr v1, s1) ->
  defname_is svc d "leftarg" = true
  \/ (defname_is svc d "leftarg" = false
      /\ defname_is svc d "rightarg" = true) ->
  defGetTypeName svc d = inr t ->
  setof t = true ->
  DefineOperator svc names (l1 ++ d :: l2) s = (inl setof_error, s1).
Proof.
  intros Hns Hl1 Hd Ht Hs.
  eapply DefineOperator_aborts_parameters; [eassumption |].
  unfold DefineOperator_parameters in *. rewrite foreach_app.
  rewrite (bind_inr _ _ _ _ _ Hl1). simpl.
  apply bind_inl. eapply param_setof; eassumption.
Qed.

(** C10. An element of the definition list that no branch of the loop
    recognizes (a) only adds a warning: the loop variables are unchanged
    and nothing is raised; (b) the loop goes on with the elements that
    follow; (c) the command returns what it returns without the element,
    and leaves the same catalog; (d) the warning is among the notices
    whenever the loop gets to the element; (e) whereas the walker of the
    traversal engine raises a fatal error on a node of a kind it has no
    case for. *)
Theorem DefineOperator_unrecognized_attribute_warns
    (d : DefElem) (Hd : unrecognized_attribute svc d = true) :
  (forall v s,
      DefineOperator_param svc d v s
      = (inr v, add_notice s (unrecognized_warning d)))
  /\ (forall l2 v s,
        Cmd.foreach (d :: l2) (DefineOperator_param svc) v s
        = Cmd.foreach l2 (DefineOperator_param svc) v
            (add_notice s (unrecognized_warning d)))
  /\ (forall names l1 l2 s,
        fst (DefineOperator svc names (l1 ++ d :: l2) s)
        = fst (DefineOperator svc names (l1 ++ l2) s)
        /\ catalog (snd (DefineOperator svc names (l1 ++ d :: l2) s))
           = catalog (snd (DefineOperator svc names (l1 ++ l2) s)))
  /\ (forall names l1 l2 s ns v1 s1,
        DefineOperator_namespace svc names s = (inr ns, s) ->
        DefineOperator_parameters svc l1 s = (inr v1, s1) ->
        In (unrecognized_warning d)
           (notices (snd (DefineOperator svc names (l1 ++ d :: l2) s))))
  /\ (forall (C : Type) (walker : walker_fn C) tag context,
        expression_tree_walker walker (NUnknown tag) context
        = inl (unrecognized_node_type tag)).
Proof.
  assert (Hstep : forall l2 v s,
    Cmd.foreach (d :: l2) (DefineOperator_param svc) v s
    = Cmd.foreach l2 (DefineOperator_param svc) v
        (add_notice s (unrecognized_warning d))).
  { intros l2 v s. simpl. apply bind_inr. now apply param_unrecognized. }
  (* the rest of the command, from the loop variables [v1] on *)
  set (rest := fun ns l2 v1 =>
         Cmd.bind (Cmd.foreach l2 (DefineOperator_param svc) v1)
                  (DefineOperator_finish svc ns)).
  assert (Hrest : forall ns l2 v1, notice_parametric (rest ns l2 v1)).
  { intros ns l2 v1. apply notice_parametric_bind.
    - apply catalog_preserving_foreach, catalog_preserving_param.
    - intros v. apply notice_parametric_finish. }
  assert (Hrun : forall names l s ns v1 s1 l2,
    DefineOperator_namespace svc names s = (inr ns, s) ->
    DefineOperator_parameters svc l s = (inr v1, s1) ->
    DefineOperator svc names (l ++ l2) s = rest ns l2 v1 s1).
  { intros names l s ns v1 s1 l2 Hns Hl. rewrite DefineOperator_unfold.
    rewrite (bind_inr _ _ _ _ _ Hns). unfold rest, DefineOperator_parameters, Cmd.bind in *.
    rewrite foreach_app. unfold Cmd.bind. now rewrite Hl. }
  assert (Hrund : forall names l s ns v1 s1 l2,
    DefineOperator_namespace svc names s = (inr ns, s) ->
    DefineOperator_parameters svc l s = (inr v1, s1) ->
    DefineOperator svc names (l ++ d :: l2) s
    = rest ns l2 v1 (add_notice s1 (unrecognized_warning d))).
  { intros names l s ns v1 s1 l2 Hns Hl.
    rewrite (Hrun names l s ns v1 s1 (d :: l2) Hns Hl).
    unfold rest at 1. unfold Cmd.bind. rewrite Hstep. reflexivity. }
  split; [intros v s; now apply param_unrecognized |].
  split; [exact Hstep |].
  split; [| split].
  - intros names l1 l2 s.
    destruct (DefineOperator_namespace svc names s) as [[e | ns] s0] eqn:E0;
      pose proof (read_only_run _ _ _ _ (read_only_namespace svc names) E0);
      subst s0.
    { rewrite !(DefineOperator_aborts_namespace svc _ _ _ _ _ E0). auto. }
    destruct (DefineOperator_parameters svc l1 s) as [[e | v1] s1] eqn:E1.
    { assert (Hab : forall l, DefineOperator svc names (l1 ++ l) s = (inl e, s1)).
      { intros l. eapply DefineOperator_aborts_parameters; [eassumption |].
        unfold DefineOperator_parameters in *. rewrite foreach_app.
        now apply bind_inl. }
      rewrite !Hab. auto. }
    rewrite (Hrund _ _ _ _ _ _ l2 E0 E1), (Hrun _ _ _ _ _ _ l2 E0 E1).
    destruct s1 as [cat n]. unfold add_notice. simpl.
    destruct (notice_parametric_runs (rest ns l2 v1) cat
                (n ++ [unrecognized_warning d]) n (Hrest ns l2 v1))
      as (H1 & H2 & _).
    auto.
  - intros names l1 l2 s ns v1 s1 Hns Hl.
    rewrite (Hrund _ _ _ _ _ _ l2 Hns Hl).
    destruct s1 as [cat n]. unfold add_notice. simpl.
    destruct (notice_parametric_runs (rest ns l2 v1) cat
                (n ++ [unrecognized_warning d]) n (Hrest ns l2 v1))
      as (_ & _ & w & Hw & _).
    rewrite Hw. apply in_or_app. left. apply in_or_app. right. now left.
  - reflexivity.
Qed.
End DefineOperator_attributes.

(** ** The theorems at work on the small catalog *)

(** The collaborators of the small catalog raise at level [ERROR]. *)
Lemma Toy_raises_errors : Services_raise_errors Toy.services.
Proof.
  repeat split; intros; intros e E; simpl in E.
  - unfold Toy.creation_namespace in E.
    repeat case_match; simplify_eq; reflexivity.
  - unfold Toy.get_type_name in E.
    repeat case_match; simplify_eq; reflexivity.
  - unfold Toy.get_qualified_name in E.
    repeat case_match; simplify_eq; reflexivity.
  - unfold Toy.get_boolean in E.
    repeat case_match; simplify_eq; reflexivity.
  - unfold Toy.type_oid in E.
    repeat case_match; simplify_eq; reflexivity.
  - unfold Toy.lookup_func_name in E.
    repeat case_match; simplify_eq; reflexivity.
  - unfold Toy.func_rettype in E.
    repeat case_match; simplify_eq; reflexivity.
  - unfold Toy.operator_create in E.
    repeat case_match; simpl in E; simplify_eq; reflexivity.
Qed.

Lemma DefineOperator_no_partial_mutation_witness :
  Services_raise_errors Toy.services
  /\ exists e s',
       Toy.run ["==="] (Toy_binary "nosuch") = (inl e, s')
       /\ is_user_error e = true.
Proof.
  split; [exact Toy_raises_errors |].
  eexists. eexists. split; [vm_compute; reflexivity |].
  eapply (proj2 (DefineOperator_no_partial_mutation Toy.services ["==="]
                   (Toy_binary "nosuch") Toy.backend) Toy_raises_errors).
  vm_compute; reflexivity.
Defined.

Lemma DefineOperator_missing_argument_witness :
  Toy.run ["==="] [Toy.leftarg Toy.int4] = (inl procedure_error, Toy.backend)
  /\ Toy.run ["==="] [Toy.procedure "int4pl"]
     = (inl operand_error, Toy.backend).
Proof.
  split.
  - destruct (DefineOperator_missing_argument Toy.services ["==="]
                [Toy.leftarg Toy.int4] Toy.backend) as [Ha _].
    destruct (Ha eq_refl) as [_ Hexact].
    eapply (fun ns v s1 H0 H1 => proj1 (Hexact ns v s1 H0 H1));
      vm_compute; reflexivity.
  - destruct (DefineOperator_missing_argument Toy.services ["==="]
                [Toy.procedure "int4pl"] Toy.backend) as [_ Hb].
    destruct (Hb eq_refl eq_refl) as [_ Hexact].
    eapply (fun ns v s1 H0 H1 H2 => proj1 (Hexact ns v s1 H0 H1 H2)).
    + vm_compute; reflexivity.
    + vm_compute; reflexivity.
    + vm_compute. discriminate.
Defined.

Lemma DefineOperator_estimator_must_return_float8_witness :
  (aborts Toy.services ["==="]
     (Toy_binary "int4pl" ++ [Toy.restrict "badsel"]) Toy.backend
   /\ Toy.run ["==="] (Toy_binary "int4pl" ++ [Toy.restrict "badsel"])
      = (inl (mkErrorData ERROR ERRCODE_INVALID_OBJECT_DEFINITION
                ("restriction estimator function badsel must return type "
                   +:+ dquote +:+ "float8" +:+ dquote)),
         Toy.backend))
  /\ (aborts Toy.services ["pg_catalog"; "==="]
        (Toy_binary "int4pl" ++ [Toy.join "oldjoinsel"]) Toy.backend
      /\ Toy.run ["==="] (Toy_binary "int4pl" ++ [Toy.join "oldjoinsel"])
         = (inl (mkErrorData ERROR ERRCODE_INVALID_OBJECT_DEFINITION
                   ("join estimator function oldjoinsel must return type "
                      +:+ dquote +:+ "float8" +:+ dquote)),
            Toy.backend)).
Proof.
  unfold Toy.run. split.
  - assert (Hpar : DefineOperator_parameters Toy.services
                     (Toy_binary "int4pl" ++ [Toy.restrict "badsel"])
                     Toy.backend
                   = (inr (Toy_vars (Toy_binary "int4pl"
                                       ++ [Toy.restrict "badsel"])),
                      Toy.backend))
      by (vm_compute; reflexivity).
    pose proof (proj1 (DefineOperator_estimator_must_return_float8
                         Toy.services ["==="] _ _ _ _ Hpar) 9100 23) as H.
    destruct H as [Ha Hexact].
    + vm_compute. discriminate.
    + vm_compute; reflexivity.
    + vm_compute; reflexivity.
    + vm_compute. discriminate.
    + split; [exact Ha |].
      apply (Hexact (2200, "===") (23, 23) 177); vm_compute; reflexivity.
  - assert (Hpar : DefineOperator_parameters Toy.services
                     (Toy_binary "int4pl" ++ [Toy.join "oldjoinsel"])
                     Toy.backend
                   = (inr (Toy_vars (Toy_binary "int4pl"
                                       ++ [Toy.join "oldjoinsel"])),
                      Toy.backend))
      by (vm_compute; reflexivity).
    split.
    + pose proof (proj2 (DefineOperator_estimator_must_return_float8
                           Toy.services ["pg_catalog"; "==="] _ _ _ _ Hpar)
                    9101 16) as H.
      apply H.
      * vm_compute. discriminate.
      * vm_compute; reflexivity.
      * vm_compute; reflexivity.
      * vm_compute. discriminate.
    + pose proof (proj2 (DefineOperator_estimator_must_return_float8
                           Toy.services ["==="] _ _ _ _ Hpar) 9101 16) as H.
      destruct H as [_ Hexact].
      * vm_compute. discriminate.
      * vm_compute; reflexivity.
      * vm_compute; reflexivity.
      * vm_compute. discriminate.
      * apply (Hexact (2200, "===") (23, 23) 177 0); vm_compute; reflexivity.
Defined.

(** The parameter loop on the small catalog, run over [l]. *)
Ltac toy_loop l :=
  assert (Hpar : DefineOperator_parameters Toy.services l Toy.backend
                 = (inr (Toy_vars l), Toy.backend))
    by (vm_compute; reflexivity).

Lemma DefineOperator_permission_denied_witness :
  denied Toy.services ["pg_catalog"; "==="] (Toy_binary "int4pl")
    Toy.backend Toy.backend
  /\ denied Toy.services ["==="]
       [Toy.leftarg Toy.secret; Toy.rightarg Toy.int4;
        Toy.procedure "secretarg"]
       Toy.backend Toy.backend
  /\ denied Toy.services ["==="]
       [Toy.leftarg Toy.int4; Toy.rightarg Toy.secret;
        Toy.procedure "int4pl"]
       Toy.backend Toy.backend
  /\ denied Toy.services ["==="] (Toy_binary "privfn") Toy.backend Toy.backend
  /\ denied Toy.services ["==="] (Toy_binary "secretfn")
       Toy.backend Toy.backend
  /\ denied Toy.services ["==="]
       (Toy_binary "int4pl" ++ [Toy.restrict "privsel"])
       Toy.backend Toy.backend
  /\ denied Toy.services ["==="]
       (Toy_binary "int4pl" ++ [Toy.join "privjoinsel"])
       Toy.backend Toy.backend
  /\ aborts Toy.services ["pg_catalog"; "==="]
       [Toy.leftarg Toy.secret; Toy.procedure "nosuch";
        Toy.restrict "privsel"]
       Toy.backend.
Proof.
  repeat split.
  - apply (proj1 (DefineOperator_permission_denied Toy.services
                    ["pg_catalog"; "==="] (Toy_binary "int4pl") Toy.backend)
             (11, "===")).
    + vm_compute; reflexivity.
    + vm_compute. discriminate.
  - toy_loop [Toy.leftarg Toy.secret; Toy.rightarg Toy.int4;
              Toy.procedure "secretarg"].
    pose proof (proj2 (DefineOperator_permission_denied Toy.services
                   ["==="] _ Toy.backend) _ _ Hpar) as H.
    destruct H as (H & _).
    destruct (H Toy.secret 9001) as [_ Hd];
      [reflexivity | reflexivity | vm_compute; discriminate |].
    apply (Hd (2200, "===") (9001, 23)); vm_compute; reflexivity.
  - toy_loop [Toy.leftarg Toy.int4; Toy.rightarg Toy.secret;
              Toy.procedure "int4pl"].
    pose proof (proj2 (DefineOperator_permission_denied Toy.services
                   ["==="] _ Toy.backend) _ _ Hpar) as H.
    destruct H as (_ & H & _).
    destruct (H Toy.secret 9001) as [_ Hd];
      [reflexivity | reflexivity | vm_compute; discriminate |].
    apply (Hd (2200, "===") (23, 9001)); vm_compute; reflexivity.
  - toy_loop (Toy_binary "privfn").
    pose proof (proj2 (DefineOperator_permission_denied Toy.services
                   ["==="] _ Toy.backend) _ _ Hpar) as H.
    destruct H as (_ & _ & H & _).
    destruct (H 23 23 9200) as [Hf _]; [reflexivity .. |].
    destruct Hf as [_ Hd]; [vm_compute; discriminate |].
    apply (Hd (2200, "===")); vm_compute; reflexivity.
  - toy_loop (Toy_binary "secretfn").
    pose proof (proj2 (DefineOperator_permission_denied Toy.services
                   ["==="] _ Toy.backend) _ _ Hpar) as H.
    destruct H as (_ & _ & H & _).
    destruct (H 23 23 9300) as [_ Hr]; [reflexivity .. |].
    destruct (Hr 9001) as [_ Hd]; [reflexivity | vm_compute; discriminate |].
    apply (Hd (2200, "===")); vm_compute; reflexivity.
  - toy_loop (Toy_binary "int4pl" ++ [Toy.restrict "privsel"]).
    pose proof (proj2 (DefineOperator_permission_denied Toy.services
                   ["==="] _ Toy.backend) _ _ Hpar) as H.
    destruct H as (_ & _ & _ & H & _).
    destruct (H 9201) as [_ Hd];
      [vm_compute; discriminate | reflexivity | vm_compute; discriminate |].
    apply (Hd (2200, "===") (23, 23) 177); vm_compute; reflexivity.
  - toy_loop (Toy_binary "int4pl" ++ [Toy.join "privjoinsel"]).
    pose proof (proj2 (DefineOperator_permission_denied Toy.services
                   ["==="] _ Toy.backend) _ _ Hpar) as H.
    destruct H as (_ & _ & _ & _ & H).
    destruct (H 9202) as [_ Hd];
      [vm_compute; discriminate | reflexivity | vm_compute; discriminate |].
    apply (Hd (2200, "===") (23, 23) 177 0); vm_compute; reflexivity.
  - toy_loop [Toy.leftarg Toy.secret; Toy.procedure "nosuch";
              Toy.restrict "privsel"].
    pose proof (proj2 (DefineOperator_permission_denied Toy.services
                   ["pg_catalog"; "==="] _ Toy.backend) _ _ Hpar) as H.
    destruct H as (_ & _ & _ & H & _).
    apply (H 9201);
      [vm_compute; discriminate | reflexivity | vm_compute; discriminate].
Defined.

Lemma DefineOperator_unrecognized_attribute_warns_witness :
  DefineOperator_param Toy.services Toy_bogus OperatorVars_init Toy.backend
  = (inr OperatorVars_init,
     add_notice Toy.backend (unrecognized_warning Toy_bogus))
  /\ Toy.run ["==="] ([Toy.leftarg Toy.int4] ++
                      Toy_bogus :: [Toy.rightarg Toy.int4;
                                    Toy.procedure "int4pl"])
     = (fst (Toy.run ["==="] (Toy_binary "int4pl")),
        add_notice (snd (Toy.run ["==="] (Toy_binary "int4pl")))
                   (unrecognized_warning Toy_bogus))
  /\ In (unrecognized_warning Toy_bogus)
        (notices (snd (Toy.run ["==="]
                         ([Toy.leftarg Toy.int4] ++
                          Toy_bogus :: [Toy.rightarg Toy.int4;
                                        Toy.procedure "int4pl"])))).
Proof.
  pose proof (DefineOperator_unrecognized_attribute_warns Toy.services
                Toy_bogus eq_refl) as (Ha & _ & _ & Hd & _).
  split; [apply Ha |].
  split; [vm_compute; reflexivity |].
  eapply (Hd ["==="] [Toy.leftarg Toy.int4]); vm_compute; reflexivity.
Defined.

(** ** The message of the SETOF check *)

(** C9, at CREATE OPERATOR === (leftarg = SETOF int4, procedure = nosuch):
    the command aborts in the parameter loop, before the procedure, which
    does not exist, is looked up; the message of the report is the one of
    the source, which spells the word "operator" with two underscores, not
    the message "SETOF type not allowed for operator argument". *)
Theorem DefineOperator_setof_message :
  Toy.run ["==="] [Toy.leftarg Toy.setof_int4; Toy.procedure "nosuch"]
  = (inl (mkErrorData ERROR ERRCODE_INVALID_FUNCTION_DEFINITION
            "SETOF type not allowed for operator__ argument"),
     Toy.backend)
  /\ (forall r s,
        Toy.run ["==="] [Toy.leftarg Toy.setof_int4; Toy.procedure "nosuch"]
        = (r, s) ->
        r <> inl (mkErrorData ERROR ERRCODE_INVALID_FUNCTION_DEFINITION
                    "SETOF type not allowed for operator argument")).
Proof.
  split; [vm_compute; reflexivity |].
  intros r s H. vm_compute in H. inversion H. discriminate.
Qed.

(* ===================================================================== *)
(** * Part VI. Properties of the walker                                   *)
(* ===================================================================== *)

Section Walk_facts.
Context {C : Type} (walker : walker_fn C).

Lemma expression_tree_walker_composite tag scalars slots context :
  expression_tree_walker walker (NComposite tag scalars slots) context
  = or_else (inr (walker (NComposite tag scalars slots) context))
            (walk_list (expression_tree_walker walker) slots).
Proof. reflexivity. Qed.

Lemma walk_slots_app pre post context :
  walk_list (expression_tree_walker walker) (pre ++ post) context
  = or_else (walk_list (expression_tree_walker walker) pre context) (walk_list (expression_tree_walker walker) post).
Proof.
  revert context. induction pre as [| child pre IH]; intros context; simpl.
  - reflexivity.
  - destruct (expression_tree_walker walker child context)
      as [e | [[|] context']]; simpl; auto.
Qed.

(** The law of the default dispatch: once the callback has declined the
    node, the earlier children have returned false and one child returns
    true, the walk of the node returns true with the context that child
    left: no later sibling is walked. *)
Lemma walker_stops_at_first_true tag scalars pre child post
    context context1 context2 context3 :
  walker (NComposite tag scalars (pre ++ child :: post)) context
    = (false, context1) ->
  walk_list (expression_tree_walker walker) pre context1 = inr (false, context2) ->
  expression_tree_walker walker child context2 = inr (true, context3) ->
  expression_tree_walker walker
    (NComposite tag scalars (pre ++ child :: post)) context
  = inr (true, context3).
Proof.
  intros Hcb Hpre Hchild. rewrite expression_tree_walker_composite, Hcb.
  simpl. rewrite walk_slots_app, Hpre. simpl. now rewrite Hchild.
Qed.

(** When every child returns false, so does the walk of the slots, and
    all of them are walked. *)
Lemma walk_slots_or slots context :
  forall r, walk_list (expression_tree_walker walker) slots context = inr r ->
  fst r = true ->
  exists pre child post context2 context3,
    slots = pre ++ child :: post
    /\ walk_list (expression_tree_walker walker) pre context = inr (false, context2)
    /\ expression_tree_walker walker child context2 = inr (true, context3)
    /\ snd r = context3.
Proof.
  revert context. induction slots as [| child l IH]; intros context r; simpl.
  - intros H. inversion H. subst. discriminate.
  - destruct (expression_tree_walker walker child context)
      as [e | [[|] context']] eqn:E; simpl.
    + discriminate.
    + intros H _. inversion H. subst.
      exists [], child, l, context, context'. simpl. auto.
    + intros H Ht. destruct (IH _ _ H Ht)
        as (pre & c & post & c2 & c3 & -> & Hp & Hc & Hr).
      exists (child :: pre), c, post, c2, c3. simpl. rewrite E. simpl.
      auto.
Qed.
End Walk_facts.

Section Recording.
Variable p : Node -> bool.

Lemma upto_app {A} (q : A -> bool) l1 l2 :
  upto q (l1 ++ l2)
  = if existsb q l1 then upto q l1 else l1 ++ upto q l2.
Proof.
  induction l1 as [| x l1 IH]; simpl; [reflexivity |].
  destruct (q x); simpl; [reflexivity |]. rewrite IH.
  now destruct (existsb q l1).
Qed.

Lemma upto_none {A} (q : A -> bool) l : existsb q l = false -> upto q l = l.
Proof.
  induction l as [| x l IH]; simpl; [reflexivity |].
  intros H. apply orb_false_iff in H as [-> H]. now rewrite IH.
Qed.

Lemma forallb_upto_app {A} (q r : A -> bool) l1 l2 :
  forallb r (upto q (l1 ++ l2)) = true ->
  forallb r (upto q l1) = true
  /\ (existsb q l1 = false -> forallb r (upto q l2) = true).
Proof.
  rewrite upto_app. destruct (existsb q l1) eqn:E.
  - intros H. split; [exact H | discriminate].
  - rewrite forallb_app. intros H. apply andb_true_iff in H as [H1 H2].
    split; [| auto].
    clear - E H1. induction l1 as [| x l1 IH]; simpl in *; [reflexivity |].
    apply orb_false_iff in E as [-> E]. simpl.
    apply andb_true_iff in H1 as [-> H1]. simpl. auto.
Qed.

(** The walk with a recording predicate returns whether some node of the
    tree satisfies the predicate, and has called the predicate on the
    nodes up to the first that does, in the order of the walk. *)
Lemma walk_recording node :
  forall visited,
    forallb recognized (upto p (preorder node)) = true ->
    expression_tree_walker (recording p) node visited
    = inr (existsb p (preorder node),
           visited ++ upto p (preorder node)).
Proof.
  induction node as [| tag sc | tag sc slots IH | tag] using Node_nested_ind;
    intros visited Hrec.
  - simpl. now rewrite app_nil_r.
  - simpl. unfold recording. destruct (p (NLeaf tag sc)); reflexivity.
  - rewrite expression_tree_walker_composite.
    change (preorder (NComposite tag sc slots))
      with (NComposite tag sc slots :: flat_map preorder slots) in *.
    simpl in Hrec |- *. unfold recording at 1.
    destruct (p (NComposite tag sc slots)) eqn:Ep; simpl; [reflexivity |].
    simpl in Hrec.
    assert (Hslots : forall visited,
      forallb recognized (upto p (flat_map preorder slots)) = true ->
      walk_list (expression_tree_walker (recording p)) slots visited
      = inr (existsb p (flat_map preorder slots),
             visited ++ upto p (flat_map preorder slots))).
    { clear Hrec Ep. induction IH as [| child l Hchild _ IHl];
        intros vis Hr; simpl.
      - now rewrite app_nil_r.
      - apply forallb_upto_app in Hr as [Hr1 Hr2].
        rewrite (Hchild vis Hr1). simpl. rewrite upto_app, existsb_app.
        destruct (existsb p (preorder child)) eqn:Ec; simpl.
        + reflexivity.
        + rewrite (IHl _ (Hr2 eq_refl)), (upto_none _ _ Ec).
          now rewrite app_assoc. }
    rewrite (Hslots _ Hrec). now rewrite <- app_assoc.
  - simpl in Hrec. destruct (p (NUnknown tag)); discriminate.
Qed.
End Recording.

Section Deep_induction.
Variable Q : Node -> Prop.
Hypothesis step : forall node, (forall m, In m (descendants node) -> Q m) -> Q node.

Lemma preorder_descendants node :
  forall m, In m (preorder node) -> m = node \/ In m (descendants node).
Proof.
  destruct node; simpl; intros m H; try tauto; destruct H as [<- | H]; auto.
Qed.

(** Induction on nodes with the property available for every node below. *)
Lemma Node_deep_ind : forall node, Q node.
Proof.
  assert (H : forall node, forall m, In m (descendants node) -> Q m).
  { induction node as [| tag sc | tag sc slots IH | tag] using Node_nested_ind;
      simpl; try tauto.
    intros m Hm. apply in_flat_map in Hm as (child & Hc & Hm).
    rewrite List.Forall_forall in IH.
    destruct (preorder_descendants child m Hm) as [-> | Hd].
    - apply step. apply IH. exact Hc.
    - eapply IH; eassumption. }
  intros node. apply step, H.
Qed.
End Deep_induction.

Section Walk_total.
Context {C : Type} (walker : walker_fn C).

Lemma or_else_total (r : walked C) k :
  (exists x, r = inr x) -> (forall c, exists x, k c = inr x) ->
  exists x, or_else r k = inr x.
Proof.
  intros [[[|] c] ->] Hk; simpl; [eauto | apply Hk].
Qed.

Lemma walk_list_total (f : Node -> C -> walked C) l :
  (forall x, In x l -> forall c, exists r, f x c = inr r) ->
  forall c, exists r, walk_list f l c = inr r.
Proof.
  induction l as [| x l IH]; intros H c; simpl.
  - unfold skipped. eauto.
  - apply or_else_total.
    + apply H. now left.
    + apply IH. intros y Hy. apply H. now right.
Qed.

Lemma forallb_In {A} (f : A -> bool) l x :
  forallb f l = true -> In x l -> f x = true.
Proof. intros H Hx. rewrite forallb_forall in H. auto. Qed.

(** On a well-formed tree the walk returns. *)
Lemma expression_tree_walker_total node :
  well_formed node = true ->
  forall c, exists r, expression_tree_walker walker node c = inr r.
Proof.
  induction node as [| tag sc | tag sc slots IH | tag] using Node_nested_ind;
    intros Hwf c; try (simpl; eauto; fail); try discriminate.
  rewrite expression_tree_walker_composite. simpl in Hwf.
  apply andb_true_iff in Hwf as [_ Hwf].
  apply or_else_total; [eauto |].
  apply walk_list_total. intros x Hx.
  rewrite List.Forall_forall in IH. apply IH; [exact Hx |].
  eapply forallb_In; eassumption.
Qed.

Variable flags : Z.

Lemma query_tree_walker_eq sc s1 s2 s3 s4 s5 s6 s7 s8 cteList rtable context :
  query_tree_walker walker flags
    (NComposite T_Query sc [s1; s2; s3; s4; s5; s6; s7; s8; cteList; rtable])
    context
  = or_else (inr (walker (NComposite T_Query sc
               [s1; s2; s3; s4; s5; s6; s7; s8; cteList; rtable]) context))
      (fun context =>
      or_else (expression_tree_walker walker s1 context) (fun context =>
      or_else (expression_tree_walker walker s2 context) (fun context =>
      or_else (expression_tree_walker walker s3 context) (fun context =>
      or_else (expression_tree_walker walker s4 context) (fun context =>
      or_else (expression_tree_walker walker s5 context) (fun context =>
      or_else (expression_tree_walker walker s6 context) (fun context =>
      or_else (expression_tree_walker walker s7 context) (fun context =>
      or_else (expression_tree_walker walker s8 context) (fun context =>
      or_else
        (if has_flag flags QTW_IGNORE_CTE_SUBQUERIES then skipped context
         else walk_entries (walk_cte (query_tree_walker walker flags))
                cteList context)
        (fun context =>
      if has_flag flags QTW_IGNORE_RANGE_TABLE then skipped context
      else range_table_walker walker flags rtable context)))))))))).
Proof. reflexivity. Qed.

Lemma query_shape_inv slots :
  query_shape slots = true ->
  exists s1 s2 s3 s4 s5 s6 s7 s8 cteList rtable,
    slots = [s1; s2; s3; s4; s5; s6; s7; s8; cteList; rtable]
    /\ entries_shape cte_shape cteList = true
    /\ entries_shape rte_shape rtable = true.
Proof.
  unfold query_shape.
  do 10 (destruct slots as [| ? slots]; [discriminate |]).
  destruct slots; [| discriminate].
  intros H. apply andb_true_iff in H as [H1 H2].
  repeat eexists; eauto.
Qed.

Lemma walk_entries_total (f : Node -> C -> walked C) ok list :
  entries_shape ok list = true ->
  (forall entries sc x,
      list = NComposite T_List sc entries -> In x entries ->
      ok x = true -> forall c, exists r, f x c = inr r) ->
  forall c, exists r, walk_entries f list c = inr r.
Proof.
  intros Hs Hf c. destruct list as [| | tag sc entries |]; simpl in *;
    try discriminate.
  - unfold skipped. eauto.
  - destruct tag; try discriminate.
    apply walk_list_total. intros x Hx. eapply Hf; eauto.
    eapply forallb_In; eassumption.
Qed.

Lemma In_preorder_self node : node <> NNull -> In node (preorder node).
Proof. destruct node; simpl; intros H; auto; congruence. Qed.

Lemma In_descendants_child tag sc slots child m :
  In child slots -> In m (preorder child) ->
  In m (descendants (NComposite tag sc slots)).
Proof. intros Hc Hm. simpl. apply in_flat_map. eauto. Qed.

Lemma In_preorder_child tag sc slots child m :
  In child slots -> In m (preorder child) ->
  In m (preorder (NComposite tag sc slots)).
Proof. intros Hc Hm. simpl. right. apply in_flat_map. eauto. Qed.

Lemma is_query_not_null q : is_query q = true -> q <> NNull.
Proof. destruct q; simpl; congruence. Qed.

Lemma well_formed_child tag sc slots child :
  well_formed (NComposite tag sc slots) = true -> In child slots ->
  well_formed child = true.
Proof.
  simpl. intros H Hc. apply andb_true_iff in H as [_ H].
  eapply forallb_In; eassumption.
Qed.

(** On a well-formed query the walk returns, whatever the flags. *)
Lemma query_tree_walker_total query :
  well_formed query = true -> is_query query = true ->
  forall c, exists r, query_tree_walker walker flags query c = inr r.
Proof.
  induction query as [query IH] using Node_deep_ind. intros Hwf Hq c.
  destruct query as [| | tag sc slots |]; try discriminate.
  destruct tag; try discriminate.
  pose proof Hwf as Hwf'. simpl in Hwf'.
  apply andb_true_iff in Hwf' as [Hshape Hslots].
  apply query_shape_inv in Hshape
    as (s1 & s2 & s3 & s4 & s5 & s6 & s7 & s8 & cteList & rtable & -> & Hc & Hr).
  assert (Hchild : forall x,
            In x [s1; s2; s3; s4; s5; s6; s7; s8; cteList; rtable] ->
            well_formed x = true).
  { intros x Hx. eapply forallb_In; eassumption. }
  rewrite query_tree_walker_eq.
  repeat (apply or_else_total;
          [first [ solve [eauto]
                 | apply expression_tree_walker_total, Hchild; simpl; tauto
                 | idtac ]
          | intros ?]).
  - (* the CTE list *)
    destruct (has_flag flags QTW_IGNORE_CTE_SUBQUERIES);
      [unfold skipped; eauto |].
    eapply walk_entries_total; [exact Hc |].
    intros entries sc' cte -> Hcte Hcs c'.
    destruct cte as [| | tag sc'' cslots |]; try discriminate.
    destruct tag; try discriminate.
    destruct cslots as [| ctequery [| ? ?]]; try discriminate.
    simpl in Hcs |- *.
    assert (Hwl : well_formed (NComposite T_List sc' entries) = true)
      by (apply Hchild; simpl; tauto).
    pose proof (well_formed_child _ _ _ _ Hwl Hcte) as Hwc.
    apply IH.
    + eapply In_descendants_child with (child := NComposite T_List sc' entries);
        [simpl; tauto |].
      eapply In_preorder_child; [exact Hcte |].
      eapply In_preorder_child; [now left |].
      apply In_preorder_self, is_query_not_null, Hcs.
    + eapply well_formed_child; [exact Hwc | now left].
    + exact Hcs.
  - (* the range table *)
    destruct (has_flag flags QTW_IGNORE_RANGE_TABLE);
      [unfold skipped; eauto |].
    unfold range_table_walker.
    eapply walk_entries_total; [exact Hr |].
    intros entries sc' rte -> Hrte Hrs c'.
    assert (Hwl : well_formed (NComposite T_List sc' entries) = true)
      by (apply Hchild; simpl; tauto).
    pose proof (well_formed_child _ _ _ _ Hwl Hrte) as Hwr.
    unfold walk_rte. apply or_else_total.
    { destruct (has_flag flags QTW_EXAMINE_RTES); unfold skipped; eauto. }
    intros c''.
    destruct rte as [| | tag sc'' rslots |]; try discriminate.
    destruct tag as [| | | | | | | | | | | | | | | kind]; try discriminate.
    destruct kind; destruct rslots as [| x [| ? ?]]; try discriminate;
      try (unfold skipped; eauto; fail);
      try (apply expression_tree_walker_total;
           eapply well_formed_child; [exact Hwr | now left]).
    { simpl in Hrs.
      destruct (has_flag flags QTW_IGNORE_RT_SUBQUERIES);
        [unfold skipped; eauto |].
      apply IH.
      + eapply In_descendants_child
          with (child := NComposite T_List sc' entries); [simpl; tauto |].
        eapply In_preorder_child; [exact Hrte |].
        eapply In_preorder_child; [now left |].
        apply In_preorder_self, is_query_not_null, Hrs.
      + eapply well_formed_child; [exact Hwr | now left].
      + exact Hrs. }
    destruct (has_flag flags QTW_IGNORE_JOINALIASES);
      [unfold skipped; eauto |].
    apply expression_tree_walker_total.
    eapply well_formed_child; [exact Hwr | now left].
Qed.
End Walk_total.

(* ===================================================================== *)
(** * Part VII. Properties of the mutator                                 *)
(* ===================================================================== *)

Section Memory_facts.
Implicit Types h : memory.

Lemma deref_extends h h' p c :
  extends h h' -> deref h p = Some c -> deref h' p = Some c.
Proof.
  intros He. destruct p as [| i]; simpl; [discriminate |].
  intros H. eapply prefix_lookup_Some; eassumption.
Qed.


Lemma deref_is_Some h p : (0 < p <= length h)%nat -> is_Some (deref h p).
Proof.
  destruct p as [| i]; simpl; [lia |].
  intros H. apply lookup_lt_is_Some. lia.
Qed.

Lemma extends_length h h' : extends h h' -> (length h <= length h')%nat.
Proof. apply prefix_length. Qed.

Lemma extends_alloc h c : extends h (fst (alloc h c)).
Proof. simpl. now apply prefix_app_r. Qed.

Lemma deref_alloc h c : deref (fst (alloc h c)) (snd (alloc h c)) = Some c.
Proof.
  unfold alloc. cbn [fst snd deref]. now apply list_lookup_middle.
Qed.


Lemma load_extends depth h h' p t :
  extends h h' -> load depth h p = Some t -> load depth h' p = Some t.
Proof.
  intros He. revert p t. induction depth as [| d IH]; intros p t; simpl;
    [discriminate |].
  destruct p as [| i]; [auto |].
  destruct (deref h (S i)) as [c |] eqn:E; [| discriminate].
  rewrite (deref_extends _ _ _ _ He E).
  destruct c as [| tag sc slots |]; auto.
  destruct (mapM (load d h) slots) as [ts |] eqn:Em; [| discriminate].
  intros H. rewrite <- H. f_equal.
  apply mapM_Some in Em. 
  assert (Hm : mapM (load d h') slots = Some ts).
  { apply mapM_Some. eapply Forall2_impl; [exact Em |]. auto. }
  now rewrite Hm.
Qed.

Lemma footprint_child depth h p tag sc slots child a :
  p <> O -> deref h p = Some (CComposite tag sc slots) ->
  In child slots -> In a (footprint depth h child) ->
  In a (footprint (S depth) h p).
Proof.
  intros Hp Hd Hc Ha. simpl. destruct p as [| i]; [congruence |].
  rewrite Hd. right. apply in_flat_map. eauto.
Qed.

Lemma footprint_stable h h' p :
  (forall depth a, In a (footprint depth h p) -> (a <= length h)%nat) ->
  extends h h' ->
  forall depth, footprint depth h' p = footprint depth h p.
Proof.
  intros Hclosed He depth. revert p Hclosed.
  induction depth as [| d IH]; intros p Hclosed; simpl; [reflexivity |].
  destruct p as [| i]; [reflexivity |]. f_equal.
  assert (Hv : (0 < S i <= length h)%nat).
  { split; [lia |]. apply (Hclosed 1%nat). simpl. now left. }
  destruct (deref_is_Some h (S i) Hv) as [c Hc].
  rewrite Hc, (deref_extends _ _ _ _ He Hc).
  destruct c as [| tag sc slots |]; auto.
  induction slots as [| s slots IHs] in Hc, Hclosed |- *; simpl;
    [reflexivity |].
  f_equal.
  - apply IH. intros d' a Ha. apply (Hclosed (S d')).
    apply (footprint_child d' h (S i) tag sc (s :: slots) s a);
      [discriminate | exact Hc | now left | exact Ha].
  - clear IHs.
    assert (Hall : forall s', In s' slots ->
              footprint d h' s' = footprint d h s').
    { intros s' Hs'. apply IH. intros d' a Ha. apply (Hclosed (S d')).
      apply (footprint_child d' h (S i) tag sc (s :: slots) s' a);
        [discriminate | exact Hc | now right | exact Ha]. }
    clear - Hall. induction slots as [| s' slots IHs]; simpl; auto.
    rewrite Hall by now left. f_equal. apply IHs.
    intros s'' Hs''. apply Hall. now right.
Qed.

Lemma fresh_in_extends lo h h' p :
  fresh_in lo h p -> extends h h' -> fresh_in lo h' p.
Proof.
  intros Hf He depth a Ha.
  rewrite (footprint_stable h h' p) in Ha; [| | exact He].
  - apply Hf in Ha. apply extends_length in He. lia.
  - intros d' a' Ha'. apply Hf in Ha'. lia.
Qed.

Lemma fresh_in_lower lo lo' h p :
  fresh_in lo h p -> (lo' <= lo)%nat -> fresh_in lo' h p.
Proof. intros Hf Hl depth a Ha. apply Hf in Ha. lia. Qed.

Lemma fresh_in_null lo h : fresh_in lo h O.
Proof. intros [| d] a; simpl; tauto. Qed.
End Memory_facts.

Lemma Node_eqb_refl t : Node_eqb t t = true.
Proof.
  induction t as [| tag sc | tag sc slots IH | tag] using Node_nested_ind;
    simpl.
  - reflexivity.
  - rewrite bool_decide_eq_true_2 by reflexivity. now rewrite Z.eqb_refl.
  - rewrite bool_decide_eq_true_2 by reflexivity. rewrite Z.eqb_refl. simpl.
    induction IH as [| child l Hc _ IHl]; simpl; [reflexivity |].
    now rewrite Hc, IHl.
  - apply Z.eqb_refl.
Qed.

Section Mutate_facts.
Context {C : Type} (mutator : mutator_fn C).

Lemma fresh_in_new_leaf lo h tag sc :
  (lo <= length h)%nat ->
  fresh_in lo (h ++ [CLeaf tag sc]) (S (length h)).
Proof.
  intros Hlo [| d] a; simpl; [tauto |].
  rewrite list_lookup_middle by reflexivity. simpl.
  rewrite length_app. simpl. intros [<- | []]. lia.
Qed.

Lemma fresh_in_new_unknown lo h tag :
  (lo <= length h)%nat ->
  fresh_in lo (h ++ [CUnknown tag]) (S (length h)).
Proof.
  intros Hlo [| d] a; simpl; [tauto |].
  rewrite list_lookup_middle by reflexivity. simpl.
  rewrite length_app. simpl. intros [<- | []]. lia.
Qed.

Lemma fresh_in_new_composite lo h tag sc slots :
  (lo <= length h)%nat ->
  Forall (fresh_in lo h) slots ->
  fresh_in lo (h ++ [CComposite tag sc slots]) (S (length h)).
Proof.
  intros Hlo Hs [| d] a; simpl; [tauto |].
  rewrite list_lookup_middle by reflexivity.
  rewrite length_app. simpl. intros [<- | Ha]; [lia |].
  apply in_flat_map in Ha as (s & Hs1 & Hs2).
  rewrite List.Forall_forall in Hs.
  pose proof (fresh_in_extends lo h (h ++ [CComposite tag sc slots]) s
                (Hs s Hs1) (prefix_app_r h h _ (reflexivity h))) as Hf.
  apply Hf in Hs2. rewrite length_app in Hs2. simpl in Hs2. lia.
Qed.

Lemma store_slots_fresh store slots :
  Forall (stores_fresh store) slots ->
  forall h,
    extends h (fst (store_slots store slots h))
    /\ Forall (fresh_in (length h) (fst (store_slots store slots h)))
              (snd (store_slots store slots h)).
Proof.
  induction 1 as [| child l Hc _ IHl]; intros h; simpl.
  - split; [reflexivity | constructor].
  - destruct (Hc h) as [He1 Hf1].
    destruct (store child h) as [h1 p]. cbn [fst snd] in He1, Hf1.
    destruct (IHl h1) as [He2 Hf2].
    destruct (store_slots store l h1) as [h2 ps]. cbn [fst snd] in *.
    split; [etransitivity; eassumption |].
    constructor.
    + now apply fresh_in_extends with (h := h1).
    + eapply Forall_impl; [exact Hf2 |]. intros x Hx.
      eapply fresh_in_lower; [exact Hx |]. now apply extends_length.
Qed.

Lemma store_tree_fresh t : stores_fresh store_tree t.
Proof.
  induction t as [| tag sc | tag sc slots IH | tag] using Node_nested_ind;
    intros h; simpl.
  - split; [reflexivity | apply fresh_in_null].
  - split; [now apply prefix_app_r | now apply fresh_in_new_leaf].
  - destruct (store_slots_fresh store_tree slots IH h) as [He Hf].
    destruct (store_slots store_tree slots h) as [h' ps].
    cbn [fst snd alloc] in *. split; [etransitivity; [exact He |];
                                      now apply prefix_app_r |].
    apply fresh_in_new_composite; [now apply extends_length | exact Hf].
  - split; [now apply prefix_app_r | now apply fresh_in_new_unknown].
Qed.

(** The call of the callback on a node the depth counter covers returns.
    A callback that declines leaves the memory as it is; the node of a
    callback that does not is made of new cells.  An identity-producing
    callback declines. *)
Lemma call_mutator_run depth node h c t :
  load depth h node = Some t ->
  exists r h1 c1,
    call_mutator mutator depth node (h, c) = inr (r, (h1, c1))
    /\ extends h h1
    /\ match r with
       | None => h1 = h
       | Some p => fresh_in (length h) h1 p
       end
    /\ (identity_producing mutator -> r = None).
Proof.
  intros Hl. unfold call_mutator. cbn [fst snd]. rewrite Hl.
  destruct (mutator t c) as [r c1] eqn:Ecb.
  destruct (Node_eqb r t) eqn:Eq.
  - exists None, h, c1.
    split; [reflexivity |]. split; [reflexivity |]. split; reflexivity.
  - destruct (store_tree_fresh r h) as [He Hf].
    destruct (store_tree r h) as [h1 p]. cbn [fst snd] in He, Hf.
    exists (Some p), h1, c1.
    split; [reflexivity |]. split; [exact He |]. split; [exact Hf |].
    intros Hid. destruct (Hid t c) as [c' E]. rewrite E in Ecb.
    inversion Ecb; subst. rewrite Node_eqb_refl in Eq. discriminate.
Qed.

Lemma expression_tree_mutator_unfold depth node st :
  expression_tree_mutator mutator (S depth) node st
  = match node with
    | O => inr (O, st)
    | _ =>
        match deref (fst st) node with
        | None => inl invalid_pointer
        | Some (CUnknown tag) => inl (unrecognized_node_type tag)
        | Some (CLeaf tag scalars) =>
            and_then (call_mutator mutator (S depth) node st) (fun r st1 =>
            match r with
            | Some r => inr (r, st1)
            | None => new_node (CLeaf tag scalars) st1
            end)
        | Some (CComposite tag scalars slots) =>
            and_then (call_mutator mutator (S depth) node st) (fun r st1 =>
            match r with
            | Some r => inr (r, st1)
            | None =>
                and_then
                  (mutate_list (expression_tree_mutator mutator depth) slots
                     st1)
                  (fun slots' st2 =>
                     new_node (CComposite tag scalars slots') st2)
            end)
        end
    end.
Proof. reflexivity. Qed.

Section Slots.
Variable depth : nat.
Hypothesis IH : forall node h c t,
  load depth h node = Some t -> all_recognized t = true ->
  exists node' h' c',
    expression_tree_mutator mutator depth node (h, c)
    = inr (node', (h', c'))
    /\ mutation_of mutator depth t h node' h'.

Lemma mutate_list_invariant slots :
  forall ts h c,
    Forall2 (fun p t => load depth h p = Some t) slots ts ->
    forallb all_recognized ts = true ->
    exists slots' h' c',
      mutate_list (expression_tree_mutator mutator depth) slots (h, c)
      = inr (slots', (h', c'))
      /\ extends h h'
      /\ Forall (fresh_in (length h) h') slots'
      /\ (identity_producing mutator ->
          Forall2 (fun p t => load depth h' p = Some t) slots' ts).
Proof.
  induction slots as [| p slots IHs]; intros ts h c Hl Hr.
  - inversion Hl; subst. exists [], h, c. simpl.
    repeat split; auto. reflexivity.
  - inversion Hl as [| ? t ? ts' Hp Hl']; subst. simpl in Hr.
    apply andb_true_iff in Hr as [Hr1 Hr2].
    destruct (IH p h c t Hp Hr1) as (p1 & h1 & c1 & E1 & He1 & Hf1 & Hi1).
    assert (Hl1 : Forall2 (fun p t => load depth h1 p = Some t) slots ts').
    { eapply Forall2_impl; [exact Hl' |]. intros x y.
      now apply load_extends. }
    destruct (IHs ts' h1 c1 Hl1 Hr2)
      as (slots' & h2 & c2 & E2 & He2 & Hf2 & Hi2).
    exists (p1 :: slots'), h2, c2. simpl. rewrite E1, E2.
    split; [reflexivity |].
    split; [etransitivity; eassumption |].
    split.
    + constructor.
      * now apply fresh_in_extends with (h := h1).
      * eapply Forall_impl; [exact Hf2 |]. intros x Hx.
        eapply fresh_in_lower; [exact Hx |].
        now apply extends_length.
    + intros Hid. constructor; [| now apply Hi2].
      apply load_extends with (h := h1); auto.
Qed.
End Slots.

(** The mutation of a tree of recognized kinds returns, given a depth
    counter that covers the tree, whatever the callback. *)
Lemma expression_tree_mutator_invariant depth :
  forall node h c t,
    load depth h node = Some t -> all_recognized t = true ->
    exists node' h' c',
      expression_tree_mutator mutator depth node (h, c)
      = inr (node', (h', c'))
      /\ mutation_of mutator depth t h node' h'.
Proof.
  induction depth as [| d IH]; intros node h c t Hload Hrec;
    [discriminate |].
  rewrite expression_tree_mutator_unfold.
  destruct (call_mutator_run (S d) node h c t Hload)
    as (r & h1 & c1 & Ecb & He & Hr & Hdecl).
  simpl in Hload. cbn [fst]. destruct node as [| i].
  { inversion Hload; subst. exists O, h, c.
    split; [reflexivity |]. split; [reflexivity |].
    split; [apply fresh_in_null | reflexivity]. }
  remember (S i) as node eqn:Hnode.
  destruct (deref h node) as [[tag sc | tag sc slots | tag] |] eqn:Ed;
    [| | | discriminate].
  - (* a leaf *)
    inversion Hload; subst t. clear Hload.
    rewrite Ecb. unfold and_then. destruct r as [r |].
    + exists r, h1, c1. split; [reflexivity |].
      split; [exact He |]. split; [exact Hr |].
      intros Hid. now specialize (Hdecl Hid).
    + subst h1. unfold new_node. cbn [fst snd alloc].
      exists (S (length h)), (h ++ [CLeaf tag sc]), c1.
      split; [reflexivity |]. split; [| split].
      * now apply prefix_app_r.
      * now apply fresh_in_new_leaf.
      * intros _. simpl. now rewrite list_lookup_middle.
  - (* a composite node *)
    destruct (mapM (load d h) slots) as [ts |] eqn:Em; [| discriminate].
    inversion Hload; subst t. clear Hload. simpl in Hrec.
    rewrite Ecb. unfold and_then at 1. destruct r as [r |].
    + exists r, h1, c1. split; [reflexivity |].
      split; [exact He |]. split; [exact Hr |].
      intros Hid. now specialize (Hdecl Hid).
    + subst h1. apply mapM_Some in Em.
      destruct (mutate_list_invariant d IH slots ts h c1 Em Hrec)
        as (slots' & h2 & c2 & E2 & He2 & Hf2 & Hi2).
      rewrite E2. unfold and_then, new_node. cbn [fst snd alloc].
      exists (S (length h2)), (h2 ++ [CComposite tag sc slots']), c2.
      split; [reflexivity |]. split; [| split].
      * etransitivity; [exact He2 | now apply prefix_app_r].
      * apply fresh_in_new_composite.
        -- now apply extends_length.
        -- exact Hf2.
      * intros Hid. simpl. rewrite list_lookup_middle by reflexivity.
        assert (Hm : mapM (load d (h2 ++ [CComposite tag sc slots'])) slots'
                     = Some ts).
        { apply mapM_Some. eapply Forall2_impl; [exact (Hi2 Hid) |].
          intros x y. apply load_extends. now apply prefix_app_r. }
        now rewrite Hm.
  - (* a kind without a case *)
    inversion Hload; subst t. discriminate.
Qed.
End Mutate_facts.

Section Returned_facts.
Context {C : Type} (mutator : mutator_fn C).



End Returned_facts.

Section QueryMutate_facts.
Context {C : Type} (mutator : mutator_fn C).

Lemma load_mono depth h p t :
  load depth h p = Some t -> load (S depth) h p = Some t.
Proof.
  revert p t. induction depth as [| d IH]; intros p t; [discriminate |].
  intros H. simpl in H. change (load (S (S d)) h p) with
    (match p with
     | O => Some NNull
     | _ => match deref h p with
            | None => None
            | Some (CLeaf tag scalars) => Some (NLeaf tag scalars)
            | Some (CComposite tag scalars slots) =>
                NComposite tag scalars <$> mapM (load (S d) h) slots
            | Some (CUnknown tag) => Some (NUnknown tag)
            end
     end).
  destruct p as [| i]; [exact H |].
  destruct (deref h (S i)) as [[| tag sc slots |] |]; try exact H.
  destruct (mapM (load d h) slots) as [ts |] eqn:Em; [| discriminate].
  apply mapM_Some in Em.
  assert (Hm : mapM (load (S d) h) slots = Some ts).
  { apply mapM_Some. eapply Forall2_impl; [exact Em |]. auto. }
  rewrite Hm. exact H.
Qed.

Lemma load_le d d' h p t :
  (d <= d')%nat -> load d h p = Some t -> load d' h p = Some t.
Proof.
  induction 1 as [| d' _ IH]; [auto |]. intros H. now apply load_mono, IH.
Qed.

Lemma returns_expression depth h0 p t :
  load depth h0 p = Some t -> all_recognized t = true ->
  returns (expression_tree_mutator mutator depth) h0 p.
Proof.
  intros Hl Hr h c He.
  destruct (expression_tree_mutator_invariant mutator depth p h c t)
    as (r & h' & c' & E & He' & _); auto.
  - eapply load_extends; eassumption.
  - eauto.
Qed.

Lemma well_formed_all_recognized t :
  well_formed t = true -> all_recognized t = true.
Proof.
  induction t as [| tag sc | tag sc slots IH | tag] using Node_nested_ind;
    simpl; auto.
  intros H. apply andb_true_iff in H as [_ H].
  apply forallb_forall. intros x Hx. rewrite List.Forall_forall in IH.
  apply IH; [exact Hx |]. eapply forallb_In; eassumption.
Qed.

Lemma returns_copy depth h0 p t :
  load depth h0 p = Some t -> all_recognized t = true ->
  returns (C := C) (copy_tree depth) h0 p.
Proof.
  intros Hl Hr h c He. unfold copy_tree.
  destruct (expression_tree_mutator_invariant identity_mutator depth p h c t)
    as (r & h' & c' & E & He' & _); auto.
  - eapply load_extends; eassumption.
  - eauto.
Qed.

Lemma mutate_list_returns (f : addr -> mstate C -> mutated C) h0 l :
  (forall p, In p l -> returns f h0 p) ->
  forall h c, extends h0 h ->
    exists l' h' c', mutate_list f l (h, c) = inr (l', (h', c'))
                     /\ extends h h'.
Proof.
  induction l as [| p l IH]; intros Hf h c He; simpl.
  - exists [], h, c. split; reflexivity.
  - destruct (Hf p (or_introl eq_refl) h c He) as (r & h1 & c1 & E & He1).
    rewrite E.
    destruct (IH (fun q Hq => Hf q (or_intror Hq)) h1 c1
                 (transitivity He He1))
      as (l' & h2 & c2 & E2 & He2).
    rewrite E2. exists (r :: l'), h2, c2.
    split; [reflexivity | etransitivity; eassumption].
Qed.

Lemma new_node_allocated cell h (c : C) :
  exists r h' c', new_node cell (h, c) = inr (r, (h', c')) /\ extends h h'.
Proof.
  exists (S (length h)), (h ++ [cell]), c. split; [reflexivity |].
  now apply prefix_app_r.
Qed.

Lemma new_node_returns cell h (c : C) :
  exists r h', new_node cell (h, c) = inr (r, (h', c)) /\ extends h h'.
Proof.
  exists (S (length h)), (h ++ [cell]). split; [reflexivity |].
  now apply prefix_app_r.
Qed.

(** A step followed by the allocation of the node that holds its
    result. *)
Lemma and_then_new_node {A} (r : res (A * mstate C)) (mk : A -> cell) h :
  (exists a h' c', r = inr (a, (h', c')) /\ extends h h') ->
  exists p h' c',
    and_then r (fun a st => new_node (mk a) st) = inr (p, (h', c'))
    /\ extends h h'.
Proof.
  intros (a & h1 & c1 & -> & He). simpl.
  destruct (new_node_returns (mk a) h1 c1) as (p & h2 & E & He2).
  exists p, h2, c1. split; [exact E | etransitivity; eassumption].
Qed.

Lemma Forall2_In_l {A B} (R : A -> B -> Prop) l k x :
  Forall2 R l k -> In x l -> exists y, In y k /\ R x y.
Proof.
  induction 1 as [| a b l k Hab _ IH]; simpl; [tauto |].
  intros [<- | Hx]; [eauto |]. destruct (IH Hx) as (y & Hy & Hr). eauto.
Qed.

Lemma load_composite_inv depth h p tag sc ts :
  load depth h p = Some (NComposite tag sc ts) ->
  exists d slots,
    depth = S d /\ deref h p = Some (CComposite tag sc slots)
    /\ Forall2 (fun q t => load d h q = Some t) slots ts.
Proof.
  destruct depth as [| d]; [discriminate |]. simpl.
  destruct p as [| i]; [discriminate |].
  destruct (deref h (S i)) as [[| tag' sc' slots |] |]; try discriminate.
  destruct (mapM (load d h) slots) as [ts' |] eqn:Em; [| discriminate].
  simpl. intros H. inversion H; subst.
  exists d, slots. apply mapM_Some in Em. auto.
Qed.

Lemma load_null_inv depth h p : load depth h p = Some NNull -> p = O.
Proof.
  destruct depth as [| d]; [discriminate |]. simpl.
  destruct p as [| i]; [reflexivity |].
  destruct (deref h (S i)) as [[| tag' sc' slots |] |]; try discriminate.
  destruct (mapM (load d h) slots); discriminate.
Qed.

Lemma returns_entries (f : addr -> mstate C -> mutated C) ok depth h0 list t :
  load depth h0 list = Some t ->
  entries_shape ok t = true ->
  (forall d sc tes e te,
      depth = S d -> t = NComposite T_List sc tes ->
      In te tes -> load d h0 e = Some te -> ok te = true ->
      returns f h0 e) ->
  returns (mutate_entries f) h0 list.
Proof.
  intros Hl Hs Hf h c He. unfold mutate_entries.
  destruct t as [| | tag sc tes |]; try discriminate.
  - apply load_null_inv in Hl as ->. exists O, h, c.
    split; reflexivity.
  - destruct tag; try discriminate. simpl in Hs.
    apply load_composite_inv in Hl as (d & entries & -> & Hd & Hes).
    destruct list as [| i]; [discriminate |].
    cbn [fst]. rewrite (deref_extends _ _ _ _ He Hd).
    apply and_then_new_node with (mk := fun es => CComposite T_List sc es).
    apply mutate_list_returns with (h0 := h0); [| exact He].
    intros e Hin.
    destruct (Forall2_In_l _ _ _ _ Hes Hin) as (te & Hte & Hle).
    eapply Hf; eauto. eapply forallb_In; eassumption.
Qed.

Lemma allocated_and_then {A B} (x : res (A * mstate C))
    (k : A -> mstate C -> res (B * mstate C)) h :
  allocated h x ->
  (forall a h' c', extends h h' -> allocated h' (k a (h', c'))) ->
  allocated h (and_then x k).
Proof.
  intros (a & h1 & c1 & -> & He) Hk. simpl.
  destruct (Hk a h1 c1 He) as (b & h2 & c2 & E & He2).
  exists b, h2, c2. split; [exact E | etransitivity; eassumption].
Qed.

Lemma returned_and_then {A} flags (x : res (A * mstate C))
    (k : A -> mstate C -> mutated C) h :
  allocated h x ->
  (forall a h' c', extends h h' -> returned flags h' (k a (h', c'))) ->
  returned flags h (and_then x k).
Proof.
  intros (a & h1 & c1 & -> & He) Hk. simpl.
  destruct (Hk a h1 c1 He) as (b & h2 & c2 & E & He2).
  exists b, h2, c2. split; [exact E |].
  intros Hf. etransitivity; [exact He | auto].
Qed.

Lemma nested_flags_copy flags :
  has_flag (nested_flags flags) QTW_DONT_COPY_QUERY = false.
Proof.
  unfold has_flag, nested_flags. rewrite <- Z.land_assoc.
  rewrite (Z.land_comm (Z.lnot _)), Z.land_lnot_diag, Z.land_0_r.
  reflexivity.
Qed.

Section Level.
Variable nested : Z -> addr -> mstate C -> mutated C.
Variable d : nat.
Variable h0 : memory.
Hypothesis Hnested : forall flags q t,
  load d h0 q = Some t -> well_formed t = true -> is_query t = true ->
  forall h c, extends h0 h -> returned flags h (nested flags q (h, c)).

Lemma nested_allocated flags q t :
  load d h0 q = Some t -> well_formed t = true -> is_query t = true ->
  returns (nested (nested_flags flags)) h0 q.
Proof.
  intros Hl Hw Hq h c He.
  destruct (Hnested (nested_flags flags) q t Hl Hw Hq h c He)
    as (r & h' & c' & E & He').
  exists r, h', c'. split; [exact E |]. apply He', nested_flags_copy.
Qed.

Lemma returns_cte flags d1 cte t :
  (d1 <= d)%nat ->
  load d1 h0 cte = Some t -> well_formed t = true ->
  cte_shape t = true ->
  returns (mutate_cte (nested (nested_flags flags))) h0 cte.
Proof.
  intros Hd Hl Hw Hs h c He. unfold mutate_cte.
  destruct t as [| | tag sc ts |]; try discriminate.
  destruct tag; try discriminate.
  destruct ts as [| tq [| ? ?]]; try discriminate. simpl in Hs.
  apply load_composite_inv in Hl as (d2 & slots & -> & Hderef & Hslots).
  inversion Hslots as [| q ? qs ? Hq Hnil]; subst.
  inversion Hnil; subst.
  cbn [fst]. rewrite (deref_extends _ _ _ _ He Hderef).
  apply and_then_new_node
    with (mk := fun q' => CComposite T_CommonTableExpr sc [q']).
  eapply nested_allocated; [| | exact Hs | exact He].
  - eapply load_le; [| exact Hq]. lia.
  - eapply well_formed_child; [exact Hw | now left].
Qed.

Lemma returns_rte flags d1 rte t :
  (d1 <= d)%nat ->
  load d1 h0 rte = Some t -> well_formed t = true ->
  rte_shape t = true ->
  returns (mutate_rte mutator flags (nested (nested_flags flags)) d)
          h0 rte.
Proof.
  intros Hd Hl Hw Hs.
  assert (Hcontents : returns
            (mutate_rte_contents mutator flags
               (nested (nested_flags flags)) d) h0 rte).
  { intros h c He. unfold mutate_rte_contents.
    destruct t as [| | tag sc ts |]; try discriminate.
    destruct tag as [| | | | | | | | | | | | | | | kind];
      try discriminate.
    apply load_composite_inv in Hl as (d2 & slots & -> & Hderef & Hslots).
    cbn [fst]. rewrite (deref_extends _ _ _ _ He Hderef).
    destruct kind; destruct ts as [| tx [| ? ?]]; try discriminate;
      inversion Hslots as [| x ? xs ? Hx Hnil]; subst;
      try inversion Hnil; subst.
    - apply new_node_allocated.
    - (* a subquery *)
      apply and_then_new_node
        with (mk := fun q' =>
                      CComposite (T_RangeTblEntry RTE_SUBQUERY) sc [q']).
      assert (Hlx : load d h0 x = Some tx)
        by (eapply load_le; [| exact Hx]; lia).
      assert (Hwx : well_formed tx = true)
        by (eapply well_formed_child; [exact Hw | now left]).
      destruct (has_flag flags QTW_IGNORE_RT_SUBQUERIES).
      + eapply returns_copy; eauto using well_formed_all_recognized.
      + eapply nested_allocated; eauto.
    - (* a join *)
      apply and_then_new_node
        with (mk := fun a' =>
                      CComposite (T_RangeTblEntry RTE_JOIN) sc [a']).
      assert (Hlx : load d h0 x = Some tx)
        by (eapply load_le; [| exact Hx]; lia).
      assert (Hwx : all_recognized tx = true).
      { apply well_formed_all_recognized.
        eapply well_formed_child; [exact Hw | now left]. }
      destruct (has_flag flags QTW_IGNORE_JOINALIASES).
      + eapply returns_copy; eauto.
      + eapply returns_expression; eauto.
    - (* a function *)
      apply and_then_new_node
        with (mk := fun a' =>
                      CComposite (T_RangeTblEntry RTE_FUNCTION) sc [a']).
      eapply returns_expression; [| | exact He].
      + eapply load_le; [| exact Hx]. lia.
      + apply well_formed_all_recognized.
        eapply well_formed_child; [exact Hw | now left].
    - (* VALUES *)
      apply and_then_new_node
        with (mk := fun a' =>
                      CComposite (T_RangeTblEntry RTE_VALUES) sc [a']).
      eapply returns_expression; [| | exact He].
      + eapply load_le; [| exact Hx]. lia.
      + apply well_formed_all_recognized.
        eapply well_formed_child; [exact Hw | now left].
    - apply new_node_allocated. }
  intros h c He. unfold mutate_rte.
  destruct (has_flag flags QTW_EXAMINE_RTES); [| now apply Hcontents].
  assert (Hlr : load d h rte = Some t).
  { eapply load_extends; [exact He |].
    eapply load_le; [exact Hd | exact Hl]. }
  destruct (call_mutator_run mutator d rte h c t Hlr)
    as (r & h1 & c1 & Ecb & He1 & _).
  rewrite Ecb. unfold and_then. destruct r as [r |].
  - exists r, h1, c1. split; [reflexivity | exact He1].
  - destruct (Hcontents h1 c1 (transitivity He He1))
      as (r' & h2 & c2 & E & He2).
    exists r', h2, c2. split; [exact E | etransitivity; eassumption].
Qed.

Lemma returns_cte_list flags p t :
  load d h0 p = Some t -> well_formed t = true ->
  entries_shape cte_shape t = true ->
  returns (mutate_entries (mutate_cte (nested (nested_flags flags))))
          h0 p.
Proof.
  intros Hl Hw Hs. eapply returns_entries; [exact Hl | exact Hs |].
  intros d1 sc tes e te Hd -> Hte Hle Hok.
  eapply returns_cte with (d1 := d1); [lia | exact Hle | | exact Hok].
  eapply well_formed_child; eassumption.
Qed.

Lemma returns_rte_list flags p t :
  load d h0 p = Some t -> well_formed t = true ->
  entries_shape rte_shape t = true ->
  returns
    (mutate_entries (mutate_rte mutator flags
                       (nested (nested_flags flags)) d))
    h0 p.
Proof.
  intros Hl Hw Hs. eapply returns_entries; [exact Hl | exact Hs |].
  intros d1 sc tes e te Hd -> Hte Hle Hok.
  eapply returns_rte with (d1 := d1); [lia | exact Hle | | exact Hok].
  eapply well_formed_child; eassumption.
Qed.

(** One level of the mutation of a well-formed query returns, whatever
    the flags. *)
Lemma mutate_query_returned flags q t :
  load (S d) h0 q = Some t -> well_formed t = true ->
  is_query t = true ->
  forall h c, extends h0 h ->
    returned flags h (mutate_query mutator nested d flags q (h, c)).
Proof.
  intros Hl Hw Hq h c He.
  destruct t as [| | tag sc ts |]; try discriminate.
  destruct tag; try discriminate.
  pose proof Hw as Hw'. simpl in Hw'.
  apply andb_true_iff in Hw' as [Hshape Hts].
  apply query_shape_inv in Hshape
    as (t1 & t2 & t3 & t4 & t5 & t6 & t7 & t8 & t9 & t10 & -> & Hc & Hr).
  pose proof (load_extends _ _ _ _ _ He Hl) as Hlq.
  apply load_composite_inv in Hl as (d' & slots & Hd & Hderef & Hslots).
  injection Hd as <-.
  repeat match goal with
         | H : Forall2 _ _ (_ :: _) |- _ =>
             let p := fresh "p" in
             let Hp := fresh "Hp" in
             let Hrest := fresh "Hrest" in
             inversion H as [| p ? ? ? Hp Hrest]; subst; clear H
         | H : Forall2 _ _ [] |- _ => inversion H; subst; clear H
         end.
  assert (Hwf : forall x,
            In x [t1; t2; t3; t4; t5; t6; t7; t8; t9; t10] ->
            well_formed x = true).
  { intros x Hx. eapply forallb_In; eassumption. }
  assert (Hrec : forall x,
            In x [t1; t2; t3; t4; t5; t6; t7; t8; t9; t10] ->
            all_recognized x = true).
  { intros x Hx. apply well_formed_all_recognized, Hwf, Hx. }
  unfold mutate_query. cbn [fst].
  rewrite (deref_extends _ _ _ _ He Hderef).
  destruct (call_mutator_run mutator (S d) q h c _ Hlq)
    as (r & h1 & c1 & Ecb & He1 & _).
  rewrite Ecb. unfold and_then at 1. destruct r as [r |].
  { exists r, h1, c1. split; [reflexivity | auto]. }
  assert (Hstart : extends h0 h1) by (etransitivity; eassumption).
  assert (Hgoal : forall x,
            returned (C := C) flags h1 x -> returned flags h x).
  { intros x (r' & h' & c' & E & He'). exists r', h', c'.
    split; [exact E |]. intros Hf. etransitivity; [exact He1 | auto]. }
  apply Hgoal. clear Hgoal Ecb He1 He Hlq c h.
  revert Hstart. generalize h1 c1. clear h1 c1.
  intros h c He.
  repeat (apply returned_and_then;
          [ eapply returns_expression;
              [eassumption | apply Hrec; simpl; tauto | exact He]
          | let a := fresh "a" in
            let h' := fresh "h" in
            let c' := fresh "c" in
            let He' := fresh "He" in
            intros a h' c' He';
            apply (fun H => transitivity (R := extends) H He') in He;
            clear He' c; revert He; generalize h' c';
            clear h h' c'; intros h c He ]).
  apply returned_and_then.
  { destruct (has_flag flags QTW_IGNORE_CTE_SUBQUERIES).
    - eapply returns_copy;
        [eassumption | apply Hrec; simpl; tauto | exact He].
    - eapply returns_cte_list;
        [eassumption | apply Hwf; simpl; tauto | exact Hc | exact He]. }
  intros cteList' h' c' He'.
  apply (fun H => transitivity (R := extends) H He') in He.
  apply returned_and_then.
  { destruct (has_flag flags QTW_IGNORE_RANGE_TABLE).
    - eapply returns_copy;
        [eassumption | apply Hrec; simpl; tauto | exact He].
    - eapply returns_rte_list;
        [eassumption | apply Hwf; simpl; tauto | exact Hr | exact He]. }
  intros rtable' h'' c'' He''.
  destruct (has_flag flags QTW_DONT_COPY_QUERY) eqn:Ecopy.
  - eexists _, _, _. split; [reflexivity | intros Hx; congruence].
  - destruct (new_node_allocated
                (CComposite T_Query sc
                   [a; a0; a1; a2; a3; a4; a5; a6; cteList'; rtable'])
                h'' c'') as (r & h3 & c3 & E & He3).
    exists r, h3, c3. split; [exact E | auto].
Qed.
End Level.

(** The mutation of a well-formed query returns, whatever the flags,
    given a depth counter that covers the query. *)
Lemma query_tree_mutator_returned depth :
  forall flags h0 q t,
    load depth h0 q = Some t -> well_formed t = true ->
    is_query t = true ->
    forall h c, extends h0 h ->
      returned flags h (query_tree_mutator mutator depth flags q (h, c)).
Proof.
  induction depth as [| d IH]; intros flags h0 q t Hl Hw Hq h c He;
    [discriminate |].
  change (query_tree_mutator mutator (S d) flags q (h, c))
    with (mutate_query mutator (query_tree_mutator mutator d) d flags q
            (h, c)).
  eapply mutate_query_returned; eauto.
Qed.
End QueryMutate_facts.

Example Scenario_relabel_memory :
  Scenario.relabel_memory
  = [CLeaf T_Var 1; CLeaf T_Const 1; CComposite T_OpExpr 551 [1; 2]%nat;
     CComposite T_RelabelType 0 [3%nat]]
  /\ Scenario.relabel_root = 4%nat
  /\ load 3 Scenario.relabel_memory Scenario.relabel_root
     = Some Scenario.relabel.
Proof. repeat split. Qed.

Example Scenario_outer_loads :
  load 7 Scenario.outer_memory Scenario.outer_root = Some Scenario.outer
  /\ well_formed Scenario.outer = true.
Proof. split; reflexivity. Qed.

(** The end-to-end scenario of the spec: with QTW_IGNORE_RT_SUBQUERIES the
    walk visits a + 1 and not x; without it, both. *)
Example Scenario_walk :
  query_tree_walker (recording (fun _ => false)) QTW_IGNORE_RT_SUBQUERIES
    Scenario.outer []
  = inr (false,
         [Scenario.outer;
          Scenario.list [Scenario.target
                           (Scenario.plus (Scenario.var 1) (Scenario.const 1))];
          Scenario.target (Scenario.plus (Scenario.var 1) (Scenario.const 1));
          Scenario.plus (Scenario.var 1) (Scenario.const 1);
          Scenario.var 1; Scenario.const 1])
  /\ query_tree_walker (recording (fun _ => false)) 0 Scenario.outer []
     = inr (false,
         [Scenario.outer;
          Scenario.list [Scenario.target
                           (Scenario.plus (Scenario.var 1) (Scenario.const 1))];
          Scenario.target (Scenario.plus (Scenario.var 1) (Scenario.const 1));
          Scenario.plus (Scenario.var 1) (Scenario.const 1);
          Scenario.var 1; Scenario.const 1;
          Scenario.inner;
          Scenario.list [Scenario.target (Scenario.var 1)];
          Scenario.target (Scenario.var 1);
          Scenario.var 1]).
Proof. split; reflexivity. Qed.


(* ===================================================================== *)
(** * Part VIII. The claims about the traversal engine                    *)
(* ===================================================================== *)

Section Flags.
Lemma has_flag_lor a b f :
  has_flag (Z.lor a b) f = has_flag a f || has_flag b f.
Proof.
  unfold has_flag. rewrite Z.land_lor_distr_l.
  destruct (Z.land a f =? 0) eqn:Ea, (Z.land b f =? 0) eqn:Eb; simpl;
    rewrite ?Z.eqb_eq, ?Z.eqb_neq in *.
  - rewrite Ea, Eb. reflexivity.
  - apply negb_true_iff, Z.eqb_neq. rewrite Z.lor_eq_0_iff. tauto.
  - apply negb_true_iff, Z.eqb_neq. rewrite Z.lor_eq_0_iff. tauto.
  - apply negb_true_iff, Z.eqb_neq. rewrite Z.lor_eq_0_iff. tauto.
Qed.

Lemma has_flag_0 f : has_flag 0 f = false.
Proof. reflexivity. Qed.

Lemma QTW_flags_disjoint f g :
  In f QTW_flags -> In g QTW_flags ->
  has_flag f g = bool_decide (f = g).
Proof.
  unfold QTW_flags. simpl.
  intros Hf Hg.
  repeat match goal with
         | H : _ \/ _ |- _ => destruct H as [<- | H]
         | H : False |- _ => destruct H
         end; reflexivity.
Qed.

Lemma has_flag_or_flags l f :
  l ⊆ QTW_flags -> In f QTW_flags ->
  has_flag (or_flags l) f = bool_decide (f ∈ l).
Proof.
  intros Hl Hf. induction l as [| g l IH]; simpl.
  - reflexivity.
  - rewrite has_flag_lor, IH.
    + assert (Hg : In g QTW_flags).
      { apply list_elem_of_In, Hl. now left. }
      rewrite (QTW_flags_disjoint g f Hg Hf).
      destruct (decide (g = f)) as [-> | Hne].
      * rewrite bool_decide_eq_true_2 by reflexivity. simpl.
        symmetry. apply bool_decide_eq_true_2. now left.
      * rewrite (bool_decide_eq_false_2 (g = f)) by assumption. simpl.
        apply bool_decide_ext. rewrite elem_of_cons.
        split; [tauto |]. intros [-> | H]; [congruence | exact H].
    + intros x Hx. apply Hl. now right.
Qed.

Lemma QTW_flags_single_bit : Forall single_bit QTW_flags.
Proof.
  unfold QTW_flags.
  repeat constructor;
    [exists 0 | exists 1 | exists 2 | exists 3 | exists 4 | exists 5];
    split; (lia || reflexivity).
Qed.

Lemma QTW_flags_NoDup : NoDup QTW_flags.
Proof.
  apply (bool_decide_unpack _). vm_compute. exact I.
Qed.
End Flags.

(** C1. (a) Each of the six scope flags is one bit, and the six are
    distinct.  (b) QTW_IGNORE_RC_SUBQUERIES is the OR of the two
    subquery flags.  (c) Flags compose by OR: a flag is set in the OR of
    two flag words exactly when it is set in one of them, and an
    OR-combination of flags has exactly the flags it is made of.  (d) No
    OR-combination is an error: on a well-formed query the walk returns for
    every combination, and so does the mutation, whatever the callback,
    given a depth counter that covers the query. *)
Theorem QTW_flags_compose :
  (Forall single_bit QTW_flags /\ NoDup QTW_flags)
  /\ QTW_IGNORE_RC_SUBQUERIES
     = Z.lor QTW_IGNORE_RT_SUBQUERIES QTW_IGNORE_CTE_SUBQUERIES
  /\ (forall a b f,
         has_flag (Z.lor a b) f = has_flag a f || has_flag b f)
  /\ (forall l f,
         l ⊆ QTW_flags -> In f QTW_flags ->
         has_flag (or_flags l) f = bool_decide (f ∈ l))
  /\ (forall flags, QTW_combination flags ->
        (forall (C : Type) (walker : walker_fn C) query context,
            well_formed query = true -> is_query query = true ->
            exists r, query_tree_walker walker flags query context = inr r)
        /\ (forall (C : Type) (mutator : mutator_fn C) depth h query t c,
               load depth h query = Some t ->
               well_formed t = true -> is_query t = true ->
               exists r,
                 query_tree_mutator mutator depth flags query (h, c)
                 = inr r)).
Proof.
  split; [split; [apply QTW_flags_single_bit | apply QTW_flags_NoDup] |].
  split; [reflexivity |].
  split; [apply has_flag_lor |].
  split; [apply has_flag_or_flags |].
  intros flags _. split.
  - intros C walker query context Hwf Hq.
    now apply query_tree_walker_total.
  - intros C mutator depth h query t c Hl Hwf Hq.
    destruct (query_tree_mutator_returned mutator depth flags h query t
                Hl Hwf Hq h c (reflexivity h))
      as (r & h' & c' & E & _).
    eauto.
Qed.

Lemma QTW_flags_compose_witness :
  (exists r,
      query_tree_walker (recording (fun _ => false))
        (Z.lor QTW_IGNORE_RT_SUBQUERIES QTW_EXAMINE_RTES) Scenario.outer []
      = inr r)
  /\ (exists r,
         query_tree_mutator Scenario.zero_constants 7
           (Z.lor QTW_IGNORE_RT_SUBQUERIES QTW_EXAMINE_RTES)
           Scenario.outer_root (Scenario.outer_memory, tt)
         = inr r).
Proof.
  destruct QTW_flags_compose as (_ & _ & _ & _ & H).
  destruct (H (Z.lor QTW_IGNORE_RT_SUBQUERIES QTW_EXAMINE_RTES)) as [Hw Hm].
  { exists [QTW_IGNORE_RT_SUBQUERIES; QTW_EXAMINE_RTES]. split.
    - apply (bool_decide_unpack _). vm_compute. exact I.
    - reflexivity. }
  split.
  - apply Hw; reflexivity.
  - apply (Hm unit Scenario.zero_constants 7%nat Scenario.outer_memory
              Scenario.outer_root Scenario.outer tt).
    + reflexivity.
    + reflexivity.
    + reflexivity.
Defined.

Section First_match.
Context {A : Type} (p : A -> bool).

Lemma count_matching_one l :
  count_matching p l = 1%nat ->
  exists before m after,
    l = before ++ m :: after /\ p m = true
    /\ existsb p before = false /\ existsb p after = false.
Proof.
  unfold count_matching. induction l as [| x l IH]; simpl; [discriminate |].
  destruct (p x) eqn:Ex; simpl.
  - intros H. injection H as H. exists [], x, l. simpl.
    repeat split; auto.
    apply length_zero_iff_nil in H.
    destruct (existsb p l) eqn:El; [| reflexivity].
    apply existsb_exists in El as (y & Hy & Hp).
    assert (Hin : In y (List.filter p l)) by (apply filter_In; auto).
    rewrite H in Hin. destruct Hin.
  - intros H. destruct (IH H) as (before & m & after & -> & Hm & Hb & Ha).
    exists (x :: before), m, after. simpl. rewrite Ex. auto.
Qed.

Lemma upto_first before m after :
  existsb p before = false -> p m = true ->
  upto p (before ++ m :: after) = before ++ [m].
Proof.
  intros Hb Hm. rewrite upto_app, Hb. simpl. now rewrite Hm.
Qed.

Lemma existsb_first before m after :
  p m = true -> existsb p (before ++ m :: after) = true.
Proof.
  intros Hm. rewrite existsb_app. simpl. rewrite Hm.
  now rewrite orb_true_r.
Qed.
End First_match.

(** C2. (a) For every callback and every composite node the callback
    declines: when the children before some child all return false and that
    child returns true, the walk of the node returns true with the context
    that child left, whatever the later siblings are.  (b) With a predicate
    as callback, the walk returns whether some node of the tree satisfies
    it, and has visited exactly the nodes up to the first that does, in
    walk order.  (c) In particular, on a tree with exactly one node [m] that
    satisfies the predicate, the walk returns true and has visited the
    nodes before [m] and [m], none of those after it. *)
Theorem expression_tree_walker_short_circuit :
  (forall (C : Type) (walker : walker_fn C) tag scalars pre child post
          context context1 context2 context3,
      walker (NComposite tag scalars (pre ++ child :: post)) context
        = (false, context1) ->
      walk_list (expression_tree_walker walker) pre context1
        = inr (false, context2) ->
      expression_tree_walker walker child context2 = inr (true, context3) ->
      expression_tree_walker walker
        (NComposite tag scalars (pre ++ child :: post)) context
      = inr (true, context3))
  /\ (forall (p : Node -> bool) node visited,
         forallb recognized (upto p (preorder node)) = true ->
         expression_tree_walker (recording p) node visited
         = inr (existsb p (preorder node),
                visited ++ upto p (preorder node)))
  /\ (forall (p : Node -> bool) node,
         count_matching p (preorder node) = 1%nat ->
         forallb recognized (preorder node) = true ->
         exists before m after,
           preorder node = before ++ m :: after
           /\ p m = true
           /\ existsb p before = false /\ existsb p after = false
           /\ expression_tree_walker (recording p) node []
              = inr (true, before ++ [m])).
Proof.
  split; [intros; eapply walker_stops_at_first_true; eassumption |].
  split; [intros; now apply walk_recording |].
  intros p node Hone Hrec.
  destruct (count_matching_one p _ Hone)
    as (before & m & after & E & Hm & Hb & Ha).
  exists before, m, after. repeat split; auto.
  rewrite walk_recording.
  - rewrite E, (existsb_first p before m after Hm),
      (upto_first p before m after Hb Hm).
    reflexivity.
  - rewrite E, (upto_first p before m after Hb Hm).
    rewrite E, forallb_app in Hrec. apply andb_true_iff in Hrec as [H1 H2].
    rewrite forallb_app, H1. simpl in H2 |- *.
    apply andb_true_iff in H2 as [-> _]. reflexivity.
Qed.

Lemma expression_tree_walker_short_circuit_witness :
  expression_tree_walker (recording Scenario.is_const)
    (Scenario.plus (Scenario.plus (Scenario.var 1) (Scenario.const 7))
                   (Scenario.var 2)) []
  = inr (true,
         [Scenario.plus (Scenario.plus (Scenario.var 1) (Scenario.const 7))
                        (Scenario.var 2);
          Scenario.plus (Scenario.var 1) (Scenario.const 7);
          Scenario.var 1; Scenario.const 7])
  /\ expression_tree_walker (recording Scenario.is_const)
       (Scenario.plus (Scenario.const 7) (NUnknown 999)) []
     = inr (true,
            [Scenario.plus (Scenario.const 7) (NUnknown 999);
             Scenario.const 7]).
Proof.
  destruct expression_tree_walker_short_circuit as (Ha & Hb & Hc).
  split.
  - destruct (Hc Scenario.is_const
                (Scenario.plus
                   (Scenario.plus (Scenario.var 1) (Scenario.const 7))
                   (Scenario.var 2)) eq_refl eq_refl)
      as (before & m & after & E & Hm & Hbefore & Hafter & Hwalk).
    rewrite Hwalk. f_equal. f_equal.
    change (preorder (Scenario.plus
                        (Scenario.plus (Scenario.var 1) (Scenario.const 7))
                        (Scenario.var 2)))
      with ([Scenario.plus (Scenario.plus (Scenario.var 1) (Scenario.const 7))
                           (Scenario.var 2);
             Scenario.plus (Scenario.var 1) (Scenario.const 7);
             Scenario.var 1] ++ Scenario.const 7 :: [Scenario.var 2]) in E.
    destruct before as [| b0 [| b1 [| b2 [| b3 before]]]];
      simpl in E, Hbefore; inversion E; subst; try discriminate.
    reflexivity.
  - apply (Ha (list Node) (recording Scenario.is_const) T_OpExpr 551 []
              (Scenario.const 7) [NUnknown 999] []
              [Scenario.plus (Scenario.const 7) (NUnknown 999)]
              [Scenario.plus (Scenario.const 7) (NUnknown 999)]);
      reflexivity.
Defined.

Lemma identity_mutator_identity_producing {C} :
  identity_producing (identity_mutator (C := C)).
Proof. intros node c. now exists c. Qed.

(** C3. For every tree in memory that is of recognized kinds and within the
    depth counter, and every identity-producing callback, the mutation
    returns, and the tree at the address it returns is the tree it was
    given: the two are structurally equal. *)
Theorem expression_tree_mutator_identity
    {C : Type} (mutator : mutator_fn C) (depth : nat) (h : memory)
    (node : addr) (t : Node) (c : C) :
  identity_producing mutator ->
  load depth h node = Some t ->
  all_recognized t = true ->
  exists node' h' c',
    expression_tree_mutator mutator depth node (h, c) = inr (node', (h', c'))
    /\ load depth h' node' = Some t.
Proof.
  intros Hid Hl Hr.
  destruct (expression_tree_mutator_invariant mutator depth node h c t Hl Hr)
    as (node' & h' & c' & E & _ & _ & Hload).
  exists node', h', c'. split; [exact E | now apply Hload].
Qed.

Lemma expression_tree_mutator_identity_witness :
  exists node' h' c',
    expression_tree_mutator identity_mutator 3 Scenario.relabel_root
      (Scenario.relabel_memory, tt)
    = inr (node', (h', c'))
    /\ load 3 h' node' = Some Scenario.relabel.
Proof.
  apply (expression_tree_mutator_identity identity_mutator 3
           Scenario.relabel_memory Scenario.relabel_root Scenario.relabel tt).
  - apply identity_mutator_identity_producing.
  - reflexivity.
  - reflexivity.
Defined.




Example Scenario_strip_relabel :
  match expression_tree_mutator Scenario.strip_relabel 3
          Scenario.relabel_root (Scenario.relabel_memory, tt) with
  | inr (node', (h', _)) =>
      load 3 h' node' = Some (Scenario.plus (Scenario.var 1) (Scenario.const 1))
      /\ footprint 3 h' node' = [7; 5; 6]%nat
      /\ footprint 3 Scenario.relabel_memory Scenario.relabel_root
         = [4; 3; 1; 2]%nat
  | inl _ => False
  end.
Proof. vm_compute. repeat split; reflexivity. Qed.

Example Scenario_zero_constants :
  match expression_tree_mutator Scenario.zero_constants 3
          Scenario.relabel_root (Scenario.relabel_memory, tt) with
  | inr (node', (h', _)) =>
      load 3 h' node'
      = Some (NComposite T_RelabelType 0
                [Scenario.plus (Scenario.var 1) (Scenario.const 0)])
      /\ footprint 3 h' node' = [8; 7; 5; 6]%nat
  | inl _ => False
  end.
Proof. vm_compute. split; reflexivity. Qed.

(* ===================================================================== *)
(** * Part IX. Further properties of the sources                          *)
(* ===================================================================== *)

Section DefineOperator_loop.
Context {Catalog : Type} (svc : Services Catalog).
Implicit Types s : Backend Catalog.

(** The tests of the loop body on the name of [d], given the branch that
    takes it. *)
Ltac branch_of H :=
  unfold attribute_of, operator_attributes in H; simpl in H;
  repeat match type of H with
         | context [if defname_is svc ?d ?n then _ else _] =>
             let E := fresh "E" in
             destruct (defname_is svc d n) eqn:E; try discriminate H
         end;
  unfold DefineOperator_param;
  repeat match goal with
         | E : defname_is svc _ _ = _ |- _ => rewrite E; clear E
         end.

Lemma param_leftarg d v s :
  attribute_of svc d = Some "leftarg" ->
  DefineOperator_param svc d v s
  = match defGetTypeName svc d with
    | inl e => (inl e, s)
    | inr t => if setof t then (inl setof_error, s)
               else (inr (set_typeName1 v (Some t)), s)
    end.
Proof.
  intros H. branch_of H. unfold Cmd.bind, Cmd.lookup.
  destruct (defGetTypeName svc d) as [e | [n []]]; reflexivity.
Qed.

Lemma param_rightarg d v s :
  attribute_of svc d = Some "rightarg" ->
  DefineOperator_param svc d v s
  = match defGetTypeName svc d with
    | inl e => (inl e, s)
    | inr t => if setof t then (inl setof_error, s)
               else (inr (set_typeName2 v (Some t)), s)
    end.
Proof.
  intros H. branch_of H. unfold Cmd.bind, Cmd.lookup.
  destruct (defGetTypeName svc d) as [e | [n []]]; reflexivity.
Qed.

Lemma param_qualified_name d v s name :
  attribute_of svc d = Some name ->
  forall set,
    In (name, set)
       [("procedure", set_functionName); ("commutator", set_commutatorName);
        ("negator", set_negatorName); ("restrict", set_restrictionName);
        ("join", set_joinName)] ->
    DefineOperator_param svc d v s
    = match defGetQualifiedName svc d with
      | inl e => (inl e, s)
      | inr l => (inr (set v l), s)
      end.
Proof.
  intros H set Hin. simpl in Hin.
  repeat match type of Hin with
         | _ \/ _ => destruct Hin as [Hin | Hin]
         end; try contradiction;
    injection Hin as <- <-; branch_of H; unfold Cmd.bind, Cmd.lookup;
    destruct (defGetQualifiedName svc d); reflexivity.
Qed.

Lemma param_boolean d v s name :
  attribute_of svc d = Some name ->
  forall set,
    In (name, set) [("hashes", set_canHash); ("merges", set_canMerge)] ->
    DefineOperator_param svc d v s
    = match defGetBoolean svc d with
      | inl e => (inl e, s)
      | inr b => (inr (set v b), s)
      end.
Proof.
  intros H set Hin. simpl in Hin.
  repeat match type of Hin with
         | _ \/ _ => destruct Hin as [Hin | Hin]
         end; try contradiction;
    injection Hin as <- <-; branch_of H; unfold Cmd.bind, Cmd.lookup;
    destruct (defGetBoolean svc d); reflexivity.
Qed.

Lemma param_obsolete d v s name :
  attribute_of svc d = Some name ->
  In name ["sort1"; "sort2"; "ltcmp"; "gtcmp"] ->
  DefineOperator_param svc d v s = (inr (set_canMerge v true), s).
Proof.
  intros H Hin. simpl in Hin.
  repeat match type of Hin with
         | _ \/ _ => destruct Hin as [Hin | Hin]
         end; try contradiction; subst name; branch_of H; reflexivity.
Qed.

Lemma attribute_of_None d :
  attribute_of svc d = None <-> unrecognized_attribute svc d = true.
Proof.
  unfold attribute_of, unrecognized_attribute, operator_attributes. simpl.
  repeat match goal with
         | |- context [if defname_is svc d ?n then _ else _] =>
             destruct (defname_is svc d n); simpl; [split; discriminate |]
         end.
  split; reflexivity.
Qed.

Lemma attribute_of_In d name :
  attribute_of svc d = Some name -> In name operator_attributes.
Proof. intros H. apply find_some in H as [H _]. exact H. Qed.

End DefineOperator_loop.
Section DefineOperator_assignments.
Context {Catalog : Type} (svc : Services Catalog).
Implicit Types s : Backend Catalog.

(** What an iteration leaves of the loop variables: each is as it was unless
    the element is taken by a branch that assigns it. *)
Lemma param_frame d v s v' s' :
  DefineOperator_param svc d v s = (inr v', s') ->
  (attribute_of svc d <> Some "leftarg" -> typeName1 v' = typeName1 v)
  /\ (attribute_of svc d <> Some "rightarg" -> typeName2 v' = typeName2 v)
  /\ (attribute_of svc d <> Some "procedure" ->
      functionName v' = functionName v)
  /\ (attribute_of svc d <> Some "commutator" ->
      commutatorName v' = commutatorName v)
  /\ (attribute_of svc d <> Some "negator" -> negatorName v' = negatorName v)
  /\ (attribute_of svc d <> Some "restrict" ->
      restrictionName v' = restrictionName v)
  /\ (attribute_of svc d <> Some "join" -> joinName v' = joinName v)
  /\ (attribute_of svc d <> Some "hashes" -> canHash v' = canHash v)
  /\ ((forall name,
          In name ["merges"; "sort1"; "sort2"; "ltcmp"; "gtcmp"] ->
          attribute_of svc d <> Some name) ->
      canMerge v' = canMerge v)
  /\ (attribute_of svc d <> Some "merges" -> canMerge v = true ->
      canMerge v' = true).
Proof.
  destruct (attribute_of svc d) as [name |] eqn:Ea.
  - pose proof (attribute_of_In svc d name Ea) as Hin. simpl in Hin.
    repeat match type of Hin with
           | _ \/ _ => destruct Hin as [<- | Hin]
           | False => destruct Hin
           end.
    all: first
      [ rewrite (param_leftarg svc d v s Ea);
        destruct (defGetTypeName svc d) as [? | [? []]]
      | rewrite (param_rightarg svc d v s Ea);
        destruct (defGetTypeName svc d) as [? | [? []]]
      | (first
           [ rewrite (param_qualified_name svc d v s _ Ea set_functionName)
               by (simpl; tauto)
           | rewrite (param_qualified_name svc d v s _ Ea set_commutatorName)
               by (simpl; tauto)
           | rewrite (param_qualified_name svc d v s _ Ea set_negatorName)
               by (simpl; tauto)
           | rewrite (param_qualified_name svc d v s _ Ea set_restrictionName)
               by (simpl; tauto)
           | rewrite (param_qualified_name svc d v s _ Ea set_joinName)
               by (simpl; tauto) ]);
        destruct (defGetQualifiedName svc d)
      | (first
           [ rewrite (param_boolean svc d v s _ Ea set_canHash)
               by (simpl; tauto)
           | rewrite (param_boolean svc d v s _ Ea set_canMerge)
               by (simpl; tauto) ]);
        destruct (defGetBoolean svc d)
      | rewrite (param_obsolete svc d v s _ Ea) by (simpl; tauto) ].
    all: intros H; try discriminate H; injection H as <- <-;
      repeat split; try reflexivity; try congruence;
      try (intros Hn; exfalso; eapply Hn; [| reflexivity]; simpl; tauto);
      try (intros _ Hv; exact Hv).
  - apply attribute_of_None in Ea.
    rewrite (param_unrecognized svc d v s Ea).
    intros H. injection H as <- <-. repeat split; auto.
Qed.
End DefineOperator_assignments.
Section DefineOperator_list.
Context {Catalog : Type} (svc : Services Catalog).
Implicit Types s : Backend Catalog.

Lemma assigns_false name l :
  assigns svc name l = false ->
  Forall (fun d => attribute_of svc d <> Some name) l.
Proof.
  unfold assigns. induction l as [| d l IH]; simpl; [constructor |].
  intros H. apply orb_false_iff in H as [H1 H2].
  constructor; [| auto]. now apply bool_decide_eq_false in H1.
Qed.

(** A run of the loop over [l1 ++ d :: l2] that returns is a run over [l1],
    the iteration for [d] and a run over [l2]. *)
Lemma parameters_split l1 d l2 s v s' :
  DefineOperator_parameters svc (l1 ++ d :: l2) s = (inr v, s') ->
  exists v1 s1 v2 s2,
    DefineOperator_parameters svc l1 s = (inr v1, s1)
    /\ DefineOperator_param svc d v1 s1 = (inr v2, s2)
    /\ Cmd.foreach l2 (DefineOperator_param svc) v2 s2 = (inr v, s').
Proof.
  unfold DefineOperator_parameters. rewrite foreach_app. unfold Cmd.bind.
  destruct (Cmd.foreach l1 _ _ s) as [[e | v1] s1] eqn:E1; [discriminate |].
  simpl. unfold Cmd.bind.
  destruct (DefineOperator_param svc d v1 s1) as [[e | v2] s2] eqn:E2;
    [discriminate |].
  intros H. exists v1, s1, v2, s2. repeat split; assumption.
Qed.

(** A loop variable is as it was after a run over elements none of which is
    taken by a branch that assigns it. *)
Lemma foreach_keeps {X} (get : OperatorVars -> X) (name : string) l :
  (forall d v s v' s',
      attribute_of svc d <> Some name ->
      DefineOperator_param svc d v s = (inr v', s') -> get v' = get v) ->
  assigns svc name l = false ->
  forall v s v' s',
    Cmd.foreach l (DefineOperator_param svc) v s = (inr v', s') ->
    get v' = get v.
Proof.
  intros Hstep Hl v s v' s' Hrun.
  eapply (foreach_invariant (DefineOperator_param svc)
            (fun d => attribute_of svc d <> Some name)
            (fun v0 => get v0 = get v)); try eassumption.
  - intros x v0 s0 v1 s1 Hx Hv Hb. rewrite <- Hv. eapply Hstep; eassumption.
  - now apply assigns_false.
  - reflexivity.
Qed.

(** Whether an iteration raises depends neither on the loop variables nor
    on the state: on nothing an earlier element has left. *)
Lemma param_accepted d v s v0 s0 :
  (exists v' s', DefineOperator_param svc d v s = (inr v', s')) ->
  exists v' s', DefineOperator_param svc d v0 s0 = (inr v', s').
Proof.
  destruct (attribute_of svc d) as [name |] eqn:Ea.
  - pose proof (attribute_of_In svc d name Ea) as Hin. simpl in Hin.
    repeat match type of Hin with
           | _ \/ _ => destruct Hin as [<- | Hin]
           | False => destruct Hin
           end.
    all: first
      [ rewrite (param_leftarg svc d v s Ea), (param_leftarg svc d v0 s0 Ea);
        destruct (defGetTypeName svc d) as [? | [? []]]
      | rewrite (param_rightarg svc d v s Ea),
          (param_rightarg svc d v0 s0 Ea);
        destruct (defGetTypeName svc d) as [? | [? []]]
      | (first
           [ rewrite (param_qualified_name svc d v s _ Ea set_functionName),
               (param_qualified_name svc d v0 s0 _ Ea set_functionName)
               by (simpl; tauto)
           | rewrite (param_qualified_name svc d v s _ Ea set_commutatorName),
               (param_qualified_name svc d v0 s0 _ Ea set_commutatorName)
               by (simpl; tauto)
           | rewrite (param_qualified_name svc d v s _ Ea set_negatorName),
               (param_qualified_name svc d v0 s0 _ Ea set_negatorName)
               by (simpl; tauto)
           | rewrite (param_qualified_name svc d v s _ Ea set_restrictionName),
               (param_qualified_name svc d v0 s0 _ Ea set_restrictionName)
               by (simpl; tauto)
           | rewrite (param_qualified_name svc d v s _ Ea set_joinName),
               (param_qualified_name svc d v0 s0 _ Ea set_joinName)
               by (simpl; tauto) ]);
        destruct (defGetQualifiedName svc d)
      | (first
           [ rewrite (param_boolean svc d v s _ Ea set_canHash),
               (param_boolean svc d v0 s0 _ Ea set_canHash)
               by (simpl; tauto)
           | rewrite (param_boolean svc d v s _ Ea set_canMerge),
               (param_boolean svc d v0 s0 _ Ea set_canMerge)
               by (simpl; tauto) ]);
        destruct (defGetBoolean svc d)
      | rewrite (param_obsolete svc d v s _ Ea),
          (param_obsolete svc d v0 s0 _ Ea) by (simpl; tauto) ].
    all: intros (v' & s' & H); try discriminate H; eauto.
  - apply attribute_of_None in Ea.
    rewrite (param_unrecognized svc d v0 s0 Ea). eauto.
Qed.

(** The loop over one element is the iteration for it. *)
Lemma parameters_singleton d s :
  DefineOperator_parameters svc [d] s
  = DefineOperator_param svc d OperatorVars_init s.
Proof.
  unfold DefineOperator_parameters. simpl. unfold Cmd.bind.
  destruct (DefineOperator_param svc d OperatorVars_init s) as [[e | v] s'];
    reflexivity.
Qed.

(** The loop returns exactly when each of its iterations, taken alone,
    does. *)
Lemma foreach_accepted l s0 :
  forall v s,
    (exists v' s', Cmd.foreach l (DefineOperator_param svc) v s = (inr v', s'))
    <-> Forall (fun d => exists v' s',
                   DefineOperator_parameters svc [d] s0 = (inr v', s')) l.
Proof.
  induction l as [| d l IH]; intros v s; simpl.
  - split; [constructor | intros _; now exists v, s].
  - unfold Cmd.bind. split.
    + intros (v' & s' & H).
      destruct (DefineOperator_param svc d v s) as [[e | v1] s1] eqn:Ed;
        [discriminate |].
      constructor.
      * rewrite parameters_singleton.
        apply (param_accepted d v s). eauto.
      * apply (IH v1 s1). eauto.
    + intros H. inversion H as [| ? ? Hd Hl]; subst.
      rewrite parameters_singleton in Hd.
      destruct (param_accepted d _ _ v s Hd) as (v1 & s1 & Ed).
      rewrite Ed. now apply IH.
Qed.

(** X1. The last element of the list that a branch takes decides the
    variable the branch assigns: earlier elements for the same attribute
    are overridden, and none is rejected as a duplicate.  (a) The loop
    over a list returns exactly when the loop over each of its elements
    alone returns: an element is never rejected for what came before it.
    (b) When the loop over [l1 ++ d :: l2] returns and no element of [l2]
    is taken by the branch that takes [d], the variable holds what was
    read from [d]. *)
Theorem DefineOperator_last_assignment_wins l1 d l2 s :
  ((exists v s',
       DefineOperator_parameters svc (l1 ++ d :: l2) s = (inr v, s'))
   <-> Forall (fun d0 => exists v0 s0,
                  DefineOperator_parameters svc [d0] s = (inr v0, s0))
              (l1 ++ d :: l2))
  /\ forall v s',
      DefineOperator_parameters svc (l1 ++ d :: l2) s = (inr v, s') ->
      (attribute_of svc d = Some "leftarg" ->
       assigns svc "leftarg" l2 = false ->
       exists t, defGetTypeName svc d = inr t /\ typeName1 v = Some t)
      /\ (attribute_of svc d = Some "rightarg" ->
          assigns svc "rightarg" l2 = false ->
          exists t, defGetTypeName svc d = inr t /\ typeName2 v = Some t)
      /\ (attribute_of svc d = Some "procedure" ->
          assigns svc "procedure" l2 = false ->
          defGetQualifiedName svc d = inr (functionName v))
      /\ (attribute_of svc d = Some "commutator" ->
          assigns svc "commutator" l2 = false ->
          defGetQualifiedName svc d = inr (commutatorName v))
      /\ (attribute_of svc d = Some "negator" ->
          assigns svc "negator" l2 = false ->
          defGetQualifiedName svc d = inr (negatorName v))
      /\ (attribute_of svc d = Some "restrict" ->
          assigns svc "restrict" l2 = false ->
          defGetQualifiedName svc d = inr (restrictionName v))
      /\ (attribute_of svc d = Some "join" ->
          assigns svc "join" l2 = false ->
          defGetQualifiedName svc d = inr (joinName v))
      /\ (attribute_of svc d = Some "hashes" ->
          assigns svc "hashes" l2 = false ->
          defGetBoolean svc d = inr (canHash v)).
Proof.
  split; [apply foreach_accepted |]. intros v s' Hrun.
  destruct (parameters_split _ _ _ _ _ _ Hrun)
    as (v1 & s1 & v2 & s2 & H1 & Hd & H2).
  assert (Hkeep : forall {X} (get : OperatorVars -> X) name,
            (forall d v s v' s',
                attribute_of svc d <> Some name ->
                DefineOperator_param svc d v s = (inr v', s') ->
                get v' = get v) ->
            assigns svc name l2 = false -> get v = get v2).
  { intros X get name Hstep Hl2.
    eapply (foreach_keeps get name l2 Hstep Hl2); eassumption. }
  repeat split; intros Ha Hl2.
  - rewrite (param_leftarg svc d v1 s1 Ha) in Hd.
    destruct (defGetTypeName svc d) as [e | t]; [discriminate |].
    destruct (setof t); [discriminate |]. injection Hd as <- <-.
    exists t. split; [reflexivity |].
    rewrite (Hkeep _ typeName1 "leftarg"); [reflexivity | | exact Hl2].
    intros d0 v0 s0 v' s0' Hn Hp. now apply (param_frame svc _ _ _ _ _ Hp).
  - rewrite (param_rightarg svc d v1 s1 Ha) in Hd.
    destruct (defGetTypeName svc d) as [e | t]; [discriminate |].
    destruct (setof t); [discriminate |]. injection Hd as <- <-.
    exists t. split; [reflexivity |].
    rewrite (Hkeep _ typeName2 "rightarg"); [reflexivity | | exact Hl2].
    intros d0 v0 s0 v' s0' Hn Hp. now apply (param_frame svc _ _ _ _ _ Hp).
  - rewrite (param_qualified_name svc d v1 s1 _ Ha set_functionName) in Hd
      by (simpl; tauto).
    destruct (defGetQualifiedName svc d) as [e | l]; [discriminate |].
    injection Hd as <- <-.
    rewrite (Hkeep _ functionName "procedure"); [reflexivity | | exact Hl2].
    intros d0 v0 s0 v' s0' Hn Hp. now apply (param_frame svc _ _ _ _ _ Hp).
  - rewrite (param_qualified_name svc d v1 s1 _ Ha set_commutatorName) in Hd
      by (simpl; tauto).
    destruct (defGetQualifiedName svc d) as [e | l]; [discriminate |].
    injection Hd as <- <-.
    rewrite (Hkeep _ commutatorName "commutator"); [reflexivity | | exact Hl2].
    intros d0 v0 s0 v' s0' Hn Hp. now apply (param_frame svc _ _ _ _ _ Hp).
  - rewrite (param_qualified_name svc d v1 s1 _ Ha set_negatorName) in Hd
      by (simpl; tauto).
    destruct (defGetQualifiedName svc d) as [e | l]; [discriminate |].
    injection Hd as <- <-.
    rewrite (Hkeep _ negatorName "negator"); [reflexivity | | exact Hl2].
    intros d0 v0 s0 v' s0' Hn Hp. now apply (param_frame svc _ _ _ _ _ Hp).
  - rewrite (param_qualified_name svc d v1 s1 _ Ha set_restrictionName) in Hd
      by (simpl; tauto).
    destruct (defGetQualifiedName svc d) as [e | l]; [discriminate |].
    injection Hd as <- <-.
    rewrite (Hkeep _ restrictionName "restrict"); [reflexivity | | exact Hl2].
    intros d0 v0 s0 v' s0' Hn Hp. now apply (param_frame svc _ _ _ _ _ Hp).
  - rewrite (param_qualified_name svc d v1 s1 _ Ha set_joinName) in Hd
      by (simpl; tauto).
    destruct (defGetQualifiedName svc d) as [e | l]; [discriminate |].
    injection Hd as <- <-.
    rewrite (Hkeep _ joinName "join"); [reflexivity | | exact Hl2].
    intros d0 v0 s0 v' s0' Hn Hp. now apply (param_frame svc _ _ _ _ _ Hp).
  - rewrite (param_boolean svc d v1 s1 _ Ha set_canHash) in Hd
      by (simpl; tauto).
    destruct (defGetBoolean svc d) as [e | b]; [discriminate |].
    injection Hd as <- <-.
    rewrite (Hkeep _ canHash "hashes"); [reflexivity | | exact Hl2].
    intros d0 v0 s0 v' s0' Hn Hp. now apply (param_frame svc _ _ _ _ _ Hp).
Qed.
End DefineOperator_list.

Section DefineOperator_elements.
Context {Catalog : Type} (svc : Services Catalog).
Implicit Types s : Backend Catalog.

(** X2. The obsolete options: an element named sort1, sort2, ltcmp or gtcmp
    turns [canMerge] on whatever its argument is, and reading it cannot
    raise, since the argument is not read; [canMerge] is then on after the
    loop unless a later element named merges assigns it. *)
Theorem DefineOperator_obsolete_options d name
    (Ha : attribute_of svc d = Some name)
    (Hname : In name ["sort1"; "sort2"; "ltcmp"; "gtcmp"]) :
  (forall a v s,
      DefineOperator_param svc (mkDefElem (defname d) a) v s
      = (inr (set_canMerge v true), s))
  /\ (forall l1 l2 s v s',
         DefineOperator_parameters svc (l1 ++ d :: l2) s = (inr v, s') ->
         assigns svc "merges" l2 = false ->
         canMerge v = true).
Proof.
  split.
  - intros a v s.
    apply (param_obsolete svc _ v s name); [exact Ha | exact Hname].
  - intros l1 l2 s v s' Hrun Hl2.
    destruct (parameters_split svc _ _ _ _ _ _ Hrun)
      as (v1 & s1 & v2 & s2 & H1 & Hd & H2).
    rewrite (param_obsolete svc d v1 s1 name Ha Hname) in Hd.
    injection Hd as <- <-.
    eapply (foreach_invariant (DefineOperator_param svc)
              (fun d => attribute_of svc d <> Some "merges")
              (fun v0 => canMerge v0 = true)); try eassumption.
    + intros x v0 s0 v' s0' Hx Hv Hp.
      now apply (param_frame svc _ _ _ _ _ Hp).
    + now apply assigns_false.
    + reflexivity.
Qed.

(** An element on which every iteration aborts with [e] aborts the
    command: always, and with [e] once the steps before it pass. *)
Lemma DefineOperator_aborts_at names l1 d l2 s e :
  (forall v s0, DefineOperator_param svc d v s0 = (inl e, s0)) ->
  aborts svc names (l1 ++ d :: l2) s
  /\ (forall ns v1 s1,
         DefineOperator_namespace svc names s = (inr ns, s) ->
         DefineOperator_parameters svc l1 s = (inr v1, s1) ->
         DefineOperator svc names (l1 ++ d :: l2) s = (inl e, s1)).
Proof.
  intros Hd.
  assert (Hat : forall v1 s1,
            DefineOperator_parameters svc l1 s = (inr v1, s1) ->
            DefineOperator_parameters svc (l1 ++ d :: l2) s = (inl e, s1)).
  { intros v1 s1 H1. unfold DefineOperator_parameters in *.
    rewrite foreach_app. rewrite (bind_inr _ _ _ _ _ H1). simpl.
    apply bind_inl, Hd. }
  split.
  - destruct (DefineOperator_namespace svc names s) as [[e0 | ns] s0] eqn:E0;
      pose proof (read_only_run _ _ _ _ (read_only_namespace svc names) E0);
      subst s0.
    { exists e0, s. split; [| reflexivity].
      eapply DefineOperator_aborts_namespace; eassumption. }
    pose proof (catalog_preserving_state
                  (DefineOperator_parameters svc (l1 ++ d :: l2)) s
                  (catalog_preserving_parameters svc _)) as Hcat.
    destruct (DefineOperator_parameters svc l1 s) as [[e1 | v1] s1] eqn:E1.
    + assert (E : DefineOperator_parameters svc (l1 ++ d :: l2) s
                  = (inl e1, s1)).
      { unfold DefineOperator_parameters in *. rewrite foreach_app.
        now apply bind_inl. }
      rewrite E in Hcat. exists e1, s1. split; [| exact Hcat].
      eapply DefineOperator_aborts_parameters; eassumption.
    + rewrite (Hat v1 s1 eq_refl) in Hcat.
      exists e, s1. split; [| exact Hcat].
      eapply DefineOperator_aborts_parameters; [eassumption |].
      exact (Hat v1 s1 eq_refl).
  - intros ns v1 s1 Hns H1.
    eapply DefineOperator_aborts_parameters; [eassumption |].
    exact (Hat v1 s1 H1).
Qed.

(** X3. A SETOF operand type, as the source has it: an element taken by the
    leftarg or the rightarg branch whose type name is declared SETOF aborts
    the command, which leaves the catalog as it was; once the namespace
    check and the elements before it pass, the error is the report of
    lines 108-110 and 116-118, an [ERROR] of class
    invalid-function-definition with the message of the source, and the
    elements after it are not looked at. *)
Theorem DefineOperator_setof_aborts names l1 d l2 s t
    (Ha : attribute_of svc d = Some "leftarg"
          \/ attribute_of svc d = Some "rightarg")
    (Ht : defGetTypeName svc d = inr t)
    (Hsetof : setof t = true) :
  aborts svc names (l1 ++ d :: l2) s
  /\ (forall ns v1 s1,
         DefineOperator_namespace svc names s = (inr ns, s) ->
         DefineOperator_parameters svc l1 s = (inr v1, s1) ->
         DefineOperator svc names (l1 ++ d :: l2) s = (inl setof_error, s1)
         /\ forall l2',
              DefineOperator svc names (l1 ++ d :: l2') s
              = DefineOperator svc names (l1 ++ d :: l2) s)
  /\ setof_error
     = mkErrorData ERROR ERRCODE_INVALID_FUNCTION_DEFINITION
         "SETOF type not allowed for operator__ argument".
Proof.
  assert (Hd : forall v s0,
            DefineOperator_param svc d v s0 = (inl setof_error, s0)).
  { intros v s0. destruct Ha as [Ha | Ha].
    - rewrite (param_leftarg svc d v s0 Ha), Ht, Hsetof. reflexivity.
    - rewrite (param_rightarg svc d v s0 Ha), Ht, Hsetof. reflexivity. }
  split; [apply (DefineOperator_aborts_at names l1 d l2 s _ Hd) |].
  split; [| reflexivity].
  intros ns v1 s1 Hns H1.
  pose proof (fun l => proj2 (DefineOperator_aborts_at names l1 d l s _ Hd)
                         ns v1 s1 Hns H1) as Hexact.
  split; [apply Hexact |].
  intros l2'. now rewrite !Hexact.
Qed.

(** X4. An argument that cannot be read: when [defGetTypeName],
    [defGetQualifiedName] or [defGetBoolean] raises on the element the
    branch reads, the command aborts and leaves the catalog as it was; once
    the namespace check and the elements before it pass, the error is the
    one the reader raised, unchanged. *)
Theorem DefineOperator_argument_error names l1 d l2 s name e
    (Ha : attribute_of svc d = Some name)
    (Hread :
       (In name ["leftarg"; "rightarg"] /\ defGetTypeName svc d = inl e)
       \/ (In name ["procedure"; "commutator"; "negator"; "restrict"; "join"]
           /\ defGetQualifiedName svc d = inl e)
       \/ (In name ["hashes"; "merges"] /\ defGetBoolean svc d = inl e)) :
  aborts svc names (l1 ++ d :: l2) s
  /\ (forall ns v1 s1,
         DefineOperator_namespace svc names s = (inr ns, s) ->
         DefineOperator_parameters svc l1 s = (inr v1, s1) ->
         DefineOperator svc names (l1 ++ d :: l2) s = (inl e, s1)).
Proof.
  apply DefineOperator_aborts_at. intros v s0.
  destruct Hread as [[Hin Hr] | [[Hin Hr] | [Hin Hr]]]; simpl in Hin;
    repeat match type of Hin with
           | _ \/ _ => destruct Hin as [<- | Hin]
           | False => destruct Hin
           end.
  - now rewrite (param_leftarg svc d v s0 Ha), Hr.
  - now rewrite (param_rightarg svc d v s0 Ha), Hr.
  - rewrite (param_qualified_name svc d v s0 _ Ha set_functionName)
      by (simpl; tauto). now rewrite Hr.
  - rewrite (param_qualified_name svc d v s0 _ Ha set_commutatorName)
      by (simpl; tauto). now rewrite Hr.
  - rewrite (param_qualified_name svc d v s0 _ Ha set_negatorName)
      by (simpl; tauto). now rewrite Hr.
  - rewrite (param_qualified_name svc d v s0 _ Ha set_restrictionName)
      by (simpl; tauto). now rewrite Hr.
  - rewrite (param_qualified_name svc d v s0 _ Ha set_joinName)
      by (simpl; tauto). now rewrite Hr.
  - rewrite (param_boolean svc d v s0 _ Ha set_canHash) by (simpl; tauto).
    now rewrite Hr.
  - rewrite (param_boolean svc d v s0 _ Ha set_canMerge) by (simpl; tauto).
    now rewrite Hr.
Qed.
End DefineOperator_elements.

Section DefineOperator_notices.
Context {Catalog : Type} (svc : Services Catalog).
Implicit Types s : Backend Catalog.

Lemma param_notices d v s r s' :
  DefineOperator_param svc d v s = (r, s') ->
  catalog s' = catalog s
  /\ notices s' = notices s ++ DefineOperator_warnings svc [d]
  /\ (unrecognized_attribute svc d = true -> r = inr v).
Proof.
  unfold DefineOperator_warnings. simpl.
  destruct (unrecognized_attribute svc d) eqn:Eu.
  - rewrite (param_unrecognized svc d v s Eu). intros H.
    injection H as <- <-. auto.
  - destruct (attribute_of svc d) as [name |] eqn:Ea.
    2: { apply attribute_of_None in Ea. congruence. }
    pose proof (attribute_of_In svc d name Ea) as Hin. simpl in Hin.
    repeat match type of Hin with
           | _ \/ _ => destruct Hin as [<- | Hin]
           | False => destruct Hin
           end.
    all: first
      [ rewrite (param_leftarg svc d v s Ea);
        destruct (defGetTypeName svc d) as [? | [? []]]
      | rewrite (param_rightarg svc d v s Ea);
        destruct (defGetTypeName svc d) as [? | [? []]]
      | (first
           [ rewrite (param_qualified_name svc d v s _ Ea set_functionName)
               by (simpl; tauto)
           | rewrite (param_qualified_name svc d v s _ Ea set_commutatorName)
               by (simpl; tauto)
           | rewrite (param_qualified_name svc d v s _ Ea set_negatorName)
               by (simpl; tauto)
           | rewrite (param_qualified_name svc d v s _ Ea set_restrictionName)
               by (simpl; tauto)
           | rewrite (param_qualified_name svc d v s _ Ea set_joinName)
               by (simpl; tauto) ]);
        destruct (defGetQualifiedName svc d)
      | (first
           [ rewrite (param_boolean svc d v s _ Ea set_canHash)
               by (simpl; tauto)
           | rewrite (param_boolean svc d v s _ Ea set_canMerge)
               by (simpl; tauto) ]);
        destruct (defGetBoolean svc d)
      | rewrite (param_obsolete svc d v s _ Ea) by (simpl; tauto) ].
    all: intros H; injection H as <- <-; rewrite app_nil_r;
      repeat split; discriminate.
Qed.

Lemma warnings_app l1 l2 :
  DefineOperator_warnings svc (l1 ++ l2)
  = DefineOperator_warnings svc l1 ++ DefineOperator_warnings svc l2.
Proof.
  unfold DefineOperator_warnings. now rewrite List.filter_app, map_app.
Qed.

(** The notices after a run of the loop, whether it returns or aborts: the
    warnings for the elements it has been through. *)
Lemma parameters_notices l v0 s r s' :
  Cmd.foreach l (DefineOperator_param svc) v0 s = (r, s') ->
  exists done,
    done `prefix_of` l
    /\ notices s' = notices s ++ DefineOperator_warnings svc done
    /\ (forall v, r = inr v -> done = l).
Proof.
  revert v0 s. induction l as [| d l IH]; intros v0 s; simpl.
  - intros H. injection H as <- <-. exists []. rewrite app_nil_r. auto.
  - unfold Cmd.bind.
    destruct (DefineOperator_param svc d v0 s) as [[e | v1] s1] eqn:Ed;
      destruct (param_notices _ _ _ _ _ Ed) as (_ & Hn & Hu).
    + intros H. injection H as <- <-.
      exists []. split; [apply prefix_nil |].
      split; [| discriminate].
      destruct (unrecognized_attribute svc d) eqn:Eu;
        [specialize (Hu eq_refl); discriminate |].
      revert Hn. unfold DefineOperator_warnings. simpl. now rewrite Eu.
    + intros H. destruct (IH _ _ H) as (done & Hp & Hdone & Hall).
      exists (d :: done). split; [now apply prefix_cons |].
      split.
      * rewrite Hdone, Hn. change (d :: done) with ([d] ++ done).
        now rewrite warnings_app, app_assoc.
      * intros v Hv. now rewrite (Hall v Hv).
Qed.

Lemma finish_notices ns v s :
  notices (snd (DefineOperator_finish svc ns v s)) = notices s.
Proof.
  destruct (finish_cases svc ns v s) as [[e He] | [a Ha]].
  - now rewrite He.
  - rewrite Ha. reflexivity.
Qed.

(** X5. The notices of the command: the only notices [DefineOperator] ever
    adds are the warnings of lines 144-147, one for each unrecognized
    element the loop has been through, in the order of the list.  When the
    loop returns there is one for every unrecognized element of the list,
    whether or not a later check aborts the command; when the namespace
    step fails there is none. *)
Theorem DefineOperator_notices names parameters s :
  (exists done,
      done `prefix_of` parameters
      /\ notices (snd (DefineOperator svc names parameters s))
         = notices s ++ DefineOperator_warnings svc done)
  /\ (forall ns v s1,
         DefineOperator_namespace svc names s = (inr ns, s) ->
         DefineOperator_parameters svc parameters s = (inr v, s1) ->
         notices (snd (DefineOperator svc names parameters s))
         = notices s ++ DefineOperator_warnings svc parameters)
  /\ (forall e s',
         DefineOperator_namespace svc names s = (inl e, s') ->
         notices (snd (DefineOperator svc names parameters s)) = notices s).
Proof.
  assert (Hloop : forall ns v s1,
            DefineOperator_namespace svc names s = (inr ns, s) ->
            DefineOperator_parameters svc parameters s = (inr v, s1) ->
            notices (snd (DefineOperator svc names parameters s))
            = notices s ++ DefineOperator_warnings svc parameters).
  { intros ns v s1 Hns Hpar.
    rewrite (DefineOperator_continues svc _ _ _ _ _ _ Hns Hpar).
    rewrite finish_notices.
    destruct (parameters_notices _ _ _ _ _ Hpar) as (done & _ & Hn & Hall).
    now rewrite Hn, (Hall v eq_refl). }
  assert (Hfail : forall e s',
            DefineOperator_namespace svc names s = (inl e, s') ->
            notices (snd (DefineOperator svc names parameters s))
            = notices s).
  { intros e s' E0.
    pose proof (read_only_run _ _ _ _ (read_only_namespace svc names) E0).
    subst s'.
    now rewrite (DefineOperator_aborts_namespace svc _ parameters _ _ _ E0). }
  split; [| split; [exact Hloop | exact Hfail]].
  destruct (DefineOperator_namespace svc names s) as [[e | ns] s0] eqn:E0.
  { exists []. split; [apply prefix_nil |].
    rewrite (Hfail e s0 eq_refl). unfold DefineOperator_warnings. simpl.
    now rewrite app_nil_r. }
  pose proof (read_only_run _ _ _ _ (read_only_namespace svc names) E0).
  subst s0.
  destruct (DefineOperator_parameters svc parameters s) as [[e | v] s1] eqn:E1.
  - destruct (parameters_notices _ _ _ _ _ E1) as (done & Hp & Hn & _).
    exists done. split; [exact Hp |].
    now rewrite (DefineOperator_aborts_parameters svc _ _ _ _ _ _ E0 E1).
  - exists parameters. split; [reflexivity |].
    exact (Hloop ns v s1 eq_refl eq_refl).
Qed.
End DefineOperator_notices.

Section DefineOperator_lookups.
Context {Catalog : Type} (svc : Services Catalog).
Implicit Types s : Backend Catalog.

Lemma typeIds_valid v s ty s' :
  DefineOperator_typeIds svc v s = (inr ty, s') ->
  OidIsValid (fst ty) || OidIsValid (snd ty) = true.
Proof.
  unfold DefineOperator_typeIds. intros H.
  apply bind_inr_inv in H as (u & s0 & _ & H).
  apply bind_inr_inv in H as (t1 & s1 & _ & H).
  apply bind_inr_inv in H as (t2 & s2 & _ & H).
  apply bind_inr_inv in H as (u2 & s3 & Hw & H).
  injection H as <- <-. simpl.
  destruct (OidIsValid t1); [reflexivity |].
  destruct (OidIsValid t2); [reflexivity |]. discriminate Hw.
Qed.

(** X6. The signature the underlying function is looked up with: once the
    operand types are resolved, [LookupFuncName] is given the operand types
    that are valid, left before right, and their number as [nargs], with
    [noError] false.  There is at least one, so a unary operator is looked
    up with one argument type and a binary operator with two. *)
Theorem DefineOperator_function_signature v s ty s'
    (Hty : DefineOperator_typeIds svc v s = (inr ty, s')) :
  let argtypes := List.filter OidIsValid [fst ty; snd ty] in
  argtypes <> []
  /\ DefineOperator_lookup_function svc v (fst ty) (snd ty) s
     = (LookupFuncName svc (catalog s) (functionName v)
          (Z.of_nat (length argtypes)) argtypes false, s).
Proof.
  pose proof (typeIds_valid _ _ _ _ Hty) as Hv.
  destruct ty as [t1 t2]. simpl in *.
  unfold DefineOperator_lookup_function, lookup_func, with_catalog,
    Cmd.lookup, typeid_decl.
  destruct (OidIsValid t1) eqn:E1, (OidIsValid t2) eqn:E2;
    simpl in *; try discriminate Hv; split; (discriminate || reflexivity).
Qed.

(** X7. The signatures the estimators are looked up with.  The restriction
    estimator: (internal, oid, internal, int4).  The join estimator: the
    5-argument (internal, oid, internal, int2, internal) first; when there
    is none, the 4-argument (internal, oid, internal, int2); when there is
    none either, the outcome is that of the 5-argument lookup with
    [noError] false, so that the error names the 5-argument signature.  An
    error of a lookup aborts. *)
Theorem DefineOperator_estimator_signatures v s :
  let join5 := [INTERNALOID svc; OIDOID svc; INTERNALOID svc; INT2OID svc;
                INTERNALOID svc] in
  let join4 := [INTERNALOID svc; OIDOID svc; INTERNALOID svc; INT2OID svc] in
  let look := LookupFuncName svc (catalog s) (joinName v) in
  DefineOperator_lookup_restriction svc v s
  = (LookupFuncName svc (catalog s) (restrictionName v) 4
       [INTERNALOID svc; OIDOID svc; INTERNALOID svc; INT4OID svc] false, s)
  /\ (forall o,
         look 5 join5 true = inr o -> OidIsValid o = true ->
         DefineOperator_lookup_join svc v s = (inr o, s))
  /\ (forall o,
         look 5 join5 true = inr InvalidOid ->
         look 4 join4 true = inr o -> OidIsValid o = true ->
         DefineOperator_lookup_join svc v s = (inr o, s))
  /\ (look 5 join5 true = inr InvalidOid ->
      look 4 join4 true = inr InvalidOid ->
      DefineOperator_lookup_join svc v s = (look 5 join5 false, s))
  /\ (forall e,
         look 5 join5 true = inl e
         \/ (look 5 join5 true = inr InvalidOid /\ look 4 join4 true = inl e) ->
         DefineOperator_lookup_join svc v s = (inl e, s)).
Proof.
  intros join5 join4 look. subst look join5 join4.
  split; [reflexivity |].
  unfold DefineOperator_lookup_join, lookup_func, with_catalog, Cmd.bind,
    Cmd.lookup, typeid_decl. simpl.
  repeat split.
  - intros o H5 Ho. rewrite H5. simpl. rewrite Ho. simpl. rewrite Ho.
    reflexivity.
  - intros o H5 H4 Ho. rewrite H5. simpl. rewrite H4. simpl. rewrite Ho.
    reflexivity.
  - intros H5 H4. rewrite H5. simpl. rewrite H4. reflexivity.
  - intros e [H5 | [H5 H4]]; rewrite H5; simpl; [| rewrite H4]; reflexivity.
Qed.
End DefineOperator_lookups.

Section DefineOperator_default_values.
Context {Catalog : Type} (svc : Services Catalog).
Implicit Types s : Backend Catalog.

Lemma parameters_keep {X} (get : OperatorVars -> X) name l s v s' :
  (forall d v s v' s',
      attribute_of svc d <> Some name ->
      DefineOperator_param svc d v s = (inr v', s') -> get v' = get v) ->
  assigns svc name l = false ->
  DefineOperator_parameters svc l s = (inr v, s') ->
  get v = get OperatorVars_init.
Proof.
  intros Hstep Hl Hrun.
  eapply (foreach_keeps svc get name l Hstep Hl); eassumption.
Qed.

(** X8. The defaults of CREATE OPERATOR.  When every check passes, the
    command is the call of [OperatorCreate], and an attribute that no
    element of the list assigns reaches it with its initial value: an
    invalid operand type for leftarg and rightarg, no name for commutator
    and negator, [InvalidOid] for the restriction and the join estimator,
    and false for hashes and for merges, the obsolete options counting as
    merges.  An estimator that no element assigns is not looked up: the
    step for it returns [InvalidOid] whatever the collaborators are, be it
    a [LookupFuncName] or a [get_func_rettype] that raises on every
    call. *)
Theorem DefineOperator_defaults names parameters s ns v s1 ty f r j
    (Hpass : checks_pass svc names parameters s ns v s1 ty f r j) :
  let a := OperatorCreate_arguments ns v ty f r j in
  DefineOperator svc names parameters s = call_OperatorCreate svc a s1
  /\ (assigns svc "leftarg" parameters = false ->
      oc_leftTypeId a = InvalidOid)
  /\ (assigns svc "rightarg" parameters = false ->
      oc_rightTypeId a = InvalidOid)
  /\ (assigns svc "commutator" parameters = false ->
      oc_commutatorName a = [])
  /\ (assigns svc "negator" parameters = false -> oc_negatorName a = [])
  /\ (assigns svc "restrict" parameters = false ->
      oc_restrictionId a = InvalidOid
      /\ forall (svc' : Services Catalog) s',
           DefineOperator_restriction svc' v s' = (inr InvalidOid, s'))
  /\ (assigns svc "join" parameters = false ->
      oc_joinId a = InvalidOid
      /\ forall (svc' : Services Catalog) s',
           DefineOperator_join svc' v s' = (inr InvalidOid, s'))
  /\ (assigns svc "hashes" parameters = false -> oc_canHash a = false)
  /\ (forallb (fun name => negb (assigns svc name parameters))
        ["merges"; "sort1"; "sort2"; "ltcmp"; "gtcmp"] = true ->
      oc_canMerge a = false).
Proof.
  intros a. split; [now apply DefineOperator_passes |].
  destruct Hpass as (Hns & Hpar & Hty & Hfn & Hres & Hjoin).
  destruct (types_passes svc _ _ _ _ Hty) as (Hids & _ & _).
  destruct (typeIds_passes svc _ _ _ _ Hids) as (_ & Hid1 & Hid2).
  assert (Hkeep : forall {X} (get : OperatorVars -> X) name,
            (forall d v s v' s',
                attribute_of svc d <> Some name ->
                DefineOperator_param svc d v s = (inr v', s') ->
                get v' = get v) ->
            assigns svc name parameters = false ->
            get v = get OperatorVars_init).
  { intros X get name Hstep Hl. eapply parameters_keep; eassumption. }
  simpl. repeat match goal with |- _ /\ _ => split end; intros Hl.
  - rewrite (Hkeep _ typeName1 "leftarg") in Hid1; [| | exact Hl].
    + simpl in Hid1. now injection Hid1 as <-.
    + intros d0 v0 s0 v' s0' Hn Hp. now apply (param_frame svc _ _ _ _ _ Hp).
  - rewrite (Hkeep _ typeName2 "rightarg") in Hid2; [| | exact Hl].
    + simpl in Hid2. now injection Hid2 as <-.
    + intros d0 v0 s0 v' s0' Hn Hp. now apply (param_frame svc _ _ _ _ _ Hp).
  - rewrite (Hkeep _ commutatorName "commutator"); [reflexivity | | exact Hl].
    intros d0 v0 s0 v' s0' Hn Hp. now apply (param_frame svc _ _ _ _ _ Hp).
  - rewrite (Hkeep _ negatorName "negator"); [reflexivity | | exact Hl].
    intros d0 v0 s0 v' s0' Hn Hp. now apply (param_frame svc _ _ _ _ _ Hp).
  - assert (Hname : restrictionName v = []).
    { rewrite (Hkeep _ restrictionName "restrict"); [reflexivity | | exact Hl].
      intros d0 v0 s0 v' s0' Hn Hp.
      now apply (param_frame svc _ _ _ _ _ Hp). }
    unfold DefineOperator_restriction in *. rewrite Hname in *.
    simpl in Hres. split; [now injection Hres as <- | reflexivity].
  - assert (Hname : joinName v = []).
    { rewrite (Hkeep _ joinName "join"); [reflexivity | | exact Hl].
      intros d0 v0 s0 v' s0' Hn Hp.
      now apply (param_frame svc _ _ _ _ _ Hp). }
    unfold DefineOperator_join in *. rewrite Hname in *.
    simpl in Hjoin. split; [now injection Hjoin as <- | reflexivity].
  - rewrite (Hkeep _ canHash "hashes"); [reflexivity | | exact Hl].
    intros d0 v0 s0 v' s0' Hn Hp. now apply (param_frame svc _ _ _ _ _ Hp).
  - simpl in Hl. rewrite !andb_true_iff, !negb_true_iff in Hl.
    destruct Hl as (Hm & H1 & H2 & H3 & H4 & _).
    unfold DefineOperator_parameters in Hpar.
    eapply (foreach_invariant (DefineOperator_param svc)
              (fun d => forall name,
                   In name ["merges"; "sort1"; "sort2"; "ltcmp"; "gtcmp"] ->
                   attribute_of svc d <> Some name)
              (fun v0 => canMerge v0 = false)); try eassumption.
    + intros x v0 s0 v' s0' Hx Hv Hp. rewrite <- Hv.
      now apply (param_frame svc _ _ _ _ _ Hp).
    + apply Forall_forall. intros d0 Hd0 name Hname. simpl in Hname.
      repeat match type of Hname with
             | _ \/ _ => destruct Hname as [<- | Hname]
             | False => destruct Hname
             end;
        match goal with
        | H : assigns svc ?n parameters = false
          |- attribute_of svc d0 <> Some ?n =>
            apply assigns_false in H;
            rewrite Forall_forall in H; now apply H
        end.
    + reflexivity.
Qed.
End DefineOperator_default_values.

Section RemoveOperatorById_facts.
Context {St Relation HeapTuple ItemPointer LOCKMODE : Type}
  (ha : HeapAccess St Relation HeapTuple ItemPointer LOCKMODE).

Lemma format_u_in_range (x : Oid) : 0 <= x < 2 ^ 32 -> format_u x = pretty x.
Proof. intros H. unfold format_u. now rewrite Z.mod_small. Qed.

(** X9. An operator that is not there: when the cache has no tuple for
    [operOid], [RemoveOperatorById] raises the internal error "cache lookup
    failed for operator__ N", N being [operOid] in decimal, and stops
    there: nothing is deleted, nothing released and the relation is not
    closed, since the outcome is the same whatever [simple_heap_delete],
    [ReleaseSysCache] and [heap_close] would do. *)
Theorem RemoveOperatorById_missing (operOid : Oid) s relation s1 s2
    (Hopen : heap_open ha (OperatorRelationId ha) (RowExclusiveLock ha) s
             = (inr relation, s1))
    (Hmiss : SearchSysCache1 ha (OPEROID ha) operOid s1 = (inr None, s2)) :
  RemoveOperatorById ha operOid s = (inl (cache_lookup_failed operOid), s2)
  /\ is_user_error (cache_lookup_failed operOid) = true
  /\ (0 <= operOid < 2 ^ 32 ->
      message (cache_lookup_failed operOid)
      = "cache lookup failed for operator__ " +:+ pretty operOid)
  /\ (forall delete release close,
         RemoveOperatorById
           {| OperatorRelationId := OperatorRelationId ha;
              OPEROID := OPEROID ha;
              RowExclusiveLock := RowExclusiveLock ha;
              heap_open := heap_open ha;
              SearchSysCache1 := SearchSysCache1 ha;
              t_self := t_self ha;
              simple_heap_delete := delete;
              ReleaseSysCache := release;
              heap_close := close |}
           operOid s
         = RemoveOperatorById ha operOid s).
Proof.
  assert (Hrun :
            forall ha' : HeapAccess St Relation HeapTuple ItemPointer LOCKMODE,
            heap_open ha' (OperatorRelationId ha') (RowExclusiveLock ha') s
              = (inr relation, s1) ->
            SearchSysCache1 ha' (OPEROID ha') operOid s1 = (inr None, s2) ->
            RemoveOperatorById ha' operOid s
            = (inl (cache_lookup_failed operOid), s2)).
  { intros ha' H1 H2. unfold RemoveOperatorById, Cmd.bind.
    rewrite H1, H2. reflexivity. }
  split; [now apply Hrun |]. split; [reflexivity |]. split.
  - intros Hr. simpl. now rewrite format_u_in_range.
  - intros delete release close. rewrite (Hrun ha Hopen Hmiss).
    now apply Hrun.
Qed.

(** X10. What [RemoveOperatorById] holds when it is done, under the
    contract of its collaborators.  When it returns, it has closed the
    relation it opened and released the tuple it pinned: every count of
    open relations and of pinned tuples is as it found it.  When the
    operator is not there, the error leaves pg_operator open once more
    under [RowExclusiveLock], to be closed by whoever handles the error,
    and nothing more pinned. *)
Theorem RemoveOperatorById_balanced
    `{EqDecision Relation, EqDecision LOCKMODE, EqDecision HeapTuple}
    open_count pin_count
    (Hc : HeapContract ha open_count pin_count) (operOid : Oid) s :
  (forall s',
      RemoveOperatorById ha operOid s = (inr tt, s') ->
      (forall rel lock, open_count s' rel lock = open_count s rel lock)
      /\ (forall t, pin_count s' t = pin_count s t))
  /\ (forall relation s1 s2,
         heap_open ha (OperatorRelationId ha) (RowExclusiveLock ha) s
           = (inr relation, s1) ->
         SearchSysCache1 ha (OPEROID ha) operOid s1 = (inr None, s2) ->
         let s' := snd (RemoveOperatorById ha operOid s) in
         open_count s' relation (RowExclusiveLock ha)
         = S (open_count s relation (RowExclusiveLock ha))
         /\ (forall t, pin_count s' t = pin_count s t)).
Proof.
  split.
  - intros s'. unfold RemoveOperatorById, Cmd.bind.
    destruct (heap_open ha _ _ s) as [[e | rel] s1] eqn:E1; [discriminate |].
    destruct (heap_open_opens _ _ _ Hc _ _ _ _ _ E1) as [Hp1 Ho1].
    destruct (SearchSysCache1 ha _ _ s1) as [[e | [tup |]] s2] eqn:E2;
      try discriminate.
    destruct (SearchSysCache1_pins _ _ _ Hc _ _ _ _ _ E2) as [Ho2 Hp2].
    destruct (simple_heap_delete ha _ _ s2) as [[e | []] s3] eqn:E3;
      [discriminate |].
    destruct (simple_heap_delete_keeps _ _ _ Hc _ _ _ _ _ E3) as [Ho3 Hp3].
    destruct (ReleaseSysCache ha tup s3) as [[e | []] s4] eqn:E4;
      [discriminate |].
    destruct (ReleaseSysCache_unpins _ _ _ Hc _ _ _ _ E4) as [Ho4 Hp4].
    intros E5.
    destruct (heap_close_closes _ _ _ Hc _ _ _ _ _ E5) as [Hp5 Ho5].
    split.
    + intros rel' lock'.
      specialize (Ho1 rel' lock'). specialize (Ho2 rel' lock').
      specialize (Ho3 rel' lock'). specialize (Ho4 rel' lock').
      specialize (Ho5 rel' lock'). lia.
    + intros t.
      specialize (Hp1 t). specialize (Hp2 t). specialize (Hp3 t).
      specialize (Hp4 t). specialize (Hp5 t). lia.
  - intros relation s1 s2 E1 E2 s'. subst s'.
    unfold RemoveOperatorById, Cmd.bind. rewrite E1, E2. simpl.
    destruct (heap_open_opens _ _ _ Hc _ _ _ _ _ E1) as [Hp1 Ho1].
    destruct (SearchSysCache1_pins _ _ _ Hc _ _ _ _ _ E2) as [Ho2 Hp2].
    split.
    + rewrite Ho2, Ho1. rewrite decide_True by reflexivity. lia.
    + intros t. rewrite Hp2, Hp1. lia.
Qed.
End RemoveOperatorById_facts.

Section Flag_words.

Lemma or_flags_testbit l n :
  Z.testbit (or_flags l) n = existsb (fun f => Z.testbit f n) l.
Proof.
  induction l as [| f l IH]; simpl.
  - apply Z.testbit_0_l.
  - now rewrite Z.lor_spec, IH.
Qed.

Lemma or_flags_low_bits l :
  l ⊆ QTW_flags -> Z.land (or_flags l) (Z.ones 6) = or_flags l.
Proof.
  induction l as [| f l IH]; intros Hl; simpl; [reflexivity |].
  rewrite Z.land_lor_distr_l, IH.
  - f_equal.
    assert (Hf : In f QTW_flags) by (apply list_elem_of_In, Hl; now left).
    unfold QTW_flags in Hf. simpl in Hf.
    repeat match type of Hf with
           | _ \/ _ => destruct Hf as [<- | Hf]
           | False => destruct Hf
           end; reflexivity.
  - intros x Hx. apply Hl. now right.
Qed.

(** X11. Flag words: every OR-combination of the six flags of lines 20-26
    lies between 0 and 63, so it fits the [int flags] parameter of the
    entry points, and it determines the flags it is made of: two
    combinations are equal exactly when they are made of the same flags. *)
Theorem QTW_flag_words l l' (Hl : l ⊆ QTW_flags) (Hl' : l' ⊆ QTW_flags) :
  0 <= or_flags l < 64
  /\ (or_flags l = or_flags l' <-> forall f, f ∈ l <-> f ∈ l').
Proof.
  split.
  - rewrite <- (or_flags_low_bits l Hl), Z.land_ones by lia.
    change (2 ^ 6) with 64. apply Z.mod_pos_bound. lia.
  - split.
    + intros E f.
      destruct (decide (f ∈ QTW_flags)) as [Hf | Hf].
      * apply list_elem_of_In in Hf.
        pose proof (has_flag_or_flags l f Hl Hf) as H1.
        pose proof (has_flag_or_flags l' f Hl' Hf) as H2.
        rewrite E, H2 in H1.
        split; intros Hin.
        -- apply (bool_decide_eq_true_1 (f ∈ l')).
           rewrite H1. now apply bool_decide_eq_true_2.
        -- apply (bool_decide_eq_true_1 (f ∈ l)).
           rewrite <- H1. now apply bool_decide_eq_true_2.
      * split; intros Hin; exfalso; apply Hf; [apply Hl | apply Hl']; exact Hin.
    + intros Hsame. apply Z.bits_inj. intros n.
      rewrite !or_flags_testbit.
      apply eq_true_iff_eq. rewrite !existsb_exists.
      split; intros (f & Hin & Hb); exists f; split; try exact Hb;
        apply list_elem_of_In; apply list_elem_of_In in Hin; now apply Hsame.
Qed.

(** X12. The combined value of line 22 is not a flag of its own: a flag
    word tests non-zero against QTW_IGNORE_RC_SUBQUERIES as soon as one of
    the two subquery flags is set, and masks to it exactly when both
    are. *)
Theorem QTW_IGNORE_RC_SUBQUERIES_either (flags : Z) :
  has_flag flags QTW_IGNORE_RC_SUBQUERIES
  = has_flag flags QTW_IGNORE_RT_SUBQUERIES
    || has_flag flags QTW_IGNORE_CTE_SUBQUERIES
  /\ (Z.land flags QTW_IGNORE_RC_SUBQUERIES = QTW_IGNORE_RC_SUBQUERIES
      <-> has_flag flags QTW_IGNORE_RT_SUBQUERIES = true
          /\ has_flag flags QTW_IGNORE_CTE_SUBQUERIES = true)
  /\ ~ In QTW_IGNORE_RC_SUBQUERIES QTW_flags.
Proof.
  unfold has_flag, QTW_IGNORE_RC_SUBQUERIES, QTW_IGNORE_RT_SUBQUERIES,
    QTW_IGNORE_CTE_SUBQUERIES.
  assert (H1 : Z.land flags 1 = Z.land (Z.land flags 3) 1)
    by now rewrite <- Z.land_assoc.
  assert (H2 : Z.land flags 2 = Z.land (Z.land flags 3) 2)
    by now rewrite <- Z.land_assoc.
  rewrite H1, H2. change 3 with (Z.ones 2). rewrite Z.land_ones by lia.
  change (2 ^ 2) with 4.
  pose proof (Z.mod_pos_bound flags 4 ltac:(lia)) as Hm.
  assert (Hcases : flags mod 4 = 0 \/ flags mod 4 = 1 \/ flags mod 4 = 2
                   \/ flags mod 4 = 3) by lia.
  split; [| split].
  - destruct Hcases as [-> | [-> | [-> | ->]]]; reflexivity.
  - destruct Hcases as [-> | [-> | [-> | ->]]]; simpl;
      split; intros H; try discriminate H; try (destruct H; discriminate);
      auto.
  - unfold QTW_flags. simpl. intros H.
    repeat match type of H with
           | _ \/ _ => destruct H as [H | H]
           | False => destruct H
           end; discriminate H.
Qed.
End Flag_words.

Section DefineOperator_success.
Context {Catalog : Type} (svc : Services Catalog).
Implicit Types s : Backend Catalog.

(** X13. What a successful CREATE OPERATOR has established.  When
    [DefineOperator] returns the address of an operator, every check has
    passed: a procedure is named and at least one operand type is valid;
    the user has CREATE on the namespace, USAGE on every operand type that
    is specified and on the result type of the function, and EXECUTE on
    the function and on every estimator that is specified; every
    estimator that is specified returns float8.  The address and the
    catalog are those [OperatorCreate] returned, and the notices those of
    the loop. *)
Theorem DefineOperator_success names parameters s address s'
    (Hrun : DefineOperator svc names parameters s = (inr address, s')) :
  let user := GetUserId svc in
  exists ns v s1 ty f r j,
    checks_pass svc names parameters s ns v s1 ty f r j
    /\ catalog s1 = catalog s
    /\ OperatorCreate svc (OperatorCreate_arguments ns v ty f r j) (catalog s)
       = (inr address, catalog s')
    /\ notices s' = notices s1
    /\ functionName v <> []
    /\ OidIsValid (fst ty) || OidIsValid (snd ty) = true
    /\ pg_namespace_aclcheck svc (catalog s) (fst ns) user ACL_CREATE
       = ACLCHECK_OK
    /\ (typeName1 v <> None ->
        pg_type_aclcheck svc (catalog s) (fst ty) user ACL_USAGE
        = ACLCHECK_OK)
    /\ (typeName2 v <> None ->
        pg_type_aclcheck svc (catalog s) (snd ty) user ACL_USAGE
        = ACLCHECK_OK)
    /\ pg_proc_aclcheck svc (catalog s) f user ACL_EXECUTE = ACLCHECK_OK
    /\ (exists rettype,
           get_func_rettype svc (catalog s) f = inr rettype
           /\ pg_type_aclcheck svc (catalog s) rettype user ACL_USAGE
              = ACLCHECK_OK)
    /\ (restrictionName v <> [] ->
        get_func_rettype svc (catalog s) r = inr (FLOAT8OID svc)
        /\ pg_proc_aclcheck svc (catalog s) r user ACL_EXECUTE
           = ACLCHECK_OK)
    /\ (joinName v <> [] ->
        get_func_rettype svc (catalog s) j = inr (FLOAT8OID svc)
        /\ pg_proc_aclcheck svc (catalog s) j user ACL_EXECUTE
           = ACLCHECK_OK).
Proof.
  intros user.
  destruct (DefineOperator_aborts_or_passes svc names parameters s)
    as [(e & s0 & Hfail & _) | (ns & v & s1 & ty & f & r & j & Hcat & Hns & Hpar
                               & Hty & Hfn & Hres & Hjoin)];
    [congruence |].
  assert (Hpass : checks_pass svc names parameters s ns v s1 ty f r j)
    by (unfold checks_pass; auto 10).
  exists ns, v, s1, ty, f, r, j.
  split; [exact Hpass |]. split; [exact Hcat |].
  rewrite (DefineOperator_passes svc _ _ _ _ _ _ _ _ _ _ Hpass) in Hrun.
  unfold call_OperatorCreate in Hrun. rewrite Hcat in Hrun.
  injection Hrun as Haddr Hs'.
  destruct (namespace_passes svc _ _ _ _ Hns) as [_ Hacl].
  destruct (types_passes svc _ _ _ _ Hty) as (Hids & Hleft & Hright).
  destruct (typeIds_passes svc _ _ _ _ Hids) as (Hname & _ & _).
  destruct (function_passes svc _ _ _ _ _ _ Hfn) as (_ & Hexec & Hret).
  rewrite Hcat in *.
  repeat split.
  - rewrite <- Hs'. simpl.
    destruct (OperatorCreate svc _ (catalog s)) as [r0 c0]. simpl in *.
    now subst r0.
  - now rewrite <- Hs'.
  - exact Hname.
  - eapply typeIds_valid; eassumption.
  - exact Hacl.
  - intros Ht. destruct (typeName1 v) as [t |] eqn:E; [| congruence].
    now apply (Hleft t).
  - intros Ht. destruct (typeName2 v) as [t |] eqn:E; [| congruence].
    now apply (Hright t).
  - exact Hexec.
  - exact Hret.
  - destruct (restriction_passes svc _ _ _ _ H Hres) as (_ & Hf & _).
    now rewrite Hcat in Hf.
  - destruct (restriction_passes svc _ _ _ _ H Hres) as (_ & _ & Hx).
    now rewrite Hcat in Hx.
  - destruct (join_passes svc _ _ _ _ H Hjoin) as (_ & Hf & _).
    now rewrite Hcat in Hf.
  - destruct (join_passes svc _ _ _ _ H Hjoin) as (_ & _ & Hx).
    now rewrite Hcat in Hx.
Qed.
End DefineOperator_success.

(** ** The properties at work on the small catalog and the small heap *)

Lemma DefineOperator_last_assignment_wins_witness :
  (exists v s',
      DefineOperator_parameters Toy.services
        ([Toy.procedure "int4um"]
           ++ Toy.procedure "int4pl" :: [Toy.leftarg Toy.int4])
        Toy.backend = (inr v, s'))
  /\ functionName (Toy_vars ([Toy.procedure "int4um"]
                               ++ Toy.procedure "int4pl"
                                    :: [Toy.leftarg Toy.int4]))
     = ["int4pl"].
Proof.
  destruct (DefineOperator_last_assignment_wins Toy.services
              [Toy.procedure "int4um"] (Toy.procedure "int4pl")
              [Toy.leftarg Toy.int4] Toy.backend) as [Haccepted Hlast].
  split.
  - apply Haccepted.
    repeat constructor; eexists _, _; vm_compute; reflexivity.
  - toy_loop ([Toy.procedure "int4um"]
                ++ Toy.procedure "int4pl" :: [Toy.leftarg Toy.int4]).
    destruct (Hlast _ _ Hpar) as (_ & _ & H & _).
    assert (E : defGetQualifiedName Toy.services (Toy.procedure "int4pl")
                = inr (functionName
                         (Toy_vars ([Toy.procedure "int4um"]
                                      ++ Toy.procedure "int4pl"
                                           :: [Toy.leftarg Toy.int4]))))
      by (apply H; vm_compute; reflexivity).
    apply (f_equal (fun r => match r with inr l => l | inl _ => [] end)) in E.
    symmetry. exact E.
Defined.

Lemma DefineOperator_obsolete_options_witness :
  DefineOperator_param Toy.services (mkDefElem "SORT1" (ArgInteger 7))
    OperatorVars_init Toy.backend
  = (inr (set_canMerge OperatorVars_init true), Toy.backend)
  /\ canMerge (Toy_vars ([Toy.leftarg Toy.int4]
                           ++ mkDefElem "SORT1" (ArgString "<")
                                :: [Toy.procedure "int4pl"]))
     = true.
Proof.
  destruct (DefineOperator_obsolete_options Toy.services
              (mkDefElem "SORT1" (ArgString "<")) "sort1")
    as [Hbody Hloop];
    [vm_compute; reflexivity | simpl; tauto |].
  split; [apply (Hbody (ArgInteger 7)) |].
  toy_loop ([Toy.leftarg Toy.int4]
              ++ mkDefElem "SORT1" (ArgString "<")
                   :: [Toy.procedure "int4pl"]).
  apply (Hloop _ _ _ _ _ Hpar). vm_compute; reflexivity.
Defined.

Lemma DefineOperator_setof_aborts_witness :
  Toy.run ["==="]
    ([Toy.procedure "nosuch"] ++ Toy.rightarg Toy.setof_int4 :: [Toy_bogus])
  = (inl setof_error, Toy.backend).
Proof.
  destruct (DefineOperator_setof_aborts Toy.services ["==="]
              [Toy.procedure "nosuch"] (Toy.rightarg Toy.setof_int4)
              [Toy_bogus] Toy.backend Toy.setof_int4)
    as (_ & H & _);
    [right; vm_compute; reflexivity | reflexivity | reflexivity |].
  apply (H (2200, "===") (Toy_vars [Toy.procedure "nosuch"]) Toy.backend);
    vm_compute; reflexivity.
Defined.

Lemma DefineOperator_argument_error_witness :
  Toy.run ["==="]
    (Toy_binary "int4pl" ++ mkDefElem "hashes" (ArgString "maybe") :: [])
  = (inl (Toy.err ERRCODE_SYNTAX_ERROR "requires a Boolean value"),
     Toy.backend).
Proof.
  destruct (DefineOperator_argument_error Toy.services ["==="]
              (Toy_binary "int4pl") (mkDefElem "hashes" (ArgString "maybe"))
              [] Toy.backend "hashes"
              (Toy.err ERRCODE_SYNTAX_ERROR "requires a Boolean value"))
    as [_ H];
    [vm_compute; reflexivity
    | right; right; split; [simpl; tauto | reflexivity] |].
  apply (H (2200, "===") (Toy_vars (Toy_binary "int4pl")) Toy.backend);
    vm_compute; reflexivity.
Defined.

Lemma DefineOperator_notices_witness :
  notices (snd (Toy.run ["==="]
                  [Toy_bogus; Toy.leftarg Toy.int4;
                   mkDefElem "oprcom" ArgNone]))
  = [unrecognized_warning Toy_bogus;
     unrecognized_warning (mkDefElem "oprcom" ArgNone)].
Proof.
  assert (Hpar : DefineOperator_parameters Toy.services
                   [Toy_bogus; Toy.leftarg Toy.int4;
                    mkDefElem "oprcom" ArgNone] Toy.backend
                 = (inr (Toy_vars [Toy.leftarg Toy.int4]),
                    mkBackend Toy.initial_catalog
                      [unrecognized_warning Toy_bogus;
                       unrecognized_warning (mkDefElem "oprcom" ArgNone)]))
    by (vm_compute; reflexivity).
  destruct (DefineOperator_notices Toy.services ["==="]
              [Toy_bogus; Toy.leftarg Toy.int4; mkDefElem "oprcom" ArgNone]
              Toy.backend) as (_ & H & _).
  unfold Toy.run. rewrite (H (2200, "===") _ _ eq_refl Hpar). reflexivity.
Defined.

Lemma DefineOperator_function_signature_witness :
  DefineOperator_lookup_function Toy.services
    (Toy_vars [Toy.rightarg Toy.int4; Toy.procedure "int4um"]) 0 23
    Toy.backend
  = (LookupFuncName Toy.services Toy.initial_catalog ["int4um"] 1 [23] false,
     Toy.backend).
Proof.
  assert (Hty : DefineOperator_typeIds Toy.services
                  (Toy_vars [Toy.rightarg Toy.int4; Toy.procedure "int4um"])
                  Toy.backend
                = (inr (0, 23), Toy.backend)) by (vm_compute; reflexivity).
  apply (DefineOperator_function_signature Toy.services _ _ _ _ Hty).
Defined.

Lemma DefineOperator_estimator_signatures_witness :
  DefineOperator_lookup_join Toy.services
    (Toy_vars [Toy.join "oldjoinsel"]) Toy.backend
  = (inr 9101, Toy.backend).
Proof.
  destruct (DefineOperator_estimator_signatures Toy.services
              (Toy_vars [Toy.join "oldjoinsel"]) Toy.backend)
    as (_ & _ & H & _).
  apply H; reflexivity.
Defined.

Lemma DefineOperator_defaults_witness :
  Toy.run ["==="] (Toy_binary "int4pl")
  = call_OperatorCreate Toy.services
      (OperatorCreate_arguments (2200, "===")
         (Toy_vars (Toy_binary "int4pl")) (23, 23) 177 0 0)
      Toy.backend
  /\ commutatorName (Toy_vars (Toy_binary "int4pl")) = []
  /\ canMerge (Toy_vars (Toy_binary "int4pl")) = false
  /\ DefineOperator_restriction Toy_no_lookup
       (Toy_vars (Toy_binary "int4pl")) Toy.backend
     = (inr InvalidOid, Toy.backend)
  /\ DefineOperator_join Toy_no_lookup
       (Toy_vars (Toy_binary "int4pl")) Toy.backend
     = (inr InvalidOid, Toy.backend).
Proof.
  assert (Hpass : checks_pass Toy.services ["==="] (Toy_binary "int4pl")
                    Toy.backend (2200, "===")
                    (Toy_vars (Toy_binary "int4pl")) Toy.backend (23, 23)
                    177 0 0).
  { repeat split; vm_compute; reflexivity. }
  destruct (DefineOperator_defaults Toy.services _ _ _ _ _ _ _ _ _ _ Hpass)
    as (Hrun & _ & _ & Hc & _ & Hr & Hj & _ & Hm).
  split; [exact Hrun |].
  split; [apply Hc; vm_compute; reflexivity |].
  split; [apply Hm; vm_compute; reflexivity |].
  split.
  - apply Hr. vm_compute; reflexivity.
  - apply Hj. vm_compute; reflexivity.
Defined.

Lemma DefineOperator_success_witness :
  exists v,
    DefineOperator_parameters Toy.services Toy.plus_parameters Toy.backend
    = (inr v, Toy.backend)
    /\ get_func_rettype Toy.services Toy.initial_catalog 101 = inr 701
    /\ functionName v <> [].
Proof.
  destruct (DefineOperator_success Toy.services ["==="] Toy.plus_parameters
              Toy.backend (mkObjectAddress 2617 16384 0)
              (snd (Toy.run ["==="] Toy.plus_parameters)))
    as (ns & v & s1 & ty & f & r & j & Hpass & _ & _ & _ & Hname & _ & _ & _
        & _ & _ & _ & Hres & _);
    [vm_compute; reflexivity |].
  destruct Hpass as (_ & Hloop & _ & _ & Hr & _).
  toy_loop Toy.plus_parameters.
  rewrite Hpar in Hloop. injection Hloop as <- <-.
  exists (Toy_vars Toy.plus_parameters).
  split; [exact Hpar |]. split; [| exact Hname].
  assert (Er : r = 101).
  { assert (H : DefineOperator_restriction Toy.services
                  (Toy_vars Toy.plus_parameters) Toy.backend
                = (inr 101, Toy.backend)) by (vm_compute; reflexivity).
    rewrite H in Hr. now injection Hr as <-. }
  subst r. apply Hres. vm_compute. discriminate.
Defined.

Lemma ToyHeap_occurrences_cons {A} `{EqDecision A} (x y : A) l :
  ToyHeap.occurrences x (y :: l)
  = ((if decide (x = y) then 1 else 0) + ToyHeap.occurrences x l)%nat.
Proof.
  unfold ToyHeap.occurrences. simpl.
  destruct (decide (x = y)) as [-> | Hne].
  - now rewrite bool_decide_eq_true_2.
  - rewrite bool_decide_eq_false_2 by congruence. reflexivity.
Qed.

Lemma ToyHeap_occurrences_remove_first {A} `{EqDecision A} (x y : A) l :
  y ∈ l ->
  ToyHeap.occurrences x l
  = (ToyHeap.occurrences x (ToyHeap.remove_first y l)
     + (if decide (x = y) then 1 else 0))%nat.
Proof.
  induction l as [| z l IH]; intros Hin; [now apply elem_of_nil in Hin |].
  simpl. destruct (decide (z = y)) as [-> | Hne].
  - rewrite ToyHeap_occurrences_cons. lia.
  - rewrite !ToyHeap_occurrences_cons, IH; [lia |].
    apply elem_of_cons in Hin as [-> | Hin]; [congruence | exact Hin].
Qed.

(** The collaborators of the small heap keep the contract. *)
Lemma ToyHeap_contract :
  HeapContract ToyHeap.access ToyHeap.open_count ToyHeap.pin_count.
Proof.
  split; simpl.
  - intros relid lock s r s' H. unfold ToyHeap.open in H.
    injection H as <- <-. split; [reflexivity |].
    intros rel' lock'. unfold ToyHeap.open_count. simpl.
    rewrite ToyHeap_occurrences_cons. lia.
  - intros cache key s r s' H. unfold ToyHeap.search in H.
    destruct (List.find (fun row => snd row =? key) (ToyHeap.rows s))
      as [row |];
      injection H as <- <-; (split; [reflexivity |]); intros t;
      unfold ToyHeap.pin_count; simpl;
      [rewrite ToyHeap_occurrences_cons |]; lia.
  - intros rel tid s r s' H. unfold ToyHeap.delete in H.
    injection H as <- <-. split; reflexivity.
  - intros tup s r s' H. unfold ToyHeap.release in H.
    destruct (bool_decide (tup ∈ ToyHeap.pinned s)) eqn:E;
      injection H as <- <-; (split; [reflexivity |]); intros t;
      unfold ToyHeap.pin_count; simpl; [| lia].
    apply bool_decide_eq_true_1 in E.
    now apply ToyHeap_occurrences_remove_first.
  - intros rel lock s r s' H. unfold ToyHeap.close in H.
    destruct (bool_decide ((rel, lock) ∈ ToyHeap.opened s)) eqn:E;
      injection H as <- <-; (split; [reflexivity |]); intros rel' lock';
      unfold ToyHeap.open_count; simpl; [| lia].
    apply bool_decide_eq_true_1 in E.
    now apply ToyHeap_occurrences_remove_first.
Qed.

Lemma RemoveOperatorById_missing_witness :
  RemoveOperatorById ToyHeap.access 99 ToyHeap.initial
  = (inl (mkErrorData ERROR ERRCODE_INTERNAL_ERROR
            "cache lookup failed for operator__ 99"),
     ToyHeap.mkState (ToyHeap.rows ToyHeap.initial) [(2617, 3)] []).
Proof.
  destruct (RemoveOperatorById_missing ToyHeap.access 99 ToyHeap.initial 2617
              (ToyHeap.mkState (ToyHeap.rows ToyHeap.initial) [(2617, 3)] [])
              (ToyHeap.mkState (ToyHeap.rows ToyHeap.initial) [(2617, 3)] [])
              eq_refl eq_refl) as (H & _).
  rewrite H. reflexivity.
Defined.

Lemma RemoveOperatorById_balanced_witness :
  ToyHeap.open_count
    (snd (RemoveOperatorById ToyHeap.access 16384 ToyHeap.initial)) 2617 3
  = ToyHeap.open_count ToyHeap.initial 2617 3
  /\ ToyHeap.open_count
       (snd (RemoveOperatorById ToyHeap.access 99 ToyHeap.initial)) 2617 3
     = S (ToyHeap.open_count ToyHeap.initial 2617 3).
Proof.
  destruct (RemoveOperatorById_balanced ToyHeap.access ToyHeap.open_count
              ToyHeap.pin_count ToyHeap_contract 16384 ToyHeap.initial)
    as [Hok _].
  destruct (RemoveOperatorById_balanced ToyHeap.access ToyHeap.open_count
              ToyHeap.pin_count ToyHeap_contract 99 ToyHeap.initial)
    as [_ Hmiss].
  split.
  - apply (Hok (snd (RemoveOperatorById ToyHeap.access 16384
                       ToyHeap.initial))).
    vm_compute; reflexivity.
  - apply (Hmiss 2617
             (ToyHeap.mkState (ToyHeap.rows ToyHeap.initial) [(2617, 3)] [])
             (ToyHeap.mkState (ToyHeap.rows ToyHeap.initial) [(2617, 3)] []));
      reflexivity.
Defined.

Lemma QTW_flag_words_witness :
  0 <= Z.lor QTW_IGNORE_RT_SUBQUERIES QTW_EXAMINE_RTES < 64
  /\ or_flags [QTW_IGNORE_RT_SUBQUERIES; QTW_EXAMINE_RTES]
     = or_flags [QTW_EXAMINE_RTES; QTW_IGNORE_RT_SUBQUERIES;
                 QTW_EXAMINE_RTES].
Proof.
  assert (H1 : [QTW_IGNORE_RT_SUBQUERIES; QTW_EXAMINE_RTES] ⊆ QTW_flags)
    by (apply (bool_decide_unpack _); vm_compute; exact I).
  assert (H2 : [QTW_EXAMINE_RTES; QTW_IGNORE_RT_SUBQUERIES; QTW_EXAMINE_RTES]
               ⊆ QTW_flags)
    by (apply (bool_decide_unpack _); vm_compute; exact I).
  destruct (QTW_flag_words _ _ H1 H2) as [Hb Heq].
  split; [exact Hb |].
  apply Heq. intros f. rewrite !elem_of_cons. tauto.
Defined.

